(** * better-context: query parser, workspace engine and agent sessions

    A shallow embedding of the TypeScript sources

    - [lib/utils/query.ts]      ([parseQuery], [getWorkspaceKey], [mergeRepos]),
    - [lib/utils/validation.ts] ([validateProviderAndModel]),
    - [services/workspace.ts]   ([ensureWorkspace], [clearWorkspace]),
    - [services/oc.ts]          ([getOpencodeInstanceForWorkspace],
                                 [streamSessionEvents], [firePrompt],
                                 [streamPrompt], [createSession],
                                 [askInSession], [askQuestion],
                                 [askQuestionLegacy]),
    - [services/cli.ts]         ([sanitizePlanningText], [getMessageState],
                                 [cleanupMessageStates]),

    together with the properties the specification states about them.

    JavaScript strings are sequences of UTF-16 code units; they are
    modelled as lists of code units, a code unit being a number.  Regular
    expressions without the [u] flag, [Array.prototype.sort] without a
    comparator and [String.prototype.trim] all work on code units, so the
    model is exact for every input string.

    A promise that rejects under [Effect.tryPromise] is a failure of the
    effect; under [Effect.promise] it is a defect, which no handler of
    failures sees. *)

From Stdlib Require Import NArith ZArith Lia String Ascii.
From stdpp Require Import base decidable option list sorting gmap.

Local Open Scope N_scope.

(** ** JavaScript strings *)

Module JS.

Definition code_unit : Type := N.
Definition jsstring : Type := list code_unit.

(** A literal: every character of a Rocq string is one code unit. *)
Definition lit (s : string) : jsstring :=
  List.map N_of_ascii (list_ascii_of_string s).

(** [a < b] on strings: code unit by code unit, a proper prefix is smaller. *)
Fixpoint compare (a b : jsstring) : comparison :=
  match a, b with
  | [], [] => Eq
  | [], _ :: _ => Lt
  | _ :: _, [] => Gt
  | x :: a', y :: b' =>
      match N.compare x y with
      | Eq => compare a' b'
      | c => c
      end
  end.

Definition le (a b : jsstring) : Prop := compare a b <> Gt.
Definition lt (a b : jsstring) : Prop := compare a b = Lt.

#[global] Instance le_dec (a b : jsstring) : Decision (le a b).
Proof. unfold le; apply _. Defined.

(** [Array.prototype.sort()] with the default comparator.  The engine is free
    to choose the algorithm but the result is the ordered rearrangement of the
    array; the order is total and two strings that compare equal are the same
    string, so every correct algorithm returns the same array.  A merge sort
    stands for it. *)
Definition sort (l : list jsstring) : list jsstring := merge_sort le l.

(** [Array.prototype.join(sep)] *)
Fixpoint join (sep : jsstring) (l : list jsstring) : jsstring :=
  match l with
  | [] => []
  | [x] => x
  | x :: rest => x ++ sep ++ join sep rest
  end.

(** [new Set(iterable)] followed by a spread: the elements in the order of
    their first insertion. *)
Fixpoint setAddAll (seen l : list jsstring) : list jsstring :=
  match l with
  | [] => seen
  | x :: rest =>
      if decide (x ∈ seen) then setAddAll seen rest
      else setAddAll (seen ++ [x]) rest
  end.

Definition newSet (l : list jsstring) : list jsstring := setAddAll [] l.

(** [String.prototype.includes] *)
Fixpoint startsWith (p s : jsstring) : bool :=
  match p, s with
  | [], _ => true
  | _ :: _, [] => false
  | x :: p', y :: s' => (x =? y) && startsWith p' s'
  end.

Fixpoint includes (s p : jsstring) : bool :=
  startsWith p s ||
  match s with
  | [] => false
  | _ :: s' => includes s' p
  end.

(** The white space of [\s] and of [trim]: WhiteSpace and LineTerminator. *)
Definition isSpace (c : code_unit) : bool :=
  ((9 <=? c) && (c <=? 13)) || (c =? 32) || (c =? 160) || (c =? 5760)
  || ((8192 <=? c) && (c <=? 8202)) || (c =? 8232) || (c =? 8233)
  || (c =? 8239) || (c =? 8287) || (c =? 12288) || (c =? 65279).

Definition isUpper (c : code_unit) : bool := (65 <=? c) && (c <=? 90).

(** [String.prototype.toLowerCase] on the letters of the Basic Latin block.
    Every string the sources lower-case here consists of characters of
    [[a-zA-Z0-9_-]], on which this is the whole of the function. *)
Definition lowerUnit (c : code_unit) : code_unit :=
  if isUpper c then c + 32 else c.

Definition toLowerCase (s : jsstring) : jsstring := List.map lowerUnit s.

(** Dropping the longest prefix made of characters of a class, and taking it. *)
Fixpoint dropClass (p : code_unit -> bool) (s : jsstring) : jsstring :=
  match s with
  | [] => []
  | c :: t => if p c then dropClass p t else s
  end.

Fixpoint takeClass (p : code_unit -> bool) (s : jsstring) : jsstring :=
  match s with
  | [] => []
  | c :: t => if p c then c :: takeClass p t else []
  end.

(** [String.prototype.trim] *)
Definition trim (s : jsstring) : jsstring :=
  reverse (dropClass isSpace (reverse (dropClass isSpace s))).

(** *** Regular expressions with the [g] flag

    An anchored matcher tells whether the expression matches at the start of
    [s] and, if it does, returns what follows the match.  Neither expression of
    the sources matches the empty string. *)
Definition matcher : Type := jsstring -> option jsstring.

(** [s.replace(re, repl)] for a global [re]: the matches are found from left
    to right, each search resuming where the previous match ended. *)
Fixpoint replaceFrom (m : matcher) (repl : jsstring) (fuel : nat)
    (s : jsstring) : jsstring :=
  match s with
  | [] => []
  | c :: t =>
      match fuel with
      | O => s
      | S fuel' =>
          match m s with
          | Some rest => repl ++ replaceFrom m repl fuel' rest
          | None => c :: replaceFrom m repl fuel' t
          end
      end
  end.

Definition replaceAll (m : matcher) (repl s : jsstring) : jsstring :=
  replaceFrom m repl (length s) s.

(** [s.split(sep)] for a separator of one character: the pieces between the
    occurrences of the separator; the empty string gives one empty piece. *)
Fixpoint split (sep : code_unit) (s : jsstring) : list jsstring :=
  match s with
  | [] => [[]]
  | c :: t =>
      if c =? sep then [] :: split sep t
      else match split sep t with
           | [] => [[c]]
           | piece :: pieces => (c :: piece) :: pieces
           end
  end.

End JS.

(** ** Paths

    [join] of the [Path] service of the platform, which is [path.posix.join]
    of Node: the arguments that are not empty are joined with [/] and the
    result is normalised -- empty segments and [.] are dropped, [..] takes the
    segment before it away, a trailing [/] is kept. *)

Module Path.
Import JS.

Definition slash : code_unit := 47.
Definition dot : jsstring := [46].
Definition dotdot : jsstring := [46; 46].

(** One segment of the walk of [normalizeString]; the segments kept so far
    are held last first. *)
Definition normalizeStep (allowAboveRoot : bool) (kept : list jsstring)
    (segment : jsstring) : list jsstring :=
  if bool_decide (segment = []) || bool_decide (segment = dot) then kept
  else if bool_decide (segment = dotdot) then
    match kept with
    | top :: rest =>
        if bool_decide (top = dotdot)
        then (if allowAboveRoot then dotdot :: kept else kept)
        else rest
    | [] => if allowAboveRoot then [dotdot] else []
    end
  else segment :: kept.

Definition normalizeString (path : jsstring) (allowAboveRoot : bool) : jsstring :=
  JS.join [slash]
    (rev (fold_left (normalizeStep allowAboveRoot) (split slash path) [])).

(** [path.posix.normalize] *)
Definition normalize (path : jsstring) : jsstring :=
  match path with
  | [] => dot
  | c :: _ =>
      let isAbsolute := c =? slash in
      let trailingSeparator :=
        match last path with Some d => d =? slash | None => false end in
      match normalizeString path (negb isAbsolute) with
      | [] => if isAbsolute then [slash]
              else if trailingSeparator then dot ++ [slash] else dot
      | p => (if isAbsolute then [slash] else [])
             ++ p ++ (if trailingSeparator then [slash] else [])
      end
  end.

(** [path.posix.join] *)
Definition join (paths : list jsstring) : jsstring :=
  match List.filter (fun arg => negb (bool_decide (arg = []))) paths with
  | [] => dot
  | joined => normalize (JS.join [slash] joined)
  end.

End Path.

(** ** Results

    A computation that can throw, or an [Effect] that can fail, returns a
    [result]. *)

Module Outcome.

Inductive result (E A : Type) : Type :=
  | Ok (a : A)
  | Err (e : E).
Arguments Ok {E A} a.
Arguments Err {E A} e.

End Outcome.

(** ** [lib/utils/query.ts] *)

Module Query.
Import JS Outcome.

Record ParsedQuery : Type := mkParsedQuery {
  repos : list jsstring;   (* sorted, deduplicated *)
  query : jsstring         (* the query with the mentions stripped *)
}.

(** The class [[a-zA-Z0-9_-]]. *)
Definition isMentionChar (c : code_unit) : bool :=
  ((97 <=? c) && (c <=? 122)) || ((65 <=? c) && (c <=? 90))
  || ((48 <=? c) && (c <=? 57)) || (c =? 95) || (c =? 45).

Definition atSign : code_unit := 64.

(** [/@([a-zA-Z0-9_-]+)/] anchored at the start of [s]: the capture group and
    what follows the match.  The quantifier is greedy and nothing follows it,
    so the capture is the longest run of characters of the class. *)
Definition mentionAt (s : jsstring) : option (jsstring * jsstring) :=
  match s with
  | [] => None
  | c :: t =>
      if c =? atSign then
        match takeClass isMentionChar t with
        | [] => None
        | name => Some (name, dropClass isMentionChar t)
        end
      else None
  end.

Definition mentionRegex : matcher := fun s => snd <$> mentionAt s.

(** [/\s+/] anchored at the start of [s]. *)
Definition spacesRegex : matcher := fun s =>
  match s with
  | [] => None
  | c :: t => if isSpace c then Some (dropClass isSpace t) else None
  end.

(** The loop [while ((match = mentionRegex.exec(input)) !== null)]: each
    capture is lower-cased and pushed. *)
Fixpoint execLoop (fuel : nat) (s : jsstring) : list jsstring :=
  match s with
  | [] => []
  | _ :: t =>
      match fuel with
      | O => []
      | S fuel' =>
          match mentionAt s with
          | Some (name, rest) => toLowerCase name :: execLoop fuel' rest
          | None => execLoop fuel' t
          end
      end
  end.

Definition parseQuery (input : jsstring) : ParsedQuery :=
  let repos := execLoop (length input) input in
  let query :=
    trim (replaceAll spacesRegex (lit " ") (replaceAll mentionRegex [] input)) in
  let uniqueRepos := sort (newSet repos) in
  {| repos := uniqueRepos; query := query |}.

Definition emptyReposMessage : jsstring :=
  lit "Cannot generate workspace key from empty repos list".

Definition getWorkspaceKey (repos : list jsstring) : result jsstring jsstring :=
  match repos with
  | [] => Err emptyReposMessage
  | _ => Ok (join (lit "+") (sort repos))
  end.

(** Merge the repositories of several sources.  [toLowerCase] is applied to
    names of any origin here; the model of it is that of the Basic Latin
    block, so the properties of [mergeRepos] are stated for names of that
    block (code units below 128). *)
Definition mergeRepos (repoLists : list (list jsstring)) : list jsstring :=
  let all := List.map toLowerCase (concat repoLists) in
  sort (newSet all).

End Query.

(** ** The world the services act on

    The services run git, touch the file system and talk to the agent server.
    The state they change is threaded explicitly; what the outside answers
    (whether a git command succeeds, what the agent replies) is an argument of
    the run. *)

Module Sys.
Import JS Outcome.

Inductive ValidationError : Type :=
  | InvalidProviderError (providerId : jsstring) (availableProviders : list jsstring)
  | ProviderNotConnectedError (providerId : jsstring)
      (connectedProviders : list jsstring)
  | InvalidModelError (providerId modelId : jsstring)
      (availableModels : list jsstring).

Inductive Error : Type :=
  | ConfigError (message : jsstring)
  | GitError (command : jsstring) (target : jsstring)
  | FileError (path : jsstring)
  | OcError (message : jsstring)
  | Validation (e : ValidationError)
  | Thrown (message : jsstring)
      (* a defect: an exception thrown, or a promise rejected under
         [Effect.promise] *)
  | OutOfFuel.   (* of the model only: a loop cut short; never returned *)

(** One [git worktree add]: the central clone, the target and the ref. *)
Record WorktreeAdd : Type := mkWorktreeAdd {
  repoDir : jsstring;
  targetDir : jsstring;
  ref : jsstring
}.

Record World : Type := mkWorld {
  dirs : gset jsstring;            (* the directories that exist, by path *)
  worktreeAdds : list WorktreeAdd; (* the worktrees created, oldest first *)
  bootAttempts : list N;           (* the ports [createOpencode] was tried on *)
  servers : list N;                (* the ports of the servers started *)
  closes : list N;                 (* the servers [close()] was called on *)
  sessionCreates : nat             (* the calls of [session.create] *)
}.

Definition M (A : Type) : Type := World -> result Error A * World.

Definition ret {A} (a : A) : M A := fun w => (Ok a, w).
Definition fail {A} (e : Error) : M A := fun w => (Err e, w).
Definition bind {A B} (m : M A) (k : A -> M B) : M B := fun w =>
  match m w with
  | (Ok a, w') => k a w'
  | (Err e, w') => (Err e, w')
  end.
Definition modify (f : World -> World) : M unit := fun w => (Ok tt, f w).
Definition gets {A} (f : World -> A) : M A := fun w => (Ok (f w), w).

Declare Scope eff_scope.
Delimit Scope eff_scope with eff.
Notation "'let*' x := m 'in' k" := (bind m (fun x => k))
  (at level 10, x name, m at level 200, k at level 200) : eff_scope.
Local Open Scope eff_scope.

(** [for (const x of l) { yield* f(x) }] *)
Fixpoint forEach {A} (f : A -> M unit) (l : list A) : M unit :=
  match l with
  | [] => ret tt
  | x :: rest => let* _ := f x in forEach f rest
  end.

(** A loop that pushes what each step yields. *)
Fixpoint collect {A B} (f : A -> M B) (l : list A) : M (list B) :=
  match l with
  | [] => ret []
  | x :: rest => let* y := f x in let* ys := collect f rest in ret (y :: ys)
  end.

End Sys.

(** ** [services/workspace.ts] *)

Module Workspace.
Import JS Outcome Query Sys.
Local Open Scope eff_scope.

(** A repository of the configuration. *)
Record Repo : Type := mkRepo {
  name : jsstring;
  url : jsstring;
  branch : jsstring;
  specialNotes : option jsstring;
  searchPath : option jsstring
}.

Record RepoInfo : Type := mkRepoInfo {
  infoName : jsstring;
  relativePath : jsstring;
  infoNotes : option jsstring
}.

Record WorkspaceInfo : Type := mkWorkspaceInfo {
  workspacePath : jsstring;
  repos : list RepoInfo
}.

(** What [ConfigService] holds: the two directories, the repositories and the
    raw configuration of provider and model. *)
Record Config : Type := mkConfig {
  workspacesDirectory : jsstring;
  reposDirectory : jsstring;
  configRepos : list Repo;
  provider : jsstring;
  model : jsstring
}.

(** What the outside answers during one run: the git commands and the
    directory creations that fail. *)
Record Outside : Type := mkOutside {
  syncFails : jsstring -> bool;        (* clone or fetch of this repository *)
  mkdirFails : jsstring -> bool;       (* creation of this directory *)
  worktreeAddFails : jsstring -> bool  (* [git worktree add] at this target *)
}.

(** [pathService.join(a, b)] for a directory [a] in normal form and a plain
    name [b] -- not empty, without [/], neither [.] nor [..]: there the join
    normalises nothing and only puts a [/] between the two (see
    [pathJoin_is_join] below).  The services call it with the directories
    of the configuration, and with the names and keys of repositories. *)
Definition pathJoin (a b : jsstring) : jsstring := a ++ lit "/" ++ b.

(** Modelled from the spec: [config.getRepo] of services/config.ts, the
    lookup of the resource registry, [get(name)], which fails on a name that
    is not registered. *)
Definition getRepo (cfg : Config) (repoName : jsstring) : M Repo :=
  match List.find (fun r => bool_decide (name r = repoName)) (configRepos cfg) with
  | Some r => ret r
  | None => fail (ConfigError (lit "Repo not found: " ++ repoName))
  end.

(** Modelled from the spec: [config.cloneOrUpdateOneRepoLocally] of
    services/config.ts, the [ensureFresh] of the repo cache: a clone into
    [<reposDir>/<name>] when that directory does not exist, a fetch when it
    does; either can fail. *)
Definition cloneOrUpdateOneRepoLocally (cfg : Config) (out : Outside)
    (repoName : jsstring) : M unit :=
  if syncFails out repoName then fail (GitError (lit "sync") repoName)
  else modify (fun w =>
    mkWorld ({[ pathJoin (reposDirectory cfg) repoName ]} ∪ dirs w)
      (worktreeAdds w) (bootAttempts w) (servers w) (closes w)
      (sessionCreates w)).

(** Modelled from the spec: [directoryExists] of lib/utils/files.ts, the
    test that a directory exists. *)
Definition directoryExists (path : jsstring) : M bool :=
  gets (fun w => bool_decide (path ∈ dirs w)).

(** Modelled from the spec: [ensureDirectory] of lib/utils/files.ts, the
    creation of a directory, which can fail. *)
Definition ensureDirectory (out : Outside) (path : jsstring) : M unit :=
  if mkdirFails out path then fail (FileError path)
  else modify (fun w =>
    mkWorld ({[ path ]} ∪ dirs w) (worktreeAdds w) (bootAttempts w)
      (servers w) (closes w) (sessionCreates w)).

(** Modelled from the spec: [createWorktree] of lib/utils/git.ts, one
    [git worktree add]: on success the target directory exists. *)
Definition createWorktree (out : Outside) (args : WorktreeAdd) : M unit :=
  if worktreeAddFails out (targetDir args)
  then fail (GitError (lit "worktree add") (targetDir args))
  else modify (fun w =>
    mkWorld ({[ targetDir args ]} ∪ dirs w) (worktreeAdds w ++ [args])
      (bootAttempts w) (servers w) (closes w) (sessionCreates w)).

(** The worktree of one repository of the workspace. *)
Definition worktreeOf (cfg : Config) (workspacePath : jsstring) (repo : Repo)
    : WorktreeAdd :=
  {| repoDir := pathJoin (reposDirectory cfg) (name repo);
     targetDir := pathJoin workspacePath (name repo);
     ref := lit "origin/" ++ branch repo |}.

Definition repoInfo (repo : Repo) : RepoInfo :=
  {| infoName := name repo;
     relativePath :=
       match searchPath repo with
       | Some sp => if bool_decide (sp = []) then name repo
                    else Path.join [name repo; sp]
       | None => name repo
       end;
     infoNotes := specialNotes repo |}.

(** Get or create the workspace of the given repositories. *)
Definition ensureWorkspace (cfg : Config) (out : Outside)
    (repoNames : list jsstring) : M WorkspaceInfo :=
  match repoNames with
  | [] => fail (ConfigError (lit "At least one repo must be specified"))
  | _ =>
      let sortedRepos := sort repoNames in
      match getWorkspaceKey sortedRepos with
      | Err message => fail (Thrown message)
      | Ok key =>
          let workspacesDir := workspacesDirectory cfg in
          let workspacePath := pathJoin workspacesDir key in
          (* the configurations of the repositories, all of which must exist *)
          let* repoConfigs := collect (getRepo cfg) sortedRepos in
          (* pull or clone the central repositories first *)
          let* _ := forEach (cloneOrUpdateOneRepoLocally cfg out) sortedRepos in
          let* workspaceExists := directoryExists workspacePath in
          let* _ :=
            if negb workspaceExists then
              let* _ := ensureDirectory out workspacePath in
              forEach (fun repo => createWorktree out (worktreeOf cfg workspacePath repo))
                repoConfigs
            else ret tt in
          ret {| workspacePath := workspacePath;
                 repos := List.map repoInfo repoConfigs |}
      end
  end.

End Workspace.

(** ** [services/workspace.ts]: clearing a workspace

    The state is the world together with the log of the [git worktree remove]
    commands that were run. *)

Module WorkspaceClear.
Import JS Outcome Query Sys Workspace.

(** One [git worktree remove]: the central clone and the worktree. *)
Record WorktreeRemove : Type := mkWorktreeRemove {
  centralDir : jsstring;
  worktreeDir : jsstring
}.

Record State : Type := mkState {
  world : World;
  worktreeRemoves : list WorktreeRemove   (* oldest first *)
}.

Definition C (A : Type) : Type := State -> result Error A * State.

Definition retC {A} (a : A) : C A := fun s => (Ok a, s).
Definition failC {A} (e : Error) : C A := fun s => (Err e, s).
Definition bindC {A B} (m : C A) (k : A -> C B) : C B := fun s =>
  match m s with
  | (Ok a, s') => k a s'
  | (Err e, s') => (Err e, s')
  end.

(** An effect on the world alone. *)
Definition liftC {A} (m : M A) : C A := fun s =>
  let '(r, w') := m (world s) in (r, mkState w' (worktreeRemoves s)).

Fixpoint forEachC {A} (f : A -> C unit) (l : list A) : C unit :=
  match l with
  | [] => retC tt
  | x :: rest => bindC (f x) (fun _ => forEachC f rest)
  end.

(** What the outside answers to the removals of one run. *)
Record Removals : Type := mkRemovals {
  removeWorktreeFails : jsstring -> bool;   (* by worktree directory *)
  removeDirectoryFails : jsstring -> bool
}.

(** The path is the directory or lies below it. *)
Definition isUnder (dir path : jsstring) : bool :=
  bool_decide (path = dir) || startsWith (dir ++ lit "/") path.

(** The world without the directory and what lies below it. *)
Definition removeTree (dir : jsstring) (w : World) : World :=
  mkWorld (filter (fun path => isUnder dir path = false) (dirs w))
    (worktreeAdds w) (bootAttempts w) (servers w) (closes w) (sessionCreates w).

(** Modelled from the spec: [removeWorktree] of lib/utils/git.ts, one
    [git worktree remove]; on success the directory of the worktree is gone. *)
Definition removeWorktree (rm : Removals) (args : WorktreeRemove) : C unit :=
  if removeWorktreeFails rm (worktreeDir args)
  then failC (GitError (lit "worktree remove") (worktreeDir args))
  else fun s =>
    (Ok tt, mkState (removeTree (worktreeDir args) (world s))
                    (worktreeRemoves s ++ [args])).

(** Modelled from the spec: [removeDirectory] of lib/utils/files.ts, the
    removal of a directory with all that it holds. *)
Definition removeDirectory (rm : Removals) (path : jsstring) : C unit :=
  if removeDirectoryFails rm path then failC (FileError path)
  else fun s => (Ok tt, mkState (removeTree path (world s)) (worktreeRemoves s)).

(** The message [Workspace "<key>" not found]. *)
Definition notFoundMessage (key : jsstring) : jsstring :=
  lit "Workspace " ++ [34] ++ key ++ [34] ++ lit " not found".

(** Internal helper to clear a workspace. *)
Definition clearWorkspaceInternal (rm : Removals)
    (key workspacesDir reposDir : jsstring) : C unit :=
  let workspacePath := pathJoin workspacesDir key in
  bindC (liftC (directoryExists workspacePath)) (fun exists_ =>
  if negb exists_ then failC (ConfigError (notFoundMessage key))
  else
    (* the names of the repositories, from the key *)
    let repoNames := split 43 key in
    bindC
      (forEachC (fun repoName =>
         let centralRepoPath := pathJoin reposDir repoName in
         let worktreePath := pathJoin workspacePath repoName in
         bindC (liftC (directoryExists centralRepoPath)) (fun centralExists =>
         if centralExists then
           removeWorktree rm {| centralDir := centralRepoPath;
                                worktreeDir := worktreePath |}
         else retC tt))
         repoNames)
      (fun _ => removeDirectory rm workspacePath)).

(** Clear a specific workspace by key. *)
Definition clearWorkspace (cfg : Config) (rm : Removals) (key : jsstring)
    : C unit :=
  clearWorkspaceInternal rm key (workspacesDirectory cfg) (reposDirectory cfg).

End WorkspaceClear.

(** ** [lib/utils/validation.ts] and the agent *)

Module Agent.
Import JS.

Record Provider : Type := mkProvider {
  id : jsstring;
  models : list jsstring     (* [Object.keys(provider.models)] *)
}.

Record ProviderList : Type := mkProviderList {
  all : list Provider;
  connected : list jsstring
}.

(** What [createOpencode] rejects with: an [Error], with its [stack] if it has
    one, or another value. *)
Inductive Rejection : Type :=
  | RejectError (stack : option jsstring)
  | RejectOther.

Inductive BootResult : Type :=
  | Started
  | Rejected (cause : Rejection).

(** An event of the agent: its [type] and, of its [properties], the
    [sessionID] ([None] when the key is absent) and the name of the [error]
    ([None] when there is no error or it has no name). *)
Record Event : Type := mkEvent {
  type : jsstring;
  sessionID : option jsstring;
  errorName : option jsstring
}.

(** What the agent answers during one run. *)
Record Agent : Type := mkAgent {
  createOpencode : N -> BootResult;   (* by port *)
  providerList : option (option ProviderList);
    (* [provider.list()]: rejected, or a response with or without [data] *)
  sessionCreateRejects : option jsstring;
    (* the promise of [session.create()] rejects, with this message *)
  sessionCreate : Outcome.result jsstring jsstring;
    (* what it resolves with otherwise: [session.error] or [session.data.id] *)
  subscribeFails : bool;              (* [event.subscribe()] rejects *)
  eventStream : list Event;           (* what [events.stream] yields ... *)
  eventStreamThrows : bool;           (* ... and whether it then throws *)
  promptFails : option (nat * jsstring)
    (* the promise of [session.prompt] rejects, with this message, after the
       consumer got that many events *)
}.

End Agent.

Module Validation.
Import JS Outcome Sys Agent.

Definition validateProviderAndModel (client : Agent)
    (providerId modelId : jsstring) : M unit :=
  match providerList client with
  | None | Some None =>
      (* the providers could not be fetched: validation is skipped *)
      ret tt
  | Some (Some data) =>
      match List.find (fun p => bool_decide (id p = providerId)) (all data) with
      | None =>
          fail (Validation
            (InvalidProviderError providerId (List.map id (all data))))
      | Some provider =>
          if negb (bool_decide (providerId ∈ connected data)) then
            fail (Validation
              (ProviderNotConnectedError providerId (connected data)))
          else
            let modelIds := models provider in
            if negb (bool_decide (modelId ∈ modelIds)) then
              fail (Validation (InvalidModelError providerId modelId modelIds))
            else ret tt
      end
  end.

End Validation.

(** ** Streams

    [Stream] of the effect library, on the finite run of a stream: the
    elements it emits and how it ends.  A finalizer added by [ensuring] runs
    when the stream is consumed. *)

Module Stream.
Import JS Outcome Sys Agent.

Inductive Exit : Type :=
  | Done
  | Failed (e : Error).

Record t : Type := mkStream {
  emitted : list Event;
  exit : Exit;
  finalizer : option N    (* the server that the clean-up closes *)
}.

Definition fromAsyncIterable (events : list Event) (throws : bool)
    (onError : Error) : t :=
  {| emitted := events;
     exit := if throws then Failed onError else Done;
     finalizer := None |}.

Definition filter (p : Event -> bool) (s : t) : t :=
  {| emitted := List.filter p (emitted s);
     exit := exit s;
     finalizer := finalizer s |}.

(** The elements up to the first one that satisfies [p], that one included;
    [true] when there is one. *)
Fixpoint upTo (p : Event -> bool) (l : list Event) : list Event * bool :=
  match l with
  | [] => ([], false)
  | e :: rest =>
      if p e then ([e], true)
      else let '(r, hit) := upTo p rest in (e :: r, hit)
  end.

Definition takeUntil (p : Event -> bool) (s : t) : t :=
  let '(r, hit) := upTo p (emitted s) in
  {| emitted := r;
     exit := if hit then Done else exit s;
     finalizer := finalizer s |}.

(** The results of [f] up to its first failure. *)
Fixpoint mapWhileOk (f : Event -> result Error Event) (l : list Event)
    : list Event * option Error :=
  match l with
  | [] => ([], None)
  | e :: rest =>
      match f e with
      | Err err => ([], Some err)
      | Ok e' => let '(r, failure) := mapWhileOk f rest in (e' :: r, failure)
      end
  end.

Definition mapEffect (f : Event -> result Error Event) (s : t) : t :=
  let '(r, failure) := mapWhileOk f (emitted s) in
  {| emitted := r;
     exit := match failure with Some err => Failed err | None => exit s end;
     finalizer := finalizer s |}.

(** [interruptWhen] of an effect that fails with [err] once [n] elements have
    been emitted, if the stream has not ended before. *)
Definition interruptWhen (failure : option (nat * Error)) (s : t) : t :=
  match failure with
  | Some (n, err) =>
      if (n <=? length (emitted s))%nat then
        {| emitted := take n (emitted s);
           exit := Failed err;
           finalizer := finalizer s |}
      else s
  | None => s
  end.

Definition ensuring (server : N) (s : t) : t :=
  {| emitted := emitted s; exit := exit s; finalizer := Some server |}.

End Stream.

(** ** [services/oc.ts] *)

Module Oc.
Import JS Outcome Query Sys Workspace Agent Validation.
Local Open Scope eff_scope.

Record Client : Type := mkClient {
  baseUrlPort : N;          (* [http://localhost:<port>] *)
  directory : jsstring
}.

Record Instance : Type := mkInstance {
  client : Client;
  server : N                (* the server, by its port *)
}.

Record SessionState : Type := mkSessionState {
  stClient : Client;
  stServer : N;
  stSessionID : jsstring;
  stWorkspacePath : jsstring;
  stRepos : list jsstring
}.

Definition serverClose (server : N) : M unit :=
  modify (fun w =>
    mkWorld (dirs w) (worktreeAdds w) (bootAttempts w) (servers w)
      (closes w ++ [server]) (sessionCreates w)).

(** [err.cause instanceof Error && err.cause.stack?.includes('port')] *)
Definition isPortError (cause : Rejection) : bool :=
  match cause with
  | RejectError (Some stack) => includes stack (lit "port")
  | _ => false
  end.

Definition maxInstances : N := 30.

(** The [while (portOffset < maxInstances)] loop. *)
Fixpoint portLoop (agent : Agent) (workspaceInfo : WorkspaceInfo)
    (fuel : nat) (portOffset : N) : M Instance :=
  if portOffset <? maxInstances then
    match fuel with
    | O => fail OutOfFuel
    | S fuel' =>
        let* _ := modify (fun w =>
          mkWorld (dirs w) (worktreeAdds w)
            (bootAttempts w ++ [3420 + portOffset]) (servers w) (closes w)
            (sessionCreates w)) in
        match createOpencode agent (3420 + portOffset) with
        | Rejected cause =>
            if isPortError cause
            then portLoop agent workspaceInfo fuel' (portOffset + 1)
            else fail (OcError (lit "FAILED TO CREATE OPENCODE CLIENT"))
        | Started =>
            let* _ := modify (fun w =>
              mkWorld (dirs w) (worktreeAdds w) (bootAttempts w)
                (servers w ++ [3420 + portOffset]) (closes w)
                (sessionCreates w)) in
            ret {| client := {| baseUrlPort := 3420 + portOffset;
                                directory := workspacePath workspaceInfo |};
                   server := 3420 + portOffset |}
        end
    end
  else
    fail (OcError (lit "FAILED TO CREATE OPENCODE CLIENT - all ports exhausted")).

Definition getOpencodeInstanceForWorkspace (agent : Agent)
    (workspaceInfo : WorkspaceInfo) : M Instance :=
  portLoop agent workspaceInfo (N.to_nat maxInstances) 0.

Definition forSession (sessionID : jsstring) (event : Event) : bool :=
  match Agent.sessionID event with
  | None => true                                   (* no [sessionID] in props *)
  | Some id => bool_decide (id = sessionID)
  end.

Definition isIdleOf (sessionID : jsstring) (event : Event) : bool :=
  bool_decide (type event = lit "session.idle")
  && bool_decide (Agent.sessionID event = Some sessionID).

Definition streamSessionEvents (agent : Agent) (sessionID : jsstring)
    : M Stream.t :=
  if subscribeFails agent then fail (OcError (lit "Failed to subscribe to events"))
  else
    ret (Stream.takeUntil (isIdleOf sessionID)
          (Stream.filter (forSession sessionID)
            (Stream.fromAsyncIterable (eventStream agent)
               (eventStreamThrows agent) (OcError (lit "Event stream error"))))).

(** The step of [Stream.mapEffect] in [streamPrompt]. *)
Definition failOnSessionError (event : Event) : result Error Event :=
  if bool_decide (type event = lit "session.error") then
    Err (OcError (default (lit "Unknown session error") (errorName event)))
  else Ok event.

(** [firePrompt], forked as a daemon: what it completes [errorDeferred] with,
    and when.  [session.prompt] runs under [Effect.promise], which has no
    failure: a rejection of the promise is a defect of the forked fibre, the
    handler of [catchAll] does not run, and [errorDeferred] stays pending
    whether the prompt rejects or not. *)
Definition firePrompt (agent : Agent) : option (nat * Error) :=
  match promptFails agent with
  | Some _ => None
  | None => None
  end.

Definition streamPrompt (agent : Agent) (sessionID : jsstring)
    (cleanup : option N) : M Stream.t :=
  let* eventStream := streamSessionEvents agent sessionID in
  let errorDeferred := firePrompt agent in
  let stream :=
    Stream.interruptWhen errorDeferred
      (Stream.mapEffect failOnSessionError eventStream) in
  ret match cleanup with
      | Some server => Stream.ensuring server stream
      | None => stream
      end.

(** [Effect.promise(() => client.session.create())]: the call is made; a
    promise that rejects is a defect, not a failure; otherwise the effect
    succeeds with what the promise resolves with. *)
Definition sessionCreatePromise (agent : Agent)
    : M (result jsstring jsstring) :=
  let* _ := modify (fun w =>
    mkWorld (dirs w) (worktreeAdds w) (bootAttempts w) (servers w) (closes w)
      (S (sessionCreates w))) in
  match sessionCreateRejects agent with
  | Some message => fail (Thrown message)
  | None => ret (sessionCreate agent)
  end.

(** Modelled from the spec: [config.getWorkspaceOpenCodeConfig] of
    services/config.ts, which builds the configuration handed to the agent
    from the repositories of the workspace; it changes nothing in the world. *)
Definition getWorkspaceOpenCodeConfig (repos : list RepoInfo) : M unit := ret tt.

Definition createSession (cfg : Config) (out : Outside) (agent : Agent)
    (repos : list jsstring) : M SessionState :=
  let* workspaceInfo := ensureWorkspace cfg out repos in
  let* ocConfig := getWorkspaceOpenCodeConfig (Workspace.repos workspaceInfo) in
  let* inst := getOpencodeInstanceForWorkspace agent workspaceInfo in
  let* _ := validateProviderAndModel agent (provider cfg) (model cfg) in
  let* session := sessionCreatePromise agent in
  match session with
  | Err _ =>
      let* _ := serverClose (server inst) in
      fail (OcError (lit "FAILED TO START OPENCODE SESSION"))
  | Ok sessionId =>
      ret {| stClient := client inst;
             stServer := server inst;
             stSessionID := sessionId;
             stWorkspacePath := workspacePath workspaceInfo;
             stRepos := sort repos |}
  end.

Definition askInSession (agent : Agent) (session : SessionState) : M Stream.t :=
  streamPrompt agent (stSessionID session) None.

Definition endSession (session : SessionState) : M unit :=
  serverClose (stServer session).

Definition askQuestion (cfg : Config) (out : Outside) (agent : Agent)
    (repos : list jsstring) : M Stream.t :=
  let* workspaceInfo := ensureWorkspace cfg out repos in
  let* ocConfig := getWorkspaceOpenCodeConfig (Workspace.repos workspaceInfo) in
  let* inst := getOpencodeInstanceForWorkspace agent workspaceInfo in
  let* _ := validateProviderAndModel agent (provider cfg) (model cfg) in
  let* session := sessionCreatePromise agent in
  match session with
  | Err _ =>
      let* _ := serverClose (server inst) in
      fail (OcError (lit "FAILED TO START OPENCODE SESSION"))
  | Ok sessionID => streamPrompt agent sessionID (Some (server inst))
  end.

(** Legacy: the instance for a single tech. *)
Definition getOpencodeInstance (cfg : Config) (out : Outside) (agent : Agent)
    (tech : jsstring) : M Instance :=
  let* workspaceInfo := ensureWorkspace cfg out [tech] in
  let* ocConfig := getWorkspaceOpenCodeConfig (Workspace.repos workspaceInfo) in
  getOpencodeInstanceForWorkspace agent workspaceInfo.

(** Legacy: the question for a single tech. *)
Definition askQuestionLegacy (cfg : Config) (out : Outside) (agent : Agent)
    (tech : jsstring) : M Stream.t :=
  let* _ := cloneOrUpdateOneRepoLocally cfg out tech in
  let* inst := getOpencodeInstance cfg out agent tech in
  let* _ := validateProviderAndModel agent (provider cfg) (model cfg) in
  let* session := sessionCreatePromise agent in
  match session with
  | Err _ => fail (OcError (lit "FAILED TO START OPENCODE SESSION"))
  | Ok sessionID => streamPrompt agent sessionID (Some (server inst))
  end.

End Oc.

(** ** The callers of the session service ([services.ts])

    They run the stream to its end, handing each event to the consumer. *)

Module Services.
Import JS Outcome Sys Workspace Agent Oc.
Local Open Scope eff_scope.

(** [Stream.runForEach(stream, f)] for an [f] that cannot fail: the stream is
    run to its end; the finalizer of [ensuring] runs when it ends, normally or
    not; a failure of the stream is the failure of the run. *)
Definition runForEach (stream : Stream.t) : M unit :=
  let* _ :=
    match Stream.finalizer stream with
    | Some server => serverClose server
    | None => ret tt
    end in
  match Stream.exit stream with
  | Stream.Done => ret tt
  | Stream.Failed e => fail e
  end.

Definition askInSession (agent : Agent) (session : SessionState) : M unit :=
  let* stream := Oc.askInSession agent session in
  runForEach stream.

Definition askQuestion (cfg : Config) (out : Outside) (agent : Agent)
    (repos : list jsstring) : M unit :=
  let* stream := Oc.askQuestion cfg out agent repos in
  runForEach stream.

Definition askQuestionLegacy (cfg : Config) (out : Outside) (agent : Agent)
    (tech : jsstring) : M unit :=
  let* stream := Oc.askQuestionLegacy cfg out agent tech in
  runForEach stream.

End Services.

(** ** [services/cli.ts]: the planning line and the message states *)

Module Cli.
Import JS.

(** The colons of [[:：]]: U+003A and U+FF1A. *)
Definition isColon (c : code_unit) : bool := (c =? 58) || (c =? 65306).

(** [s.replace(/[:：]\s*$/, '')]: the expression matches at the first colon
    that only white space follows up to the end; the match, which reaches
    the end, is removed. *)
Fixpoint stripTrailingColon (s : jsstring) : jsstring :=
  match s with
  | [] => []
  | c :: t =>
      if isColon c && forallb isSpace t then []
      else c :: stripTrailingColon t
  end.

Definition sanitizePlanningText (text : jsstring) : jsstring :=
  stripTrailingColon (trim (replaceAll Query.spacesRegex (lit " ") text)).

Record MessageState : Type := mkMessageState {
  suppressed : bool;
  printedChars : Z;
  lastSeen : Z
}.

Definition MESSAGE_STATE_TTL_MS : Z := 60000.

(** [getMessageState]: the state of the message, which is now seen; a message
    not seen before gets the initial state.  The state returned is the one in
    the map. *)
Definition getMessageState (messageStates : gmap jsstring MessageState)
    (messageId : jsstring) (now : Z)
    : MessageState * gmap jsstring MessageState :=
  match messageStates !! messageId with
  | Some existing =>
      let existing' :=
        {| suppressed := suppressed existing;
           printedChars := printedChars existing;
           lastSeen := now |} in
      (existing', <[messageId := existing']> messageStates)
  | None =>
      let initial :=
        {| suppressed := true; printedChars := 0; lastSeen := now |} in
      (initial, <[messageId := initial]> messageStates)
  end.

(** [cleanupMessageStates]: the states not seen for longer than the time to
    live are deleted. *)
Definition cleanupMessageStates (messageStates : gmap jsstring MessageState)
    (now : Z) : gmap jsstring MessageState :=
  filter (fun entry => ~ (now - lastSeen entry.2 > MESSAGE_STATE_TTL_MS)%Z)
    messageStates.

End Cli.

(** * Predicates of the specification *)

Module Spec.
Import JS Outcome Query Sys Workspace Agent Oc.

(** A string without upper-case letters. *)
Definition lowercase (s : jsstring) : Prop :=
  Forall (fun c => isUpper c = false) s.

(** A matcher consumes at least one character. *)
Definition shrinking (m : matcher) : Prop :=
  forall s rest, m s = Some rest -> (length rest < length s)%nat.

(** The string starts with a character of the class. *)
Definition headIn (p : code_unit -> bool) (s : jsstring) : bool :=
  match s with
  | [] => false
  | c :: _ => p c
  end.

(** A substring matching [/@[a-zA-Z0-9_-]+/]. *)
Definition containsMention (q : jsstring) : Prop :=
  exists pre name post,
    name <> [] /\ Forall (fun c => isMentionChar c = true) name
    /\ q = pre ++ atSign :: name ++ post.

(** No [@] is followed by a character of the class. *)
Fixpoint noMention (s : jsstring) : bool :=
  match s with
  | [] => true
  | c :: t => negb ((c =? atSign) && headIn isMentionChar t) && noMention t
  end.

(** Every white-space character is a space that no white space follows. *)
Fixpoint collapsed (s : jsstring) : bool :=
  match s with
  | [] => true
  | c :: t =>
      (if isSpace c then (c =? 32) && negb (headIn isSpace t) else true)
      && collapsed t
  end.

(** The key of a non-empty list of names. *)
Definition keyOf (repoNames : list jsstring) : jsstring :=
  join (lit "+") (sort repoNames).

(** The boot on the port of offset [k] fails with the port taken. *)
Definition portBusy (agent : Agent.Agent) (k : N) : bool :=
  match createOpencode agent (3420 + k) with
  | Rejected cause => isPortError cause
  | Started => false
  end.

(** The [d] ports from offset [off] on. *)
Definition portsFrom (off : N) (d : nat) : list N :=
  List.map (fun j => 3420 + (off + N.of_nat j)) (seq 0 d).

(** The world after more boot attempts. *)
Definition withAttempts (w : World) (ports : list N) : World :=
  mkWorld (dirs w) (worktreeAdds w) (bootAttempts w ++ ports) (servers w)
    (closes w) (sessionCreates w).

(** The part of the world that the workspace engine does not touch. *)
Definition agentSide (w : World) : list N * list N * list N * nat :=
  (bootAttempts w, servers w, closes w, sessionCreates w).

(** A string of the Basic Latin block. *)
Definition basicLatin (s : jsstring) : Prop := Forall (fun c => c < 128) s.

(** A name as [parseQuery] returns it: a non-empty string of [[a-z0-9_-]]. *)
Definition mentionName (r : jsstring) : Prop :=
  r <> [] /\ Forall (fun c => isMentionChar c = true) r /\ lowercase r.

(** A prompt as [parseQuery] returns it: without mention, its white space
    collapsed, trimmed. *)
Definition cleanPrompt (q : jsstring) : Prop :=
  ~ containsMention q /\ collapsed q = true
  /\ headIn isSpace q = false /\ headIn isSpace (reverse q) = false.

(** A query rendered from its parts: each repository prefixed with [@] and
    followed by a space, then the prompt. *)
Definition render (repos : list jsstring) (prompt : jsstring) : jsstring :=
  concat (List.map (fun r => atSign :: r ++ [32]) repos) ++ prompt.

(** The name contains no [+]. *)
Definition plusFree (r : jsstring) : Prop := 43 ∉ r.

(** A plain name: not empty, without [/], neither [.] nor [..]. *)
Definition plainName (n : jsstring) : Prop :=
  n <> [] /\ (Path.slash ∉ n) /\ n <> Path.dot /\ n <> Path.dotdot.

(** A directory in normal form: absolute, made of plain names, not the
    root. *)
Definition normalDir (d : jsstring) : Prop :=
  exists names, names <> [] /\ Forall plainName names
                /\ d = Path.slash :: join [Path.slash] names.

(** The step of the loop of [clearWorkspaceInternal] for one name. *)
Definition removeOne (rm : WorkspaceClear.Removals)
    (reposDir workspacePath repoName : jsstring) : WorkspaceClear.C unit :=
  WorkspaceClear.bindC
    (WorkspaceClear.liftC (directoryExists (pathJoin reposDir repoName)))
    (fun centralExists =>
       if centralExists then
         WorkspaceClear.removeWorktree rm
           {| WorkspaceClear.centralDir := pathJoin reposDir repoName;
              WorkspaceClear.worktreeDir := pathJoin workspacePath repoName |}
       else WorkspaceClear.retC tt).

(** An element that satisfies [p] can only be the last. *)
Definition lastOnly (p : Event -> bool) (l : list Event) : Prop :=
  forall pre e post, l = pre ++ e :: post -> p e = true -> post = [].

(** The agent with another event stream. *)
Definition withEvents (agent : Agent.Agent) (events : list Event) : Agent.Agent :=
  {| createOpencode := createOpencode agent;
     providerList := providerList agent;
     sessionCreateRejects := sessionCreateRejects agent;
     sessionCreate := sessionCreate agent;
     subscribeFails := subscribeFails agent;
     eventStream := events;
     eventStreamThrows := eventStreamThrows agent;
     promptFails := promptFails agent |}.

End Spec.

(** * Sample configurations, agents and streams *)

Module Samples.
Import JS Outcome Query Sys Workspace Agent Oc.

(** Two repositories, [a] and [b]. *)
Definition cfg0 : Config :=
  {| workspacesDirectory := lit "/w"; reposDirectory := lit "/r";
     configRepos := [mkRepo (lit "a") (lit "ua") (lit "main") None None;
                     mkRepo (lit "b") (lit "ub") (lit "main") None None];
     provider := lit "opencode"; model := lit "big-pickle" |}.

(** The worktree of [b] cannot be created. *)
Definition out0 : Outside :=
  {| syncFails := fun _ => false; mkdirFails := fun _ => false;
     worktreeAddFails := fun t => bool_decide (t = lit "/w/a+b/b") |}.

(** Nothing exists yet. *)
Definition w0 := mkWorld ∅ [] [] [] [] 0.

(** Every command succeeds. *)
Definition out1 : Outside :=
  {| syncFails := fun _ => false; mkdirFails := fun _ => false;
     worktreeAddFails := fun _ => false |}.

(** The workspace of [a] and [b]. *)
Definition info0 : WorkspaceInfo :=
  {| workspacePath := lit "/w/a+b";
     repos := [mkRepoInfo (lit "a") (lit "a") None;
               mkRepoInfo (lit "b") (lit "b") None] |}.

(** The rejection of a boot on a port that is taken. *)
Definition portTaken : Rejection :=
  RejectError (Some (lit "Error: Failed to start server on port")).

(** An agent whose ports 3420 and 3421 are taken. *)
Definition agent2 : Agent.Agent :=
  {| createOpencode := fun p => if p <? 3422 then Rejected portTaken else Started;
     providerList := None;
     sessionCreateRejects := None;
     sessionCreate := Ok (lit "ses_1");
     subscribeFails := false;
     eventStream := [];
     eventStreamThrows := false;
     promptFails := None |}.

(** An agent that runs but does not know the configured provider. *)
Definition agentOtherProvider : Agent.Agent :=
  {| createOpencode := fun _ => Started;
     providerList :=
       Some (Some {| all := [mkProvider (lit "anthropic") [lit "claude"]];
                     connected := [lit "anthropic"] |});
     sessionCreateRejects := None;
     sessionCreate := Ok (lit "ses_1");
     subscribeFails := false;
     eventStream := [];
     eventStreamThrows := false;
     promptFails := None |}.

(** An agent that runs but refuses to create a session. *)
Definition agentNoSession : Agent.Agent :=
  {| createOpencode := fun _ => Started;
     providerList := None;
     sessionCreateRejects := None;
     sessionCreate := Err (lit "refused");
     subscribeFails := false;
     eventStream := [];
     eventStreamThrows := false;
     promptFails := None |}.

(** An agent that runs but whose [session.create] rejects. *)
Definition agentRejectsSession : Agent.Agent :=
  {| createOpencode := fun _ => Started;
     providerList := None;
     sessionCreateRejects := Some (lit "socket closed");
     sessionCreate := Ok (lit "ses_1");
     subscribeFails := false;
     eventStream := [];
     eventStreamThrows := false;
     promptFails := None |}.

(** Two kinds of events. *)
Definition evText (session : option jsstring) : Event :=
  {| type := lit "message.part.updated"; sessionID := session; errorName := None |}.

Definition evIdle (session : jsstring) : Event :=
  {| type := lit "session.idle"; sessionID := Some session; errorName := None |}.

(** An agent that serves two sessions at once. *)
Definition agentTwoSessions : Agent.Agent :=
  {| createOpencode := fun _ => Started;
     providerList := None;
     sessionCreateRejects := None;
     sessionCreate := Ok (lit "ses_1");
     subscribeFails := false;
     eventStream :=
       [ evText (Some (lit "ses_1")); evText (Some (lit "ses_2")); evText None;
         evIdle (lit "ses_2"); evIdle (lit "ses_1"); evText (Some (lit "ses_1")) ];
     eventStreamThrows := false;
     promptFails := None |}.

(** What the first of the two sessions gets. *)
Definition streamOfFirst : Stream.t :=
  {| Stream.emitted :=
       [ evText (Some (lit "ses_1")); evText None; evIdle (lit "ses_1") ];
     Stream.exit := Stream.Done;
     Stream.finalizer := None |}.

(** No removal fails. *)
Definition rm0 : WorkspaceClear.Removals :=
  {| WorkspaceClear.removeWorktreeFails := fun _ => false;
     WorkspaceClear.removeDirectoryFails := fun _ => false |}.



(** What the single-shot question of the first session gets: the same, with
    the clean-up that closes the server on port 3420. *)
Definition streamOfQuestion : Stream.t :=
  {| Stream.emitted :=
       [ evText (Some (lit "ses_1")); evText None; evIdle (lit "ses_1") ];
     Stream.exit := Stream.Done;
     Stream.finalizer := Some 3420 |}.

End Samples.

(** * Properties *)

Import JS Outcome Query Spec Samples.

(** ** The order on strings *)

Section StringOrder.

Implicit Types a b c : jsstring.

Lemma compare_refl a : compare a a = Eq.
Proof. induction a as [|x a IH]; simpl; [done|]. by rewrite N.compare_refl. Qed.

Lemma compare_eq a b : compare a b = Eq -> a = b.
Proof.
  revert b; induction a as [|x a IH]; intros [|y b]; simpl; try done.
  destruct (N.compare_spec x y) as [->| |]; try done.
  intros H; f_equal; auto.
Qed.

Lemma compare_antisym a b : compare b a = CompOpp (compare a b).
Proof.
  revert b; induction a as [|x a IH]; intros [|y b]; simpl; try done.
  rewrite (N.compare_antisym x y).
  destruct (N.compare x y); simpl; auto.
Qed.

Lemma compare_lt_trans a b c :
  compare a b = Lt -> compare b c = Lt -> compare a c = Lt.
Proof.
  revert b c; induction a as [|x a IH]; intros [|y b] [|z c]; simpl; try done.
  destruct (N.compare_spec x y) as [->| |]; try done.
  - destruct (N.compare_spec y z) as [->| |]; try done. apply IH.
  - destruct (N.compare_spec y z) as [->| |]; try done.
    + intros _ _. destruct (N.compare_spec x z); try done; lia.
    + intros _ _. destruct (N.compare_spec x z); try done; lia.
Qed.

#[global] Instance le_refl : Reflexive le.
Proof. intros a; unfold le; by rewrite compare_refl. Qed.

#[global] Instance le_total : Total le.
Proof.
  intros a b; unfold le. rewrite (compare_antisym a b).
  destruct (compare a b); simpl; auto.
Qed.

#[global] Instance le_trans : Transitive le.
Proof.
  intros a b c; unfold le; intros Hab Hbc.
  destruct (compare a b) eqn:E1; [| |done].
  - apply compare_eq in E1 as ->. done.
  - destruct (compare b c) eqn:E2; [| |done].
    + apply compare_eq in E2 as <-. by rewrite E1.
    + by rewrite (compare_lt_trans a b c).
Qed.

#[global] Instance le_antisym : AntiSymm (=) le.
Proof.
  intros a b; unfold le; rewrite (compare_antisym a b).
  destruct (compare a b) eqn:E; simpl; try done.
  intros _ _. by apply compare_eq.
Qed.

Lemma le_neq_lt a b : le a b -> a <> b -> lt a b.
Proof.
  unfold le, lt; destruct (compare a b) eqn:E; try done.
  apply compare_eq in E; done.
Qed.

Lemma lt_irrefl a : ~ lt a a.
Proof. unfold lt; by rewrite compare_refl. Qed.

End StringOrder.

(** ** [sort] *)

Lemma sort_Sorted (l : list jsstring) : Sorted le (sort l).
Proof. apply Sorted_merge_sort, _. Qed.

Lemma sort_Permutation (l : list jsstring) : sort l ≡ₚ l.
Proof. apply merge_sort_Permutation. Qed.

Lemma sort_unique (l l' : list jsstring) : l ≡ₚ l' -> sort l = sort l'.
Proof.
  intros H. apply (Sorted_unique le); try apply sort_Sorted.
  by rewrite !sort_Permutation.
Qed.

Lemma sort_NoDup_lt (l : list jsstring) :
  NoDup l -> StronglySorted lt (sort l).
Proof.
  intros Hnd.
  assert (Hs : StronglySorted le (sort l)) by (apply StronglySorted_merge_sort; apply _).
  assert (Hn : NoDup (sort l)) by by rewrite sort_Permutation.
  induction Hs as [|x t Ht IH Hx]; constructor.
  - apply IH. by apply NoDup_cons in Hn as [_ ?].
  - apply NoDup_cons in Hn as [Hnotin _].
    rewrite Forall_forall in Hx |- *. intros y Hy.
    apply le_neq_lt; [by apply Hx|]. intros ->. done.
Qed.

(** ** [new Set] *)

Lemma setAddAll_NoDup (seen l : list jsstring) :
  NoDup seen -> NoDup (setAddAll seen l).
Proof.
  revert seen; induction l as [|x l IH]; intros seen Hs; simpl; [done|].
  destruct (decide (x ∈ seen)); [by apply IH|].
  apply IH, NoDup_app; split_and!; [done| |apply NoDup_singleton].
  intros y Hy ->%list_elem_of_singleton. done.
Qed.

Lemma setAddAll_elem_of (seen l : list jsstring) (x : jsstring) :
  x ∈ setAddAll seen l <-> x ∈ seen \/ x ∈ l.
Proof.
  revert seen; induction l as [|y l IH]; intros seen; simpl.
  - rewrite elem_of_nil. tauto.
  - destruct (decide (y ∈ seen)) as [Hy|Hy]; rewrite IH, elem_of_cons.
    + split; [tauto|]. intros [?|[->|?]]; auto.
    + rewrite elem_of_app, list_elem_of_singleton. tauto.
Qed.

Lemma newSet_NoDup (l : list jsstring) : NoDup (newSet l).
Proof. apply setAddAll_NoDup, NoDup_nil_2. Qed.

Lemma newSet_elem_of (l : list jsstring) (x : jsstring) : x ∈ newSet l <-> x ∈ l.
Proof. unfold newSet. rewrite setAddAll_elem_of, elem_of_nil. tauto. Qed.

(** ** Letter case *)

Lemma lowerUnit_not_upper (c : code_unit) : isUpper (lowerUnit c) = false.
Proof.
  unfold lowerUnit. destruct (isUpper c) eqn:E; [|done].
  unfold isUpper in *.
  apply andb_true_iff in E as [H1 H2]. apply N.leb_le in H1, H2.
  apply andb_false_iff. right. apply N.leb_gt. lia.
Qed.

Lemma toLowerCase_lowercase (s : jsstring) : lowercase (toLowerCase s).
Proof.
  unfold lowercase, toLowerCase. apply Forall_forall. intros c Hc.
  apply list_elem_of_In, in_map_iff in Hc as (d & <- & _). apply lowerUnit_not_upper.
Qed.

Lemma lowercase_toLowerCase (s : jsstring) : lowercase s -> toLowerCase s = s.
Proof.
  induction 1 as [|c s Hc _ IH]; [done|].
  unfold toLowerCase in *; simpl. rewrite IH. unfold lowerUnit. by rewrite Hc.
Qed.

Lemma join_lowercase (sep : jsstring) (l : list jsstring) :
  lowercase sep -> Forall lowercase l -> lowercase (join sep l).
Proof.
  intros Hsep. induction 1 as [|x l Hx Hl IH]; simpl; [constructor|].
  destruct l as [|y l]; [done|].
  apply Forall_app; split; [done|]. apply Forall_app; split; done.
Qed.

(** ** [getWorkspaceKey] *)

(** C4.  For a non-empty list of repository names, every permutation of the
    list gets the same workspace key: the names sorted and joined with ["+"]. *)
Theorem getWorkspaceKey_permutation (repos repos' : list jsstring) :
  repos <> [] ->
  repos ≡ₚ repos' ->
  getWorkspaceKey repos' = getWorkspaceKey repos
  /\ getWorkspaceKey repos = Ok (join (lit "+") (sort repos))
  /\ Sorted le (sort repos)
  /\ sort repos ≡ₚ repos.
Proof.
  intros Hne Hperm.
  assert (Hne' : repos' <> []).
  { intros ->. by apply Permutation_nil_r in Hperm. }
  split_and!; [|by destruct repos|apply sort_Sorted|apply sort_Permutation].
  destruct repos, repos'; try done. unfold getWorkspaceKey.
  by rewrite (sort_unique _ _ Hperm).
Qed.

Lemma getWorkspaceKey_permutation_witness :
  getWorkspaceKey [lit "daytona"; lit "svelte"]
    = getWorkspaceKey [lit "svelte"; lit "daytona"]
  /\ getWorkspaceKey [lit "svelte"; lit "daytona"] = Ok (lit "daytona+svelte").
Proof.
  destruct (getWorkspaceKey_permutation
              [lit "svelte"; lit "daytona"] [lit "daytona"; lit "svelte"])
    as (H1 & H2 & _); [discriminate|apply perm_swap|].
  split; [exact H1|]. rewrite H2. vm_compute. reflexivity.
Defined.

(** C5, as the specification states it, fails: the key of ["Svelte"] is
    ["Svelte"], upper-case letter included, and not the lower-cased name. *)
Lemma getWorkspaceKey_keeps_upper_case :
  getWorkspaceKey [lit "Svelte"] = Ok (lit "Svelte")
  /\ existsb isUpper (lit "Svelte") = true
  /\ getWorkspaceKey [lit "Svelte"]
       <> Ok (join (lit "+") (sort (List.map toLowerCase [lit "Svelte"]))).
Proof. split_and!; [by vm_compute|by vm_compute|]. vm_compute. discriminate. Qed.

(** C5, amended.  [getWorkspaceKey] fails on the empty list and, for a
    non-empty list, returns the names as they are given, sorted and joined with
    ["+"]; it does not change the case, so the key is free of upper-case
    letters when the names are. *)
Theorem getWorkspaceKey_sorted_join :
  getWorkspaceKey [] = Err emptyReposMessage
  /\ forall repos : list jsstring,
       repos <> [] ->
       getWorkspaceKey repos = Ok (join (lit "+") (sort repos))
       /\ Sorted le (sort repos)
       /\ sort repos ≡ₚ repos
       /\ (Forall lowercase repos -> lowercase (join (lit "+") (sort repos))).
Proof.
  split; [done|]. intros repos Hne.
  split_and!; [by destruct repos|apply sort_Sorted|apply sort_Permutation|].
  intros Hl. apply join_lowercase.
  - unfold lowercase. by vm_compute; repeat constructor.
  - by rewrite sort_Permutation.
Qed.

Lemma getWorkspaceKey_sorted_join_witness :
  getWorkspaceKey [lit "daytona"; lit "Svelte"] = Ok (lit "Svelte+daytona").
Proof.
  destruct getWorkspaceKey_sorted_join as [_ H].
  destruct (H [lit "daytona"; lit "Svelte"]) as (H1 & _); [discriminate|].
  rewrite H1. vm_compute. reflexivity.
Defined.

(** ** Scanning with a global regular expression *)

Lemma dropClass_length p (s : jsstring) : (length (dropClass p s) <= length s)%nat.
Proof. induction s as [|c s IH]; simpl; [lia|]. destruct (p c); simpl; lia. Qed.

Lemma headIn_dropClass p (s : jsstring) : headIn p (dropClass p s) = false.
Proof.
  induction s as [|c s IH]; simpl; [done|].
  destruct (p c) eqn:E; [done|]. simpl. done.
Qed.

Lemma take_drop_class p (s : jsstring) : takeClass p s ++ dropClass p s = s.
Proof. induction s as [|c s IH]; simpl; [done|]. destruct (p c); simpl; congruence. Qed.

Lemma dropClass_suffix p (s : jsstring) : exists pre, s = pre ++ dropClass p s.
Proof. exists (takeClass p s). by rewrite take_drop_class. Qed.

Lemma takeClass_nil_headIn p (s : jsstring) :
  takeClass p s = [] <-> headIn p s = false.
Proof. destruct s as [|c s]; simpl; [done|]. destruct (p c); done. Qed.

Lemma mentionRegex_shrinking : shrinking mentionRegex.
Proof.
  intros [|c t] rest; unfold mentionRegex; simpl; [done|].
  destruct (c =? atSign); [|done].
  destruct (takeClass isMentionChar t); [done|]. simpl.
  intros [= <-]. pose proof (dropClass_length isMentionChar t). lia.
Qed.

Lemma spacesRegex_shrinking : shrinking spacesRegex.
Proof.
  intros [|c t] rest; simpl; [done|]. destruct (isSpace c); [|done].
  intros [= <-]. pose proof (dropClass_length isSpace t). lia.
Qed.

Lemma replaceFrom_nil (m : matcher) (repl : jsstring) (f : nat) :
  replaceFrom m repl f [] = [].
Proof. by destruct f. Qed.

Lemma replaceFrom_cons (m : matcher) (repl : jsstring) (f : nat) c t :
  replaceFrom m repl (S f) (c :: t) =
    match m (c :: t) with
    | Some rest => repl ++ replaceFrom m repl f rest
    | None => c :: replaceFrom m repl f t
    end.
Proof. done. Qed.

Lemma execLoop_nil (f : nat) : execLoop f [] = [].
Proof. by destruct f. Qed.

Lemma execLoop_cons (f : nat) c t :
  execLoop (S f) (c :: t) =
    match mentionAt (c :: t) with
    | Some (name, rest) => toLowerCase name :: execLoop f rest
    | None => execLoop f t
    end.
Proof. done. Qed.

(** The fuel of [replaceAll] is enough: more of it changes nothing. *)
Lemma replaceFrom_fuel (m : matcher) (repl : jsstring) (f f' : nat) (s : jsstring) :
  shrinking m -> (length s <= f)%nat -> (length s <= f')%nat ->
  replaceFrom m repl f s = replaceFrom m repl f' s.
Proof.
  intros Hm. revert f' s. induction f as [|f IH]; intros f' [|c t] Hf Hf';
    rewrite ?replaceFrom_nil; try done; simpl in Hf, Hf'; try lia.
  destruct f' as [|f']; [lia|]. rewrite !replaceFrom_cons.
  destruct (m (c :: t)) as [rest|] eqn:E.
  - apply Hm in E; simpl in E. f_equal. apply IH; lia.
  - f_equal. apply IH; lia.
Qed.

Lemma execLoop_fuel (f f' : nat) (s : jsstring) :
  (length s <= f)%nat -> (length s <= f')%nat -> execLoop f s = execLoop f' s.
Proof.
  revert f' s. induction f as [|f IH]; intros f' [|c t] Hf Hf';
    rewrite ?execLoop_nil; try done; simpl in Hf, Hf'; try lia.
  destruct f' as [|f']; [lia|]. rewrite !execLoop_cons.
  destruct (mentionAt (c :: t)) as [[name rest]|] eqn:E.
  - assert (Hr : mentionRegex (c :: t) = Some rest)
      by (unfold mentionRegex; by rewrite E).
    apply mentionRegex_shrinking in Hr; simpl in Hr. f_equal. apply IH; lia.
  - apply IH; lia.
Qed.

(** ** [parseQuery]: the repositories *)

Lemma execLoop_lowercase (f : nat) (s : jsstring) : Forall lowercase (execLoop f s).
Proof.
  revert s; induction f as [|f IH]; intros [|c t];
    rewrite ?execLoop_nil; try by constructor.
  rewrite execLoop_cons.
  destruct (mentionAt (c :: t)) as [[name rest]|]; [|apply IH].
  constructor; [apply toLowerCase_lowercase|apply IH].
Qed.

(** C9.  [parseQuery] lower-cases every mention it extracts, removes the
    duplicates and sorts: ["@a @b @A"] gives the repositories ["a"; "b"] and an
    empty prompt, and for every input the repositories are in strictly
    increasing order, all in lower case and without duplicates (also after
    case folding); they are the lower-cased mentions of the input. *)
Theorem parseQuery_repos_canonical :
  parseQuery (lit "@a @b @A") = {| repos := [lit "a"; lit "b"]; query := [] |}
  /\ forall input : jsstring,
       StronglySorted lt (repos (parseQuery input))
       /\ NoDup (List.map toLowerCase (repos (parseQuery input)))
       /\ Forall lowercase (repos (parseQuery input))
       /\ (forall r, r ∈ repos (parseQuery input)
                     <-> r ∈ execLoop (length input) input).
Proof.
  split; [by vm_compute|]. intros input. unfold parseQuery; simpl.
  set (l := execLoop (length input) input).
  assert (Hmem : forall r, r ∈ sort (newSet l) <-> r ∈ l).
  { intros r. by rewrite sort_Permutation, newSet_elem_of. }
  assert (Hlow : Forall lowercase (sort (newSet l))).
  { apply Forall_forall. intros r Hr%Hmem.
    pose proof (execLoop_lowercase (length input) input) as H.
    rewrite Forall_forall in H. by apply H. }
  assert (Hnd : NoDup (sort (newSet l))).
  { rewrite sort_Permutation. apply newSet_NoDup. }
  split_and!; [apply sort_NoDup_lt, newSet_NoDup| |done|done].
  replace (List.map toLowerCase (sort (newSet l))) with (sort (newSet l)); [done|].
  symmetry. clear -Hlow. induction Hlow as [|r rs Hr _ IH]; simpl; [done|].
  f_equal; [by apply lowercase_toLowerCase|done].
Qed.

Lemma parseQuery_repos_canonical_witness :
  repos (parseQuery (lit "@Svelte @SVELTE @daytona x"))
    = [lit "daytona"; lit "svelte"]
  /\ StronglySorted lt (repos (parseQuery (lit "@Svelte @SVELTE @daytona x"))).
Proof.
  destruct parseQuery_repos_canonical as [_ H].
  destruct (H (lit "@Svelte @SVELTE @daytona x")) as (H1 & _).
  split; [by vm_compute|exact H1].
Defined.

(** ** [parseQuery]: the cleaned query *)

Lemma noMention_sound (q : jsstring) : noMention q = true -> ~ containsMention q.
Proof.
  intros Hq (pre & name & post & Hne & Hname & ->).
  induction pre as [|c pre IH]; cbn [app noMention] in Hq.
  - destruct name as [|d name]; [done|].
    apply Forall_cons in Hname as [Hd _]. cbn [app noMention headIn] in Hq.
    rewrite N.eqb_refl, Hd in Hq. done.
  - apply andb_true_iff in Hq as [_ Hq]. auto.
Qed.

Lemma headIn_app p (a b : jsstring) : headIn p a = true -> headIn p (a ++ b) = true.
Proof. by destruct a. Qed.

Lemma noMention_app_l (a b : jsstring) : noMention (a ++ b) = true -> noMention a = true.
Proof.
  induction a as [|c a IH]; simpl; [done|].
  intros [H1 H2]%andb_true_iff. rewrite (IH H2), andb_true_r.
  destruct (c =? atSign); [|done]. simpl in *.
  destruct (headIn isMentionChar a) eqn:E; [|done].
  by rewrite (headIn_app _ _ _ E) in H1.
Qed.

Lemma noMention_app_r (a b : jsstring) : noMention (a ++ b) = true -> noMention b = true.
Proof. induction a as [|c a IH]; simpl; [done|]. intros [_ H]%andb_true_iff; auto. Qed.

Lemma collapsed_app_l (a b : jsstring) : collapsed (a ++ b) = true -> collapsed a = true.
Proof.
  induction a as [|c a IH]; simpl; [done|].
  intros [H1 H2]%andb_true_iff. rewrite (IH H2), andb_true_r.
  destruct (isSpace c); [|done].
  apply andb_true_iff in H1 as [-> H1]. simpl.
  destruct (headIn isSpace a) eqn:E; [|done].
  by rewrite (headIn_app _ _ _ E) in H1.
Qed.

Lemma collapsed_app_r (a b : jsstring) : collapsed (a ++ b) = true -> collapsed b = true.
Proof. induction a as [|c a IH]; simpl; [done|]. intros [_ H]%andb_true_iff; auto. Qed.

(** Removing the mentions puts no character of the class at the front. *)
Lemma strip_headIn (f : nat) (s : jsstring) :
  headIn isMentionChar (replaceFrom mentionRegex [] f s) = true ->
  headIn isMentionChar s = true.
Proof.
  revert s; induction f as [|f IH]; intros [|c t];
    rewrite ?replaceFrom_nil; try done.
  rewrite replaceFrom_cons. unfold mentionRegex at 1. simpl mentionAt.
  destruct (c =? atSign) eqn:Ec; [|done].
  destruct (takeClass isMentionChar t) as [|d name] eqn:Et; [done|].
  simpl. intros H%IH. by rewrite headIn_dropClass in H.
Qed.

Lemma strip_noMention (f : nat) (s : jsstring) :
  (length s <= f)%nat -> noMention (replaceFrom mentionRegex [] f s) = true.
Proof.
  revert s; induction f as [|f IH]; intros [|c t] Hf;
    rewrite ?replaceFrom_nil; try done; simpl in Hf; try lia.
  rewrite replaceFrom_cons. unfold mentionRegex at 1. simpl mentionAt.
  assert (Htail : noMention (replaceFrom mentionRegex [] f t) = true)
    by (apply IH; lia).
  destruct (c =? atSign) eqn:Ec.
  - destruct (takeClass isMentionChar t) as [|d name] eqn:Et; simpl.
    + rewrite Ec, Htail, andb_true_r. simpl.
      apply takeClass_nil_headIn in Et.
      destruct (headIn isMentionChar (replaceFrom mentionRegex [] f t)) eqn:E;
        [|done].
      apply strip_headIn in E. congruence.
    + apply IH. pose proof (dropClass_length isMentionChar t). lia.
  - simpl. by rewrite Ec, Htail.
Qed.

(** Collapsing the white space keeps both properties and yields [collapsed]. *)
Lemma lit_space : lit " " = [32].
Proof. done. Qed.

Lemma spaces_headIn p (f : nat) (s : jsstring) :
  p 32 = false ->
  headIn p (replaceFrom spacesRegex (lit " ") f s) = true -> headIn p s = true.
Proof.
  intros Hp. destruct f as [|f], s as [|c t]; rewrite ?replaceFrom_nil; try done.
  rewrite replaceFrom_cons. simpl spacesRegex.
  destruct (isSpace c); [|done]. rewrite lit_space. simpl. by rewrite Hp.
Qed.

Lemma spaces_headIn_space (f : nat) (s : jsstring) :
  (length s <= f)%nat ->
  headIn isSpace (replaceFrom spacesRegex (lit " ") f s) = true ->
  headIn isSpace s = true.
Proof.
  destruct f as [|f], s as [|c t]; rewrite ?replaceFrom_nil; try done.
  rewrite replaceFrom_cons. simpl spacesRegex.
  intros _. destruct (isSpace c) eqn:E; [done|]. simpl. congruence.
Qed.

Lemma spaces_noMention (f : nat) (s : jsstring) :
  noMention s = true ->
  noMention (replaceFrom spacesRegex [32] f s) = true.
Proof.
  change (lit " ") with [32].
  revert s; induction f as [|f IH]; intros [|c t] Hs;
    rewrite ?replaceFrom_nil; try done.
  rewrite replaceFrom_cons. simpl spacesRegex.
  simpl in Hs; apply andb_true_iff in Hs as [H1 H2].
  destruct (isSpace c) eqn:Ec.
  - cbn [app noMention collapsed]. apply IH.
    destruct (dropClass_suffix isSpace t) as [pre Hpre].
    rewrite Hpre in H2. by apply noMention_app_r in H2.
  - simpl. rewrite (IH _ H2), andb_true_r.
    destruct (c =? atSign); [|done]. simpl in *.
    destruct (headIn isMentionChar (replaceFrom spacesRegex [32] f t)) eqn:E;
      [|done].
    apply spaces_headIn in E; [|done]. by rewrite E in H1.
Qed.

Lemma spaces_collapsed (f : nat) (s : jsstring) :
  (length s <= f)%nat -> collapsed (replaceFrom spacesRegex [32] f s) = true.
Proof.
  change (lit " ") with [32].
  revert s; induction f as [|f IH]; intros [|c t] Hf;
    rewrite ?replaceFrom_nil; try done; simpl in Hf; try lia.
  rewrite replaceFrom_cons. simpl spacesRegex.
  pose proof (dropClass_length isSpace t) as Hlen.
  destruct (isSpace c) eqn:Ec.
  - cbn [app noMention collapsed].
    rewrite IH by lia. rewrite andb_true_r.
    destruct (headIn isSpace
      (replaceFrom spacesRegex [32] f (dropClass isSpace t))) eqn:E;
      [|reflexivity].
    apply spaces_headIn_space in E; [|lia]. by rewrite headIn_dropClass in E.
  - simpl. rewrite Ec. simpl. apply IH. lia.
Qed.

(** [trim] returns a part of its argument that neither starts nor ends with
    white space. *)
Lemma trim_infix (s : jsstring) : exists a b, s = a ++ trim s ++ b.
Proof.
  unfold trim.
  destruct (dropClass_suffix isSpace s) as [a Ha].
  destruct (dropClass_suffix isSpace (reverse (dropClass isSpace s))) as [b Hb].
  exists a, (reverse b). rewrite <- reverse_app, <- Hb, reverse_involutive. done.
Qed.

Lemma trim_end (s : jsstring) : headIn isSpace (reverse (trim s)) = false.
Proof. unfold trim. rewrite reverse_involutive. apply headIn_dropClass. Qed.

Lemma trim_start (s : jsstring) : headIn isSpace (trim s) = false.
Proof.
  unfold trim.
  destruct (dropClass_suffix isSpace (reverse (dropClass isSpace s))) as [b Hb].
  pose proof (headIn_dropClass isSpace s) as Hd.
  apply (f_equal reverse) in Hb. rewrite reverse_involutive, reverse_app in Hb.
  destruct (reverse (dropClass isSpace (reverse (dropClass isSpace s)))) as [|c r];
    [done|].
  rewrite Hb in Hd. done.
Qed.

(** C6.  For every input, the cleaned query of [parseQuery] contains no
    substring matching [/@[a-zA-Z0-9_-]+/]; it is the input with the mentions
    stripped, the runs of white space collapsed to one space each, and
    trimmed: every white-space character left is a single space between two
    other characters. *)
Theorem parseQuery_query_has_no_mention (x : jsstring) :
  ~ containsMention (query (parseQuery x))
  /\ query (parseQuery x)
       = trim (replaceAll spacesRegex (lit " ") (replaceAll mentionRegex [] x))
  /\ collapsed (query (parseQuery x)) = true
  /\ headIn isSpace (query (parseQuery x)) = false
  /\ headIn isSpace (reverse (query (parseQuery x))) = false.
Proof.
  unfold parseQuery; simpl.
  set (stripped := replaceAll mentionRegex [] x).
  set (spaced := replaceAll spacesRegex (lit " ") stripped).
  destruct (trim_infix spaced) as (a & b & Hab).
  assert (H1 : noMention spaced = true).
  { apply spaces_noMention, strip_noMention. done. }
  assert (H2 : collapsed spaced = true) by by apply spaces_collapsed.
  rewrite Hab in H1, H2.
  split_and!; [|done| |apply trim_start|apply trim_end].
  - apply noMention_sound. by apply noMention_app_r, noMention_app_l in H1.
  - by apply collapsed_app_r, collapsed_app_l in H2.
Qed.

Lemma parseQuery_query_has_no_mention_witness :
  query (parseQuery (lit "@@svelte  @daytona how do stores work? "))
    = lit "@ how do stores work?"
  /\ ~ containsMention
         (query (parseQuery (lit "@@svelte  @daytona how do stores work? "))).
Proof.
  destruct (parseQuery_query_has_no_mention
              (lit "@@svelte  @daytona how do stores work? ")) as (H & _).
  split; [by vm_compute|exact H].
Defined.

(** ** [ensureWorkspace] *)

Section WorkspaceFacts.
Import Sys Workspace.
Local Open Scope eff_scope.

Implicit Types (cfg : Config) (out : Outside) (w : World).

Ltac unfold_eff := unfold bind, ret, fail, modify, gets in *.

Lemma run_eq {A} (m : M A) w (r : result Error A) :
  (m w).1 = r -> m w = (r, (m w).2).
Proof. intros <-. by destruct (m w). Qed.

Lemma getWorkspaceKey_nonempty (repoNames : list jsstring) :
  repoNames <> [] -> getWorkspaceKey repoNames = Ok (keyOf repoNames).
Proof. by destruct repoNames. Qed.

Lemma getWorkspaceKey_sorted (repoNames : list jsstring) :
  repoNames <> [] -> getWorkspaceKey (sort repoNames) = Ok (keyOf repoNames).
Proof.
  intros Hne. rewrite getWorkspaceKey_nonempty.
  - unfold keyOf. by rewrite (sort_unique (sort repoNames) repoNames)
      by apply sort_Permutation.
  - intros Hnil. pose proof (sort_Permutation repoNames) as Hp.
    rewrite Hnil in Hp. by apply Permutation_nil_l in Hp.
Qed.

(** Looking the repositories up reads the configuration only. *)
Lemma collect_getRepo cfg (l : list jsstring) :
  exists r, forall w, collect (getRepo cfg) l w = (r, w).
Proof.
  induction l as [|x l [r IH]]; simpl.
  - by exists (Ok []).
  - unfold getRepo.
    destruct (List.find _ (configRepos cfg)) as [repo|].
    + destruct r as [rs|e].
      * exists (Ok (repo :: rs)). intros w. unfold_eff. by rewrite IH.
      * exists (Err e). intros w. unfold_eff. by rewrite IH.
    + eexists. intros w. unfold_eff. done.
Qed.

(** Refreshing the clones adds directories and creates no worktree. *)
Lemma forEach_sync cfg out (l : list jsstring) w :
  dirs w ⊆ dirs (forEach (cloneOrUpdateOneRepoLocally cfg out) l w).2
  /\ worktreeAdds (forEach (cloneOrUpdateOneRepoLocally cfg out) l w).2
       = worktreeAdds w
  /\ ((forall n, n ∈ l -> syncFails out n = false) ->
      (forEach (cloneOrUpdateOneRepoLocally cfg out) l w).1 = Ok tt).
Proof.
  revert w; induction l as [|x l IH]; intros w; simpl; [done|].
  unfold cloneOrUpdateOneRepoLocally at 1 3 5.
  destruct (syncFails out x) eqn:Ex; unfold_eff; simpl.
  - split_and!; [done|done|]. intros H. rewrite H in Ex; [done|]. left.
  - match goal with |- context [forEach _ l ?w1] =>
      pose proof (IH w1) as (H1 & H2 & H3) end.
    simpl in H1, H2, H3. split_and!; [|done|].
    { etrans; [|exact H1]. simpl. apply union_subseteq_r. }
    intros H. apply H3. intros n Hn. apply H. by right.
Qed.

(** Creating the worktrees adds directories; each worktree created exists at
    the end, also when a later one fails. *)
Lemma forEach_createWorktree {A} out (f : A -> WorktreeAdd) (l : list A) w :
  let run := forEach (fun x => createWorktree out (f x)) l w in
  dirs w ⊆ dirs run.2
  /\ (exists added,
       worktreeAdds run.2 = worktreeAdds w ++ added
       /\ forall a, a ∈ added -> targetDir a ∈ dirs run.2)
  /\ (forall e, run.1 = Err e ->
       exists target, e = GitError (lit "worktree add") target
                      /\ worktreeAddFails out target = true).
Proof.
  revert w; induction l as [|x l IH]; intros w; simpl.
  - split_and!; [done| |done]. exists []. rewrite app_nil_r. split; [done|].
    by intros a ?%elem_of_nil.
  - unfold createWorktree at 1 3 5 7.
    destruct (worktreeAddFails out (targetDir (f x))) eqn:Ex; unfold_eff; simpl.
    + split_and!; [done| |]. 
      * exists []. rewrite app_nil_r. split; [done|]. by intros a ?%elem_of_nil.
      * intros e [= <-]. by eexists.
    + match goal with |- context [forEach _ l ?w1] =>
        pose proof (IH w1) as (H1 & (added & H2 & H3) & H4) end.
      simpl in H1, H2, H3, H4. split_and!; [| |done].
      { etrans; [|exact H1]. simpl. apply union_subseteq_r. }
      exists (f x :: added).
      split; [by rewrite H2, <- app_assoc|].
      intros a [->|Ha]%elem_of_cons; [|by apply H3].
      apply H1. simpl. apply elem_of_union_l, elem_of_singleton. done.
Qed.

(** What a run of [ensureWorkspace] does to the world: it removes no
    directory, every worktree it creates exists when it returns, and so does
    the directory of the workspace as soon as one worktree was created or the
    run succeeded. *)
Lemma ensureWorkspace_effects cfg out (repoNames : list jsstring) w r w' :
  ensureWorkspace cfg out repoNames w = (r, w') ->
  dirs w ⊆ dirs w'
  /\ exists added,
       worktreeAdds w' = worktreeAdds w ++ added
       /\ (forall a, a ∈ added -> targetDir a ∈ dirs w')
       /\ (added <> [] ->
           repoNames <> []
           /\ pathJoin (workspacesDirectory cfg) (keyOf repoNames) ∈ dirs w'
           /\ forall e, r = Err e ->
                exists target, e = GitError (lit "worktree add") target
                               /\ worktreeAddFails out target = true)
       /\ (forall info, r = Ok info ->
           repoNames <> []
           /\ pathJoin (workspacesDirectory cfg) (keyOf repoNames) ∈ dirs w'
           /\ exists rs,
                (forall w0, collect (getRepo cfg) (sort repoNames) w0 = (Ok rs, w0))
                /\ info = {| workspacePath :=
                               pathJoin (workspacesDirectory cfg) (keyOf repoNames);
                             repos := List.map repoInfo rs |}).
Proof.
  destruct (decide (repoNames = [])) as [->|Hne].
  { intros [= <- <-]. split; [done|]. exists []. rewrite app_nil_r.
    split_and!; try done. by intros a ?%elem_of_nil. }
  unfold ensureWorkspace. destruct repoNames as [|n ns]; [done|].
  rewrite (getWorkspaceKey_sorted (n :: ns)) by done.
  set (names := n :: ns) in *. set (path := pathJoin _ (keyOf names)).
  destruct (collect_getRepo cfg (sort names)) as [rr Hrr].
  unfold bind at 1. rewrite Hrr. destruct rr as [rs|e].
  2:{ intros [= <- <-]. split; [done|]. exists []. rewrite app_nil_r.
      split_and!; try done. by intros a ?%elem_of_nil. }
  unfold bind at 1.
  pose proof (forEach_sync cfg out (sort names) w) as (Hd1 & Hw1 & _).
  destruct (forEach (cloneOrUpdateOneRepoLocally cfg out) (sort names) w)
    as [[[]|e] w1]; simpl in Hd1, Hw1.
  2:{ intros [= <- <-]. split; [done|]. exists []. rewrite app_nil_r.
      split_and!; try done. by intros a ?%elem_of_nil. }
  unfold bind at 1, directoryExists, gets.
  destruct (bool_decide (path ∈ dirs w1)) eqn:Hex; simpl negb; cbv iota.
  { unfold_eff. intros [= <- <-]. apply bool_decide_eq_true in Hex.
    split; [done|]. exists []. rewrite app_nil_r.
    split_and!; try done; [by intros a ?%elem_of_nil|].
    intros info [= <-]. split_and!; try done. by exists rs. }
  unfold bind at 1 2, ensureDirectory.
  destruct (mkdirFails out path); unfold fail, modify.
  { intros [= <- <-]. split; [done|]. exists []. rewrite app_nil_r.
    split_and!; try done. by intros a ?%elem_of_nil. }
  match goal with |- context [forEach _ rs ?w2] =>
    pose proof (forEach_createWorktree out (worktreeOf cfg path) rs w2)
      as (Hd2 & (added & Hw2 & Hin) & Herr);
    destruct (forEach (fun repo => createWorktree out (worktreeOf cfg path repo))
                rs w2) as [[[]|e] w3] end;
    simpl in Hd2, Hw2, Hin, Herr; unfold ret; intros [= <- <-].
  - split; [set_solver|]. exists added. rewrite Hw2, Hw1.
    split_and!; try done; [intros _; split_and!; [done|set_solver|done]|].
    intros info [= <-]. split_and!; [done|set_solver|by exists rs].
  - split; [set_solver|]. exists added. rewrite Hw2, Hw1.
    split_and!; try done. intros _; split_and!; [done|set_solver|].
    intros e' [= <-]. by apply Herr.
Qed.

(** The run, once the names are known to resolve. *)
Lemma ensureWorkspace_resolved cfg out (repoNames : list jsstring) w rs :
  repoNames <> [] ->
  (forall w0, collect (getRepo cfg) (sort repoNames) w0 = (Ok rs, w0)) ->
  let path := pathJoin (workspacesDirectory cfg) (keyOf repoNames) in
  let info := {| workspacePath := path; repos := List.map repoInfo rs |} in
  ensureWorkspace cfg out repoNames w =
    match forEach (cloneOrUpdateOneRepoLocally cfg out) (sort repoNames) w with
    | (Err e, w1) => (Err e, w1)
    | (Ok _, w1) =>
        if bool_decide (path ∈ dirs w1) then (Ok info, w1)
        else
          match ensureDirectory out path w1 with
          | (Err e, w2) => (Err e, w2)
          | (Ok _, w2) =>
              match forEach (fun repo => createWorktree out (worktreeOf cfg path repo))
                      rs w2 with
              | (Err e, w3) => (Err e, w3)
              | (Ok _, w3) => (Ok info, w3)
              end
          end
    end.
Proof.
  intros Hne Hrs path info.
  unfold ensureWorkspace. destruct repoNames as [|n ns]; [done|].
  rewrite (getWorkspaceKey_sorted (n :: ns)) by done.
  fold path. unfold bind at 1. rewrite Hrs. unfold bind at 1.
  destruct (forEach _ (sort (n :: ns)) w) as [[[]|e] w1]; [|done].
  unfold bind at 1, directoryExists, gets.
  destruct (bool_decide (path ∈ dirs w1)); simpl negb; cbv iota; [done|].
  unfold bind at 1 2.
  destruct (ensureDirectory out path w1) as [[[]|e] w2]; [|done].
  destruct (forEach _ rs w2) as [[[]|e] w3]; done.
Qed.

(** A run that finds the directory of the workspace creates no worktree; it
    succeeds unless refreshing a clone fails. *)
Lemma ensureWorkspace_existing cfg out (repoNames : list jsstring) w rs :
  repoNames <> [] ->
  (forall w0, collect (getRepo cfg) (sort repoNames) w0 = (Ok rs, w0)) ->
  pathJoin (workspacesDirectory cfg) (keyOf repoNames) ∈ dirs w ->
  let info := {| workspacePath :=
                   pathJoin (workspacesDirectory cfg) (keyOf repoNames);
                 repos := List.map repoInfo rs |} in
  worktreeAdds (ensureWorkspace cfg out repoNames w).2 = worktreeAdds w
  /\ (forall info', (ensureWorkspace cfg out repoNames w).1 = Ok info' ->
                    info' = info)
  /\ ((forall n, n ∈ repoNames -> syncFails out n = false) ->
      (ensureWorkspace cfg out repoNames w).1 = Ok info).
Proof.
  intros Hne Hrs Hpath info.
  rewrite (ensureWorkspace_resolved cfg out repoNames w rs) by done.
  pose proof (forEach_sync cfg out (sort repoNames) w) as (Hd1 & Hw1 & Hok).
  destruct (forEach (cloneOrUpdateOneRepoLocally cfg out) (sort repoNames) w)
    as [[[]|e] w1]; simpl in Hd1, Hw1, Hok.
  - rewrite bool_decide_eq_true_2 by set_solver. simpl.
    split_and!; try done. by intros info' [= <-].
  - simpl. split_and!; try done. intros Hs.
    assert (Habs : @Err Error unit e = Ok tt); [|done].
    apply Hok. intros m Hm. apply Hs. by rewrite sort_Permutation in Hm.
Qed.

(** C1, as the specification states it, fails: with the repositories [a] and
    [b], when the worktree of [b] cannot be created the run fails and leaves
    the directory of the workspace with the worktree of [a] alone. *)
Lemma ensureWorkspace_leaves_partial_workspace :
  (ensureWorkspace cfg0 out0 [lit "b"; lit "a"] w0).1
    = Err (GitError (lit "worktree add") (lit "/w/a+b/b"))
  /\ lit "/w/a+b" ∈ dirs (ensureWorkspace cfg0 out0 [lit "b"; lit "a"] w0).2
  /\ lit "/w/a+b/a" ∈ dirs (ensureWorkspace cfg0 out0 [lit "b"; lit "a"] w0).2
  /\ lit "/w/a+b/b" ∉ dirs (ensureWorkspace cfg0 out0 [lit "b"; lit "a"] w0).2.
Proof.
  split_and!; [by vm_compute| | |];
    apply (bool_decide_unpack _); by vm_compute.
Qed.

(** C1, amended.  When [ensureWorkspace] fails after it created some of the
    worktrees, the failure is that of the [git worktree add] that did not
    succeed, and it is surfaced as it is, with nothing removed: the directory
    [<workspacesDir>/<key>] and every worktree created in the attempt are
    still there, as is every directory that existed before. *)
Theorem ensureWorkspace_failure_removes_nothing cfg out
    (repoNames : list jsstring) w e w' :
  ensureWorkspace cfg out repoNames w = (Err e, w') ->
  worktreeAdds w' <> worktreeAdds w ->
  exists key added,
    getWorkspaceKey repoNames = Ok key
    /\ pathJoin (workspacesDirectory cfg) key ∈ dirs w'
    /\ worktreeAdds w' = worktreeAdds w ++ added
    /\ (forall a, a ∈ added -> targetDir a ∈ dirs w')
    /\ dirs w ⊆ dirs w'
    /\ exists target, e = GitError (lit "worktree add") target
                      /\ worktreeAddFails out target = true.
Proof.
  intros Hrun Hnew.
  apply ensureWorkspace_effects in Hrun as (Hd & added & Hw & Hin & Hadd & _).
  destruct Hadd as (Hne & Hpath & Herr).
  { intros ->. by rewrite app_nil_r in Hw. }
  exists (keyOf repoNames), added.
  split_and!; try done; [by apply getWorkspaceKey_nonempty|by apply Herr].
Qed.

Lemma ensureWorkspace_failure_removes_nothing_witness :
  exists key added,
    getWorkspaceKey [lit "b"; lit "a"] = Ok key
    /\ pathJoin (lit "/w") key
         ∈ dirs (ensureWorkspace cfg0 out0 [lit "b"; lit "a"] w0).2
    /\ worktreeAdds (ensureWorkspace cfg0 out0 [lit "b"; lit "a"] w0).2
         = worktreeAdds w0 ++ added
    /\ (forall a, a ∈ added ->
         targetDir a ∈ dirs (ensureWorkspace cfg0 out0 [lit "b"; lit "a"] w0).2).
Proof.
  destruct (ensureWorkspace_failure_removes_nothing cfg0 out0 [lit "b"; lit "a"]
              w0 (GitError (lit "worktree add") (lit "/w/a+b/b"))
              (ensureWorkspace cfg0 out0 [lit "b"; lit "a"] w0).2)
    as (key & added & H1 & H2 & H3 & H4 & _).
  - apply run_eq. vm_compute. reflexivity.
  - vm_compute. discriminate.
  - exists key, added. split_and!; assumption.
Defined.

(** The run depends on the set of names only, not on their order. *)
Lemma ensureWorkspace_permutation cfg out (repoNames repoNames' : list jsstring) :
  repoNames ≡ₚ repoNames' ->
  ensureWorkspace cfg out repoNames' = ensureWorkspace cfg out repoNames.
Proof.
  intros Hp. unfold ensureWorkspace.
  rewrite (sort_unique repoNames repoNames' Hp).
  destruct repoNames as [|n ns], repoNames' as [|n' ns']; try done.
  - by apply Permutation_nil_l in Hp.
  - by apply Permutation_nil_r in Hp.
Qed.

(** C8.  When [ensureWorkspace] has succeeded for a repository set, the
    directory of the workspace exists, and so does every worktree that the
    call created.  Calling it again with the same set, in whatever order,
    finds that directory -- its test, made once the clones are refreshed,
    answers yes -- and creates no worktree and removes nothing; it returns the
    same [workspacePath], that of the same key, and the same record, and it
    succeeds as soon as the clones can be refreshed. *)
Theorem ensureWorkspace_twice cfg out out' (repoNames repoNames' : list jsstring)
    w info w1 :
  repoNames ≡ₚ repoNames' ->
  ensureWorkspace cfg out repoNames w = (Ok info, w1) ->
  (exists key, getWorkspaceKey repoNames = Ok key
               /\ getWorkspaceKey repoNames' = Ok key
               /\ workspacePath info = pathJoin (workspacesDirectory cfg) key)
  /\ workspacePath info ∈ dirs w1
  /\ (exists added,
        worktreeAdds w1 = worktreeAdds w ++ added
        /\ forall a, a ∈ added ->
             targetDir a ∈ dirs w1
             /\ targetDir a ∈ dirs (ensureWorkspace cfg out' repoNames' w1).2)
  /\ (forall wc,
        forEach (cloneOrUpdateOneRepoLocally cfg out') (sort repoNames') w1
          = (Ok tt, wc) ->
        directoryExists (workspacePath info) wc = (Ok true, wc)
        /\ ensureWorkspace cfg out' repoNames' w1 = (Ok info, wc))
  /\ worktreeAdds (ensureWorkspace cfg out' repoNames' w1).2 = worktreeAdds w1
  /\ dirs w1 ⊆ dirs (ensureWorkspace cfg out' repoNames' w1).2
  /\ (forall info', (ensureWorkspace cfg out' repoNames' w1).1 = Ok info' ->
                    info' = info)
  /\ ((forall n, n ∈ repoNames' -> syncFails out' n = false) ->
      (ensureWorkspace cfg out' repoNames' w1).1 = Ok info).
Proof.
  intros Hp Hrun. rewrite (ensureWorkspace_permutation cfg out' _ _ Hp).
  rewrite <- (sort_unique repoNames repoNames' Hp).
  apply ensureWorkspace_effects in Hrun as (_ & added & Hadd & Hin & _ & Hok).
  destruct (Hok info eq_refl) as (Hne & Hpath & rs & Hrs & ->). simpl.
  destruct (ensureWorkspace_effects cfg out' repoNames w1 _ _
              (surjective_pairing _)) as (Hkeep & _).
  split_and!.
  - exists (keyOf repoNames).
    assert (Hne' : repoNames' <> []).
    { intros ->. by apply Permutation_nil_r in Hp. }
    rewrite !getWorkspaceKey_nonempty by done. unfold keyOf.
    by rewrite (sort_unique repoNames repoNames' Hp).
  - done.
  - exists added. split; [done|]. intros a Ha. split; [by apply Hin|].
    by apply Hkeep, Hin.
  - intros wc Hsync.
    pose proof (forEach_sync cfg out' (sort repoNames) w1) as (Hsub & _).
    rewrite Hsync in Hsub. simpl in Hsub.
    assert (Hthere : pathJoin (workspacesDirectory cfg) (keyOf repoNames)
                       ∈ dirs wc) by by apply Hsub.
    rewrite (ensureWorkspace_resolved cfg out' repoNames w1 rs) by done.
    rewrite Hsync. unfold directoryExists, gets.
    by rewrite bool_decide_eq_true_2.
  - by destruct (ensureWorkspace_existing cfg out' repoNames w1 rs Hne Hrs Hpath)
      as (H1 & _).
  - done.
  - by destruct (ensureWorkspace_existing cfg out' repoNames w1 rs Hne Hrs Hpath)
      as (_ & H2 & _).
  - destruct (ensureWorkspace_existing cfg out' repoNames w1 rs Hne Hrs Hpath)
      as (_ & _ & H3).
    intros Hs. apply H3. intros n Hn. apply Hs. by rewrite <- Hp.
Qed.

Lemma ensureWorkspace_twice_witness :
  lit "/w/a+b" ∈ dirs (ensureWorkspace cfg0 out1 [lit "b"; lit "a"] w0).2
  /\ List.map targetDir
       (worktreeAdds (ensureWorkspace cfg0 out1 [lit "b"; lit "a"] w0).2)
     = [lit "/w/a+b/a"; lit "/w/a+b/b"]
  /\ worktreeAdds
       (ensureWorkspace cfg0 out1 [lit "a"; lit "b"]
          (ensureWorkspace cfg0 out1 [lit "b"; lit "a"] w0).2).2
     = worktreeAdds (ensureWorkspace cfg0 out1 [lit "b"; lit "a"] w0).2
  /\ Forall (fun a =>
       targetDir a
         ∈ dirs (ensureWorkspace cfg0 out1 [lit "a"; lit "b"]
                   (ensureWorkspace cfg0 out1 [lit "b"; lit "a"] w0).2).2)
       (worktreeAdds (ensureWorkspace cfg0 out1 [lit "b"; lit "a"] w0).2)
  /\ (ensureWorkspace cfg0 out1 [lit "a"; lit "b"]
        (ensureWorkspace cfg0 out1 [lit "b"; lit "a"] w0).2).1
     = Ok info0.
Proof.
  destruct (ensureWorkspace_twice cfg0 out1 out1 [lit "b"; lit "a"]
              [lit "a"; lit "b"] w0 info0
              (ensureWorkspace cfg0 out1 [lit "b"; lit "a"] w0).2)
    as (_ & H0 & (added & Hadd & Hin) & _ & H1 & _ & _ & H2).
  - apply perm_swap.
  - apply run_eq. vm_compute. reflexivity.
  - split_and!; [exact H0|by vm_compute|exact H1| |apply H2; reflexivity].
    rewrite Hadd. simpl. apply Forall_forall. intros a Ha. by apply Hin.
Defined.

End WorkspaceFacts.

(** ** [getOpencodeInstanceForWorkspace] *)

Section PortFacts.
Import Sys Workspace Agent Oc.
Local Open Scope eff_scope.

Implicit Types (agent : Agent.Agent) (info : WorkspaceInfo) (w : World).

Lemma portsFrom_S (off : N) (d : nat) :
  portsFrom off (S d) = (3420 + off) :: portsFrom (off + 1) d.
Proof.
  unfold portsFrom. simpl. f_equal; [f_equal; lia|].
  rewrite <- seq_shift, List.map_map. apply List.map_ext. intros j. lia.
Qed.

(** Past [d] busy ports the loop is where it would have started [d] ports
    later, the attempts recorded. *)
Lemma portLoop_skip_busy agent info (d : nat) :
  forall (fuel : nat) (off : N) w,
    (d <= fuel)%nat ->
    off + N.of_nat d <= maxInstances ->
    (forall j : nat, (j < d)%nat -> portBusy agent (off + N.of_nat j) = true) ->
    portLoop agent info fuel off w
    = portLoop agent info (fuel - d) (off + N.of_nat d)
        (withAttempts w (portsFrom off d)).
Proof.
  unfold maxInstances.
  induction d as [|d IH]; intros fuel off w Hfuel Hoff Hbusy.
  - rewrite Nat.sub_0_r, N.add_0_r. unfold withAttempts, portsFrom; simpl.
    rewrite app_nil_r. by destruct w.
  - destruct fuel as [|fuel]; [lia|]. simpl portLoop.
    replace (off <? maxInstances) with true
      by (symmetry; apply N.ltb_lt; unfold maxInstances; lia).
    pose proof (Hbusy 0%nat ltac:(lia)) as H0. unfold portBusy in H0.
    rewrite N.add_0_r in H0. unfold bind at 1, modify.
    destruct (createOpencode agent (3420 + off)) as [|cause]; [done|].
    rewrite H0. rewrite IH; [| lia | lia |].
    + rewrite portsFrom_S. simpl Nat.sub.
      replace (off + 1 + N.of_nat d) with (off + N.of_nat (S d)) by lia.
      f_equal. unfold withAttempts; simpl. by rewrite <- app_assoc.
    + intros j Hj. replace (off + 1 + N.of_nat j) with (off + N.of_nat (S j)) by lia.
      apply Hbusy. lia.
Qed.

Lemma portLoop_exhausted agent info (fuel : nat) w :
  portLoop agent info fuel maxInstances w
  = (Err (OcError (lit "FAILED TO CREATE OPENCODE CLIENT - all ports exhausted")), w).
Proof. by destruct fuel. Qed.

Lemma portLoop_step agent info (fuel : nat) (off : N) w :
  off < maxInstances ->
  portBusy agent off = false ->
  portLoop agent info (S fuel) off w
  = match createOpencode agent (3420 + off) with
    | Started =>
        (Ok {| client := {| baseUrlPort := 3420 + off;
                            directory := workspacePath info |};
               server := 3420 + off |},
         mkWorld (dirs w) (worktreeAdds w) (bootAttempts w ++ [3420 + off])
           (servers w ++ [3420 + off]) (closes w) (sessionCreates w))
    | Rejected _ =>
        (Err (OcError (lit "FAILED TO CREATE OPENCODE CLIENT")),
         withAttempts w [3420 + off])
    end.
Proof.
  intros Hoff Hbusy. simpl portLoop.
  replace (off <? maxInstances) with true by (symmetry; by apply N.ltb_lt).
  unfold portBusy in Hbusy. unfold bind at 1, modify.
  destruct (createOpencode agent (3420 + off)) as [|cause]; [done|].
  by rewrite Hbusy.
Qed.

(** The outcome of the probe, by the number [n] of busy ports at the start. *)
Lemma getOpencodeInstance_outcome agent info w (n : nat) :
  (n <= 30)%nat ->
  (forall j : nat, (j < n)%nat -> portBusy agent (N.of_nat j) = true) ->
  ((n < 30)%nat -> portBusy agent (N.of_nat n) = false) ->
  let run := getOpencodeInstanceForWorkspace agent info w in
  bootAttempts run.2 = bootAttempts w ++ portsFrom 0 (Nat.min (S n) 30)
  /\ run.1 =
       (if (n =? 30)%nat then
          Err (OcError
                 (lit "FAILED TO CREATE OPENCODE CLIENT - all ports exhausted"))
        else
          match createOpencode agent (3420 + N.of_nat n) with
          | Started =>
              Ok {| client := {| baseUrlPort := 3420 + N.of_nat n;
                                 directory := workspacePath info |};
                    server := 3420 + N.of_nat n |}
          | Rejected _ => Err (OcError (lit "FAILED TO CREATE OPENCODE CLIENT"))
          end)
  /\ servers run.2 =
       servers w ++
         (if (n =? 30)%nat then []
          else match createOpencode agent (3420 + N.of_nat n) with
               | Started => [3420 + N.of_nat n]
               | Rejected _ => []
               end)
  /\ sessionCreates run.2 = sessionCreates w
  /\ closes run.2 = closes w.
Proof.
  intros Hn Hbusy Hfree run. subst run.
  unfold getOpencodeInstanceForWorkspace.
  rewrite (portLoop_skip_busy agent info n); unfold maxInstances;
    [ | lia | lia | by intros j Hj; rewrite N.add_0_l; apply Hbusy ].
  rewrite N.add_0_l.
  destruct (decide (n = 30%nat)) as [->|Hne].
  - change (N.of_nat 30) with maxInstances. rewrite portLoop_exhausted.
    simpl. rewrite app_nil_r. done.
  - replace (n =? 30)%nat with false by (symmetry; apply Nat.eqb_neq; lia).
    replace (Nat.min (S n) 30) with (S n) by lia.
    destruct (N.to_nat 30 - n)%nat as [|fuel] eqn:Ef; [lia|].
    rewrite portLoop_step; [|unfold maxInstances; lia|apply Hfree; lia].
    assert (Hports : portsFrom 0 (S n) = portsFrom 0 n ++ [3420 + N.of_nat n]).
    { unfold portsFrom. rewrite seq_S, List.map_app. simpl. done. }
    destruct (createOpencode agent (3420 + N.of_nat n)); simpl;
      rewrite Hports, ?app_nil_r, <- ?app_assoc; done.
Qed.

(** Every agent has a first port that is not busy, or all 30 are: the outcome
    above covers every run, and the fuel of the loop never runs out. *)
Lemma first_free_port agent (bound : nat) :
  exists n : nat,
    (n <= bound)%nat
    /\ (forall j : nat, (j < n)%nat -> portBusy agent (N.of_nat j) = true)
    /\ ((n < bound)%nat -> portBusy agent (N.of_nat n) = false).
Proof.
  induction bound as [|bound (n & Hn & Hbusy & Hfree)].
  - exists 0%nat. split_and!; [lia|intros; lia|lia].
  - destruct (decide (n < bound)%nat) as [Hlt|Hge].
    + exists n. split_and!; [lia|done|auto].
    + assert (n = bound) as -> by lia.
      destruct (portBusy agent (N.of_nat bound)) eqn:E.
      * exists (S bound). split_and!; [lia| |lia].
        intros j Hj. destruct (decide (j = bound)) as [->|]; [done|].
        apply Hbusy. lia.
      * exists bound. split_and!; [lia|done|done].
Qed.

Lemma getOpencodeInstance_total agent info w :
  (getOpencodeInstanceForWorkspace agent info w).1 <> Err OutOfFuel.
Proof.
  destruct (first_free_port agent 30) as (n & Hn & Hbusy & Hfree).
  destruct (getOpencodeInstance_outcome agent info w n Hn Hbusy Hfree)
    as (_ & -> & _).
  destruct (n =? 30)%nat; [done|].
  by destruct (createOpencode agent (3420 + N.of_nat n)).
Qed.

End PortFacts.

(** ** Starting a session *)

Section SessionFacts.
Import Sys Workspace Agent Validation Oc.
Local Open Scope eff_scope.

Implicit Types (cfg : Config) (out : Outside) (agent : Agent.Agent) (w : World).

Lemma forEach_sync_frame cfg out (l : list jsstring) w :
  agentSide (forEach (cloneOrUpdateOneRepoLocally cfg out) l w).2 = agentSide w.
Proof.
  revert w; induction l as [|x l IH]; intros w; simpl; [done|].
  unfold cloneOrUpdateOneRepoLocally at 1.
  destruct (syncFails out x); unfold bind, fail, modify; simpl; [done|].
  by rewrite IH.
Qed.

Lemma forEach_createWorktree_frame {A} out (f : A -> WorktreeAdd) (l : list A) w :
  agentSide (forEach (fun x => createWorktree out (f x)) l w).2 = agentSide w.
Proof.
  revert w; induction l as [|x l IH]; intros w; simpl; [done|].
  unfold createWorktree at 1.
  destruct (worktreeAddFails out (targetDir (f x))); unfold bind, fail, modify;
    simpl; [done|].
  by rewrite IH.
Qed.

Lemma ensureWorkspace_frame cfg out (repoNames : list jsstring) w :
  agentSide (ensureWorkspace cfg out repoNames w).2 = agentSide w.
Proof.
  destruct (decide (repoNames = [])) as [->|Hne]; [done|].
  destruct (collect_getRepo cfg (sort repoNames)) as [[rs|e] Hr].
  - rewrite (ensureWorkspace_resolved cfg out repoNames w rs) by done.
    pose proof (forEach_sync_frame cfg out (sort repoNames) w) as H1.
    destruct (forEach _ (sort repoNames) w) as [[[]|e] w1]; simpl in H1; [|done].
    destruct (bool_decide _); [done|].
    unfold ensureDirectory. destruct (mkdirFails out _); unfold fail, modify; [done|].
    match goal with |- context [forEach ?g rs ?w2] =>
      pose proof (forEach_createWorktree_frame out
        (worktreeOf cfg (pathJoin (workspacesDirectory cfg) (keyOf repoNames))) rs w2)
        as H2;
      destruct (forEach g rs w2) as [[[]|e] w3] end; simpl in H2 |- *;
      by rewrite H2.
  - unfold ensureWorkspace. destruct repoNames as [|n ns]; [done|].
    rewrite (getWorkspaceKey_sorted (n :: ns)) by done.
    unfold bind at 1. by rewrite Hr.
Qed.

(** The call of [session.create]: made once, it dies when the promise
    rejects. *)
Lemma sessionCreatePromise_run agent w :
  sessionCreatePromise agent w =
    (match sessionCreateRejects agent with
     | Some message => Err (Thrown message)
     | None => Ok (sessionCreate agent)
     end,
     mkWorld (dirs w) (worktreeAdds w) (bootAttempts w) (servers w) (closes w)
       (S (sessionCreates w))).
Proof.
  unfold sessionCreatePromise, bind, modify, fail, ret.
  by destruct (sessionCreateRejects agent).
Qed.

(** [createSession], step by step. *)
Lemma createSession_run cfg out agent (repos : list jsstring) w :
  createSession cfg out agent repos w =
    match ensureWorkspace cfg out repos w with
    | (Err e, w1) => (Err e, w1)
    | (Ok info, w1) =>
        match getOpencodeInstanceForWorkspace agent info w1 with
        | (Err e, w2) => (Err e, w2)
        | (Ok inst, w2) =>
            match validateProviderAndModel agent (provider cfg) (model cfg) w2 with
            | (Err e, w3) => (Err e, w3)
            | (Ok _, w3) =>
                match sessionCreateRejects agent with
                | Some message =>
                    (Err (Thrown message),
                     mkWorld (dirs w3) (worktreeAdds w3) (bootAttempts w3)
                       (servers w3) (closes w3) (S (sessionCreates w3)))
                | None =>
                    match sessionCreate agent with
                    | Err _ =>
                        (Err (OcError (lit "FAILED TO START OPENCODE SESSION")),
                         mkWorld (dirs w3) (worktreeAdds w3) (bootAttempts w3)
                           (servers w3) (closes w3 ++ [server inst])
                           (S (sessionCreates w3)))
                    | Ok sessionId =>
                        (Ok {| stClient := client inst;
                               stServer := server inst;
                               stSessionID := sessionId;
                               stWorkspacePath := workspacePath info;
                               stRepos := sort repos |},
                         mkWorld (dirs w3) (worktreeAdds w3) (bootAttempts w3)
                           (servers w3) (closes w3) (S (sessionCreates w3)))
                    end
                end
            end
        end
    end.
Proof.
  unfold createSession, getWorkspaceOpenCodeConfig. unfold bind at 1.
  destruct (ensureWorkspace cfg out repos w) as [[info|e] w1]; [|done].
  unfold bind at 1, ret at 1. unfold bind at 1.
  destruct (getOpencodeInstanceForWorkspace agent info w1) as [[inst|e] w2];
    [|done].
  unfold bind at 1.
  destruct (validateProviderAndModel _ _ _ w2) as [[[]|e] w3]; [|done].
  unfold bind at 1. rewrite sessionCreatePromise_run.
  destruct (sessionCreateRejects agent); [done|].
  destruct (sessionCreate agent); done.
Qed.

Lemma validate_state agent (providerId modelId : jsstring) w :
  (validateProviderAndModel agent providerId modelId w).2 = w.
Proof.
  unfold validateProviderAndModel.
  destruct (providerList agent) as [[data|]|]; try done.
  destruct (List.find _ _); [|done].
  destruct (negb _); [done|]. destruct (negb _); done.
Qed.



(** ** Validation of provider and model *)

(** Without an answer of [provider.list()] the validation is skipped. *)
Lemma validate_fails_open agent (providerId modelId : jsstring) w :
  providerList agent = None \/ providerList agent = Some None ->
  validateProviderAndModel agent providerId modelId w = (Ok tt, w).
Proof. unfold validateProviderAndModel. by intros [->| ->]. Qed.

(** With an answer, the validation fails exactly when the answer contradicts
    the request, with the error of the first check that fails. *)
Lemma validate_fails_closed agent (providerId modelId : jsstring) w data :
  providerList agent = Some (Some data) ->
  (validateProviderAndModel agent providerId modelId w).1 =
    match List.find (fun p => bool_decide (id p = providerId)) (all data) with
    | None =>
        Err (Validation (InvalidProviderError providerId (List.map id (all data))))
    | Some p =>
        if bool_decide (providerId ∈ connected data) then
          if bool_decide (modelId ∈ models p) then Ok tt
          else Err (Validation (InvalidModelError providerId modelId (models p)))
        else Err (Validation (ProviderNotConnectedError providerId (connected data)))
    end.
Proof.
  unfold validateProviderAndModel. intros ->.
  destruct (List.find _ _) as [p|]; [|done].
  destruct (bool_decide (providerId ∈ connected data)); [|done]. simpl.
  destruct (bool_decide (modelId ∈ models p)); done.
Qed.

Lemma portLoop_S agent (info : WorkspaceInfo) (fuel : nat) (off : N) w :
  portLoop agent info (S fuel) off w =
    if off <? maxInstances then
      match createOpencode agent (3420 + off) with
      | Started =>
          (Ok {| client := {| baseUrlPort := 3420 + off;
                              directory := workspacePath info |};
                 server := 3420 + off |},
           mkWorld (dirs w) (worktreeAdds w) (bootAttempts w ++ [3420 + off])
             (servers w ++ [3420 + off]) (closes w) (sessionCreates w))
      | Rejected cause =>
          if isPortError cause
          then portLoop agent info fuel (off + 1) (withAttempts w [3420 + off])
          else (Err (OcError (lit "FAILED TO CREATE OPENCODE CLIENT")),
                withAttempts w [3420 + off])
      end
    else
      (Err (OcError (lit "FAILED TO CREATE OPENCODE CLIENT - all ports exhausted")),
       w).
Proof.
  simpl portLoop. destruct (off <? maxInstances); [|done].
  unfold bind at 1, modify at 1.
  destruct (createOpencode agent (3420 + off)) as [|cause]; [done|].
  by destruct (isPortError cause).
Qed.

(** The probe closes no server and creates no session; it starts one server
    when it succeeds and none when it fails. *)
Lemma portLoop_frame agent (info : WorkspaceInfo) (fuel : nat) :
  forall (off : N) w,
    closes (portLoop agent info fuel off w).2 = closes w
    /\ sessionCreates (portLoop agent info fuel off w).2 = sessionCreates w
    /\ (forall inst, (portLoop agent info fuel off w).1 = Ok inst ->
         servers (portLoop agent info fuel off w).2 = servers w ++ [server inst])
    /\ (forall e, (portLoop agent info fuel off w).1 = Err e ->
         servers (portLoop agent info fuel off w).2 = servers w).
Proof.
  induction fuel as [|fuel IH]; intros off w.
  - simpl. destruct (off <? maxInstances); done.
  - rewrite portLoop_S. destruct (off <? maxInstances); [|done].
    destruct (createOpencode agent (3420 + off)) as [|cause].
    + simpl. split_and!; try done. by intros inst [= <-].
    + destruct (isPortError cause); [|done].
      exact (IH (off + 1) (withAttempts w [3420 + off])).
Qed.

(** When the validation fails, [createSession] fails with that error and the
    server it started is left running: [close] is not called. *)
Lemma createSession_validation_failure cfg out agent (repos : list jsstring)
    w info w1 inst w2 e :
  ensureWorkspace cfg out repos w = (Ok info, w1) ->
  getOpencodeInstanceForWorkspace agent info w1 = (Ok inst, w2) ->
  (validateProviderAndModel agent (provider cfg) (model cfg) w2).1 = Err e ->
  createSession cfg out agent repos w = (Err e, w2)
  /\ closes w2 = closes w
  /\ servers w2 = servers w ++ [server inst].
Proof.
  intros Hws Hinst Hval. rewrite createSession_run, Hws, Hinst.
  pose proof (validate_state agent (provider cfg) (model cfg) w2) as Hst.
  destruct (validateProviderAndModel _ _ _ w2) as [[[]|e'] w3];
    simpl in Hval, Hst; [done|]. injection Hval as ->. subst w3.
  split; [done|].
  pose proof (ensureWorkspace_frame cfg out repos w) as Hframe.
  rewrite Hws in Hframe; simpl in Hframe; injection Hframe as Ha Hs Hc Hn.
  unfold getOpencodeInstanceForWorkspace in Hinst.
  pose proof (portLoop_frame agent info (N.to_nat maxInstances) 0 w1)
    as (H1 & _ & H3 & _).
  rewrite Hinst in H1, H3; simpl in H1, H3.
  split; [congruence|]. rewrite (H3 inst eq_refl). congruence.
Qed.

(** C2, the part the code misses.  The configured provider is [opencode] and
    the agent lists [anthropic] only: [createSession] and [askQuestion] fail
    with [InvalidProviderError], as they should, but the server started on port
    3420 is not closed.  The failure of [session.create], next to it in both
    functions, does close the server. *)
Theorem validation_failure_leaves_server_running :
  (createSession cfg0 out1 agentOtherProvider [lit "a"] w0).1
    = Err (Validation (InvalidProviderError (lit "opencode") [lit "anthropic"]))
  /\ servers (createSession cfg0 out1 agentOtherProvider [lit "a"] w0).2 = [3420]
  /\ closes (createSession cfg0 out1 agentOtherProvider [lit "a"] w0).2 = []
  /\ (askQuestion cfg0 out1 agentOtherProvider [lit "a"] w0).1
     = Err (Validation (InvalidProviderError (lit "opencode") [lit "anthropic"]))
  /\ servers (askQuestion cfg0 out1 agentOtherProvider [lit "a"] w0).2 = [3420]
  /\ closes (askQuestion cfg0 out1 agentOtherProvider [lit "a"] w0).2 = []
  /\ (createSession cfg0 out1 agentNoSession [lit "a"] w0).1
     = Err (OcError (lit "FAILED TO START OPENCODE SESSION"))
  /\ closes (createSession cfg0 out1 agentNoSession [lit "a"] w0).2 = [3420].
Proof. split_and!; by vm_compute. Qed.

End SessionFacts.

(** ** The events of a session *)

Section StreamFacts.
Import Sys Agent Oc.

Implicit Types (agent : Agent.Agent) (w : World) (e : Event) (l : list Event).

Lemma upTo_elem_of (p : Event -> bool) l e : e ∈ (Stream.upTo p l).1 -> e ∈ l.
Proof.
  induction l as [|x l IH]; simpl; [done|].
  destruct (p x).
  - simpl. intros ->%list_elem_of_singleton. left.
  - destruct (Stream.upTo p l) as [r hit]. simpl in *.
    intros [->|H]%elem_of_cons; [left|right; by apply IH].
Qed.

Lemma upTo_first_hit (p : Event -> bool) (a b : list Event) (x : Event) :
  Forall (fun e => p e = false) a -> p x = true ->
  Stream.upTo p (a ++ x :: b) = (a ++ [x], true).
Proof.
  intros Ha Hx. induction Ha as [|y a Hy _ IH]; simpl.
  - by rewrite Hx.
  - by rewrite Hy, IH.
Qed.

Lemma mapWhileOk_elem_of l e :
  e ∈ (Stream.mapWhileOk failOnSessionError l).1 -> e ∈ l.
Proof.
  induction l as [|x l IH]; simpl; [done|].
  unfold failOnSessionError at 1.
  destruct (bool_decide (type x = lit "session.error")); simpl.
  - by intros ?%elem_of_nil.
  - destruct (Stream.mapWhileOk failOnSessionError l) as [r failure]. simpl in *.
    intros [->|H]%elem_of_cons; [left|right; by apply IH].
Qed.

Lemma mapWhileOk_no_error l :
  Forall (fun e => type e <> lit "session.error") l ->
  Stream.mapWhileOk failOnSessionError l = (l, None).
Proof.
  induction 1 as [|x l Hx _ IH]; simpl; [done|].
  unfold failOnSessionError at 1. rewrite bool_decide_eq_false_2 by done.
  by rewrite IH.
Qed.

(** The prompt never completes [errorDeferred]. *)
Lemma firePrompt_pending agent : firePrompt agent = None.
Proof. unfold firePrompt. by destruct (promptFails agent). Qed.

(** What [streamSessionEvents] emits comes from the agent and passes the
    filter. *)
Lemma streamSessionEvents_emitted agent (sessionId : jsstring) w st w' e :
  streamSessionEvents agent sessionId w = (Ok st, w') ->
  e ∈ Stream.emitted st ->
  e ∈ eventStream agent /\ forSession sessionId e = true.
Proof.
  unfold streamSessionEvents. destruct (subscribeFails agent); [done|].
  unfold ret. intros [= <- <-]. unfold Stream.takeUntil, Stream.filter; simpl.
  destruct (Stream.upTo _ _) as [r hit] eqn:E. simpl. intros He.
  assert (He' : e ∈ (Stream.upTo (isIdleOf sessionId)
    (List.filter (forSession sessionId) (eventStream agent))).1) by by rewrite E.
  apply upTo_elem_of, list_elem_of_In, filter_In in He' as [H1 H2].
  by apply list_elem_of_In in H1.
Qed.

Lemma streamPrompt_emitted agent (sessionId : jsstring) cleanup w st w' e :
  streamPrompt agent sessionId cleanup w = (Ok st, w') ->
  e ∈ Stream.emitted st ->
  e ∈ eventStream agent /\ forSession sessionId e = true.
Proof.
  unfold streamPrompt, bind.
  destruct (streamSessionEvents agent sessionId w) as [[st0|err] w0] eqn:E0;
    [|done].
  unfold ret. intros [= <- <-] He.
  apply (streamSessionEvents_emitted agent sessionId w st0 w0 e E0).
  assert (Hm : e ∈ Stream.emitted
    (Stream.interruptWhen (firePrompt agent)
       (Stream.mapEffect failOnSessionError st0))).
  { by destruct cleanup. }
  clear He. rewrite firePrompt_pending in Hm.
  unfold Stream.interruptWhen, Stream.mapEffect in Hm.
  destruct (Stream.mapWhileOk failOnSessionError (Stream.emitted st0))
    as [r failure] eqn:Er.
  assert (Hr : forall x, x ∈ r -> x ∈ Stream.emitted st0).
  { intros x Hx. apply mapWhileOk_elem_of. by rewrite Er. }
  by apply Hr.
Qed.

Lemma forSession_spec (sessionId : jsstring) e :
  forSession sessionId e = true <->
  Agent.sessionID e = None \/ Agent.sessionID e = Some sessionId.
Proof.
  unfold forSession. destruct (Agent.sessionID e) as [id|]; [|by intuition].
  rewrite bool_decide_eq_true. split; [intros ->; by right|].
  by intros [?|[= ->]].
Qed.

(** C7.  Every event that the stream of a session emits -- the stream of
    [streamSessionEvents] and the prompt stream built on it -- comes from the
    agent and either has no [sessionID] in its properties or has the
    [sessionID] of the session; an event with another [sessionID] is dropped. *)
Theorem stream_events_of_own_session agent (sessionId : jsstring) cleanup
    w st w' :
  streamSessionEvents agent sessionId w = (Ok st, w')
  \/ streamPrompt agent sessionId cleanup w = (Ok st, w') ->
  (forall e, e ∈ Stream.emitted st ->
     e ∈ eventStream agent
     /\ (Agent.sessionID e = None \/ Agent.sessionID e = Some sessionId))
  /\ (forall e other, Agent.sessionID e = Some other -> other <> sessionId ->
        e ∉ Stream.emitted st).
Proof.
  intros Hst.
  assert (H : forall e, e ∈ Stream.emitted st ->
            e ∈ eventStream agent /\ forSession sessionId e = true).
  { intros e He. destruct Hst as [Hst|Hst].
    - by apply (streamSessionEvents_emitted agent sessionId w st w').
    - by apply (streamPrompt_emitted agent sessionId cleanup w st w'). }
  split.
  - intros e He. destruct (H e He) as [H1 H2]. by apply forSession_spec in H2.
  - intros e other Hid Hne He. destruct (H e He) as [_ H2].
    apply forSession_spec in H2 as [H2|H2]; congruence.
Qed.

Lemma stream_events_of_own_session_witness :
  Forall
    (fun e => e ∈ eventStream agentTwoSessions
              /\ (Agent.sessionID e = None
                  \/ Agent.sessionID e = Some (lit "ses_1")))
    (Stream.emitted streamOfFirst).
Proof.
  apply Forall_forall.
  apply (stream_events_of_own_session agentTwoSessions (lit "ses_1") None w0
           streamOfFirst w0).
  right. vm_compute. reflexivity.
Defined.

(** C10.  When the agent emits [session.idle] for the session, the stream
    ends normally there and that event is itself delivered, as the last
    element: the stream of [streamSessionEvents] emits the events before it
    that pass the filter, then the event, and is done; so does the prompt
    stream when none of those events is a [session.error] and the prompt
    submission does not fail. *)
Theorem idle_event_is_delivered_last agent (sessionId : jsstring) cleanup w
    (before after : list Event) (idle : Event) :
  subscribeFails agent = false ->
  eventStream agent = before ++ idle :: after ->
  isIdleOf sessionId idle = true ->
  Forall (fun e => isIdleOf sessionId e = false) before ->
  let delivered := List.filter (forSession sessionId) before ++ [idle] in
  (exists st,
     streamSessionEvents agent sessionId w = (Ok st, w)
     /\ Stream.emitted st = delivered
     /\ Stream.exit st = Stream.Done
     /\ last (Stream.emitted st) = Some idle)
  /\ (promptFails agent = None ->
      Forall (fun e => type e <> lit "session.error")
        (List.filter (forSession sessionId) before) ->
      exists st,
        streamPrompt agent sessionId cleanup w = (Ok st, w)
        /\ Stream.emitted st = delivered
        /\ Stream.exit st = Stream.Done
        /\ last (Stream.emitted st) = Some idle).
Proof.
  intros Hsub Hev Hidle Hbefore delivered.
  assert (Hfor : forSession sessionId idle = true).
  { unfold isIdleOf in Hidle. apply andb_true_iff in Hidle as [_ H].
    apply bool_decide_eq_true in H. unfold forSession. rewrite H.
    by apply bool_decide_eq_true. }
  assert (Htype : type idle = lit "session.idle").
  { unfold isIdleOf in Hidle. apply andb_true_iff in Hidle as [H _].
    by apply bool_decide_eq_true in H. }
  assert (Hup : Stream.upTo (isIdleOf sessionId)
                  (List.filter (forSession sessionId) (eventStream agent))
                = (delivered, true)).
  { rewrite Hev, List.filter_app. simpl. rewrite Hfor.
    apply upTo_first_hit; [|done].
    rewrite Forall_forall in Hbefore |- *. intros e He.
    apply list_elem_of_In, filter_In in He as [He _].
    by apply Hbefore, list_elem_of_In. }
  assert (Hst : streamSessionEvents agent sessionId w
                = (Ok {| Stream.emitted := delivered;
                         Stream.exit := Stream.Done;
                         Stream.finalizer := None |}, w)).
  { unfold streamSessionEvents. rewrite Hsub. unfold ret. f_equal. f_equal.
    unfold Stream.takeUntil, Stream.filter; simpl. by rewrite Hup. }
  split.
  - eexists. split; [exact Hst|]. simpl. split_and!; try done.
    unfold delivered. by rewrite last_snoc.
  - intros Hprompt Hnoerr.
    unfold streamPrompt, bind, firePrompt. rewrite Hst, Hprompt. unfold ret.
    unfold Stream.interruptWhen, Stream.mapEffect. simpl.
    rewrite mapWhileOk_no_error.
    2:{ unfold delivered. apply Forall_app. split; [done|].
        constructor; [|done]. rewrite Htype. by vm_compute. }
    destruct cleanup; eexists; (split; [reflexivity|]); simpl;
      split_and!; try done; unfold delivered; by rewrite last_snoc.
Qed.

Lemma idle_event_is_delivered_last_witness :
  exists st,
    streamPrompt agentTwoSessions (lit "ses_1") None w0 = (Ok st, w0)
    /\ Stream.emitted st = Stream.emitted streamOfFirst
    /\ Stream.exit st = Stream.Done
    /\ last (Stream.emitted st) = Some (evIdle (lit "ses_1")).
Proof.
  destruct (idle_event_is_delivered_last agentTwoSessions (lit "ses_1") None w0
    [ evText (Some (lit "ses_1")); evText (Some (lit "ses_2")); evText None;
      evIdle (lit "ses_2") ]
    [ evText (Some (lit "ses_1")) ] (evIdle (lit "ses_1")))
    as [_ H].
  - reflexivity.
  - reflexivity.
  - vm_compute. reflexivity.
  - repeat constructor.
  - apply H; [reflexivity|]. vm_compute. repeat constructor; discriminate.
Defined.

End StreamFacts.

(** ** More on [parseQuery]: fixed points and the round trip *)

Section QueryMore.

Implicit Types (s q r : jsstring) (rs : list jsstring).

Lemma execAll_cons c s :
  execLoop (length (c :: s)) (c :: s) =
    match mentionAt (c :: s) with
    | Some (name, rest) => toLowerCase name :: execLoop (length rest) rest
    | None => execLoop (length s) s
    end.
Proof.
  simpl length. rewrite execLoop_cons.
  destruct (mentionAt (c :: s)) as [[name rest]|] eqn:E; [|done].
  f_equal. apply execLoop_fuel; [|done].
  assert (Hr : mentionRegex (c :: s) = Some rest)
    by (unfold mentionRegex; by rewrite E).
  apply mentionRegex_shrinking in Hr. simpl in Hr. lia.
Qed.

Lemma replaceAll_cons (m : matcher) (repl : jsstring) c s :
  shrinking m ->
  replaceAll m repl (c :: s) =
    match m (c :: s) with
    | Some rest => repl ++ replaceAll m repl rest
    | None => c :: replaceAll m repl s
    end.
Proof.
  intros Hm. unfold replaceAll. simpl length. rewrite replaceFrom_cons.
  destruct (m (c :: s)) as [rest|] eqn:E; [|done].
  f_equal. apply replaceFrom_fuel; [done| |done].
  apply Hm in E. simpl in E. lia.
Qed.

Lemma noMention_complete q : ~ containsMention q -> noMention q = true.
Proof.
  induction q as [|c q IH]; intros Hq; simpl; [done|].
  rewrite IH, andb_true_r.
  - destruct (c =? atSign) eqn:Ec; [|done]. apply N.eqb_eq in Ec as ->.
    destruct q as [|d q]; [done|]. simpl.
    destruct (isMentionChar d) eqn:Ed; [|done].
    exfalso. apply Hq. exists [], [d], q. split_and!; [done|by constructor|done].
  - intros (pre & name & post & H1 & H2 & ->). apply Hq.
    by exists (c :: pre), name, post.
Qed.

Lemma dropClass_id p s : headIn p s = false -> dropClass p s = s.
Proof. destruct s as [|c s]; simpl; [done|]. by intros ->. Qed.

Lemma takeClass_app p r s :
  Forall (fun c => p c = true) r -> headIn p s = false ->
  takeClass p (r ++ s) = r /\ dropClass p (r ++ s) = s.
Proof.
  intros Hr Hs. induction Hr as [|c r Hc _ [IH1 IH2]]; simpl.
  - split; [by apply takeClass_nil_headIn|by apply dropClass_id].
  - rewrite Hc. by rewrite IH1, IH2.
Qed.

(** A string without mention has nothing to extract and nothing to strip. *)
Lemma execLoop_noMention (f : nat) s : noMention s = true -> execLoop f s = [].
Proof.
  revert s; induction f as [|f IH]; intros [|c s] Hs;
    rewrite ?execLoop_nil; try done.
  rewrite execLoop_cons. simpl in Hs. apply andb_true_iff in Hs as [H1 H2].
  simpl mentionAt. destruct (c =? atSign); simpl in H1.
  - apply negb_true_iff, takeClass_nil_headIn in H1. rewrite H1. by apply IH.
  - by apply IH.
Qed.

Lemma strip_noMention_id (f : nat) s :
  noMention s = true -> replaceFrom mentionRegex [] f s = s.
Proof.
  revert s; induction f as [|f IH]; intros [|c s] Hs;
    rewrite ?replaceFrom_nil; try done.
  rewrite replaceFrom_cons. simpl in Hs. apply andb_true_iff in Hs as [H1 H2].
  unfold mentionRegex at 1. simpl mentionAt. destruct (c =? atSign); simpl in H1.
  - apply negb_true_iff, takeClass_nil_headIn in H1. rewrite H1. simpl.
    by rewrite IH.
  - simpl. by rewrite IH.
Qed.

(** A string whose white space is collapsed is left as it is. *)
Lemma spaces_collapsed_id (f : nat) s :
  collapsed s = true -> replaceFrom spacesRegex (lit " ") f s = s.
Proof.
  change (lit " ") with [32].
  revert s; induction f as [|f IH]; intros [|c s] Hs;
    rewrite ?replaceFrom_nil; try done.
  rewrite replaceFrom_cons. simpl in Hs. apply andb_true_iff in Hs as [H1 H2].
  simpl spacesRegex. destruct (isSpace c).
  - apply andb_true_iff in H1 as [Hc Hh]. apply N.eqb_eq in Hc as ->.
    apply negb_true_iff in Hh. rewrite (dropClass_id _ _ Hh). simpl.
    by rewrite IH.
  - by rewrite IH.
Qed.

Lemma trim_id s :
  headIn isSpace s = false -> headIn isSpace (reverse s) = false -> trim s = s.
Proof.
  intros H1 H2. unfold trim.
  by rewrite (dropClass_id _ _ H1), (dropClass_id _ _ H2), reverse_involutive.
Qed.

(** The prompt that [parseQuery] returns is clean. *)
Lemma parseQuery_query_clean (x : jsstring) :
  noMention (query (parseQuery x)) = true
  /\ collapsed (query (parseQuery x)) = true
  /\ headIn isSpace (query (parseQuery x)) = false
  /\ headIn isSpace (reverse (query (parseQuery x))) = false.
Proof.
  unfold parseQuery; simpl.
  set (spaced := replaceAll spacesRegex (lit " ") (replaceAll mentionRegex [] x)).
  destruct (trim_infix spaced) as (a & b & Hab).
  assert (H1 : noMention spaced = true).
  { apply spaces_noMention, strip_noMention. done. }
  assert (H2 : collapsed spaced = true) by by apply spaces_collapsed.
  rewrite Hab in H1, H2.
  split_and!; [| |apply trim_start|apply trim_end].
  - by apply noMention_app_r, noMention_app_l in H1.
  - by apply collapsed_app_r, collapsed_app_l in H2.
Qed.

Lemma sort_nil : sort [] = [].
Proof. done. Qed.

(** A clean prompt without repositories is a fixed point. *)
Lemma parseQuery_clean q :
  noMention q = true -> collapsed q = true ->
  headIn isSpace q = false -> headIn isSpace (reverse q) = false ->
  parseQuery q = {| repos := []; query := q |}.
Proof.
  intros H1 H2 H3 H4. unfold parseQuery.
  rewrite (execLoop_noMention _ _ H1). unfold replaceAll.
  rewrite (strip_noMention_id _ _ H1), (spaces_collapsed_id _ _ H2).
  by rewrite (trim_id _ H3 H4).
Qed.

(** X1.  Parsing is idempotent on the prompt: the cleaned query of any input,
    parsed again, has no repository and is its own cleaned query. *)
Theorem parseQuery_query_idempotent (x : jsstring) :
  parseQuery (query (parseQuery x))
  = {| repos := []; query := query (parseQuery x) |}.
Proof.
  destruct (parseQuery_query_clean x) as (H1 & H2 & H3 & H4).
  by apply parseQuery_clean.
Qed.

Lemma render_cons r rs q : render (r :: rs) q = atSign :: r ++ 32 :: render rs q.
Proof. unfold render. simpl. by rewrite <- !app_assoc. Qed.

Lemma mentionAt_name r s :
  mentionName r -> mentionAt (atSign :: r ++ 32 :: s) = Some (r, 32 :: s).
Proof.
  intros (Hne & Hr & _). simpl.
  destruct (takeClass_app isMentionChar r (32 :: s) Hr eq_refl) as [-> ->].
  by destruct r.
Qed.

Lemma execLoop_render rs q :
  Forall mentionName rs -> noMention q = true ->
  execLoop (length (render rs q)) (render rs q) = rs.
Proof.
  intros Hrs Hq. induction Hrs as [|r rs Hr _ IH].
  - by apply execLoop_noMention.
  - rewrite render_cons.
    rewrite execAll_cons, (mentionAt_name _ _ Hr), execAll_cons. simpl mentionAt.
    rewrite IH. f_equal. apply lowercase_toLowerCase, Hr.
Qed.

Lemma strip_render rs q :
  Forall mentionName rs -> noMention q = true ->
  replaceAll mentionRegex [] (render rs q) = replicate (length rs) 32 ++ q.
Proof.
  intros Hrs Hq. induction Hrs as [|r rs Hr _ IH].
  - by apply strip_noMention_id.
  - rewrite render_cons.
    rewrite (replaceAll_cons _ _ _ _ mentionRegex_shrinking).
    unfold mentionRegex at 1. rewrite (mentionAt_name _ _ Hr). simpl.
    rewrite (replaceAll_cons _ _ _ _ mentionRegex_shrinking).
    unfold mentionRegex at 1. simpl. by rewrite IH.
Qed.

Lemma spaces_leading (n : nat) q :
  collapsed q = true -> headIn isSpace q = false ->
  replaceAll spacesRegex (lit " ") (replicate n 32 ++ q)
  = (if n is O then [] else [32]) ++ q.
Proof.
  intros H1 H2. destruct n as [|n]; simpl.
  - by apply spaces_collapsed_id.
  - rewrite (replaceAll_cons _ _ _ _ spacesRegex_shrinking).
    change (spacesRegex (32 :: replicate n 32 ++ q))
      with (Some (dropClass isSpace (replicate n 32 ++ q))).
    cbv iota beta. rewrite lit_space at 1.
    assert (Hn : Forall (fun c => isSpace c = true) (replicate n 32)).
    { apply Forall_forall. by intros c [-> _]%elem_of_replicate. }
    destruct (takeClass_app isSpace (replicate n 32) q Hn H2) as [_ Hd].
    cut (forall d, d = q -> [32] ++ replaceAll spacesRegex (lit " ") d = 32 :: q).
    { intros Hcut. apply Hcut, Hd. }
    intros d ->. unfold replaceAll. by rewrite (spaces_collapsed_id _ _ H1).
Qed.

Lemma trim_leading (n : nat) q :
  headIn isSpace q = false -> headIn isSpace (reverse q) = false ->
  trim ((if n is O then [] else [32]) ++ q) = q.
Proof.
  intros H1 H2. destruct n; simpl; [by apply trim_id|].
  unfold trim. simpl.
  by rewrite (dropClass_id _ _ H1), (dropClass_id _ _ H2), reverse_involutive.
Qed.

Lemma StronglySorted_lt_NoDup rs : StronglySorted lt rs -> NoDup rs.
Proof.
  induction 1 as [|r rs _ IH Hr]; constructor; [|done].
  intros Hin. rewrite Forall_forall in Hr. by apply (lt_irrefl r), Hr.
Qed.

Lemma StronglySorted_lt_le rs : StronglySorted lt rs -> Sorted le rs.
Proof.
  intros H. apply StronglySorted_Sorted.
  induction H as [|r rs _ IH Hr]; constructor; [done|].
  eapply Forall_impl; [exact Hr|]. intros y Hy. unfold le, lt in *. by rewrite Hy.
Qed.

Lemma setAddAll_NoDup_id (seen l : list jsstring) :
  NoDup (seen ++ l) -> setAddAll seen l = seen ++ l.
Proof.
  revert seen; induction l as [|x l IH]; intros seen Hnd; simpl.
  - by rewrite app_nil_r.
  - rewrite decide_False.
    + rewrite IH; rewrite <- app_assoc; done.
    + apply NoDup_app in Hnd as (_ & Hd & _). intros Hx. apply (Hd x Hx). left.
Qed.

Lemma sort_sorted_id (l : list jsstring) : Sorted le l -> sort l = l.
Proof.
  intros H. apply (Sorted_unique le); [apply sort_Sorted|done|apply sort_Permutation].
Qed.

(** Names in strictly increasing order are left as they are. *)
Lemma sort_newSet_id rs : StronglySorted lt rs -> sort (newSet rs) = rs.
Proof.
  intros H. unfold newSet.
  rewrite setAddAll_NoDup_id by (by apply StronglySorted_lt_NoDup).
  by apply sort_sorted_id, StronglySorted_lt_le.
Qed.

Lemma parseQuery_render_clean rs q :
  StronglySorted lt rs -> Forall mentionName rs ->
  noMention q = true -> collapsed q = true ->
  headIn isSpace q = false -> headIn isSpace (reverse q) = false ->
  parseQuery (render rs q) = {| repos := rs; query := q |}.
Proof.
  intros Hs Hrs Hm Hc Hh Ht. unfold parseQuery.
  rewrite (execLoop_render _ _ Hrs Hm), (sort_newSet_id _ Hs).
  rewrite (strip_render _ _ Hrs Hm), (spaces_leading _ _ Hc Hh).
  by rewrite (trim_leading _ _ Hh Ht).
Qed.

(** X2.  Round trip: a parsed query rendered back -- every repository
    prefixed with [@], the prompt appended -- parses to itself, for
    repositories in canonical form (strictly increasing lower-case mention
    names) and a clean prompt (no mention, white space collapsed, trimmed). *)
Theorem parseQuery_render rs q :
  StronglySorted lt rs ->
  Forall mentionName rs ->
  cleanPrompt q ->
  parseQuery (render rs q) = {| repos := rs; query := q |}.
Proof.
  intros Hs Hrs (Hm%noMention_complete & Hc & Hh & Ht).
  by apply parseQuery_render_clean.
Qed.

Lemma parseQuery_render_witness :
  parseQuery (lit "@daytona @svelte how do stores work?")
  = {| repos := [lit "daytona"; lit "svelte"];
       query := lit "how do stores work?" |}.
Proof.
  apply (parseQuery_render [lit "daytona"; lit "svelte"]
           (lit "how do stores work?")).
  - repeat constructor.
  - repeat constructor; try discriminate.
  - split_and!; try reflexivity. apply noMention_sound. reflexivity.
Defined.

End QueryMore.

(** ** [mergeRepos] *)

Section MergeFacts.

Implicit Types (r : jsstring) (rs : list jsstring) (ls : list (list jsstring)).

(** Two strictly increasing lists with the same members are equal. *)
Lemma StronglySorted_lt_ext rs rs' :
  StronglySorted lt rs -> StronglySorted lt rs' ->
  (forall r, r ∈ rs <-> r ∈ rs') -> rs = rs'.
Proof.
  intros H1 H2 Hm. apply (Sorted_unique le); try by apply StronglySorted_lt_le.
  apply NoDup_Permutation; try by apply StronglySorted_lt_NoDup. done.
Qed.

Lemma mergeRepos_sorted ls : StronglySorted lt (mergeRepos ls).
Proof. apply sort_NoDup_lt, newSet_NoDup. Qed.

Lemma mergeRepos_elem_of ls r :
  r ∈ mergeRepos ls <-> r ∈ List.map toLowerCase (concat ls).
Proof. unfold mergeRepos. by rewrite sort_Permutation, newSet_elem_of. Qed.

Lemma mergeRepos_lowercase ls : Forall lowercase (mergeRepos ls).
Proof.
  apply Forall_forall. intros r Hr%mergeRepos_elem_of.
  apply list_elem_of_In, in_map_iff in Hr as (x & <- & _).
  apply toLowerCase_lowercase.
Qed.

Lemma parseQuery_repos_sorted (x : jsstring) :
  StronglySorted lt (repos (parseQuery x)) /\ Forall lowercase (repos (parseQuery x)).
Proof.
  unfold parseQuery; simpl. split; [apply sort_NoDup_lt, newSet_NoDup|].
  apply Forall_forall. intros r Hr.
  rewrite sort_Permutation, newSet_elem_of in Hr.
  pose proof (execLoop_lowercase (length x) x) as H.
  rewrite Forall_forall in H. by apply H.
Qed.

Lemma map_toLowerCase_id rs : Forall lowercase rs -> List.map toLowerCase rs = rs.
Proof.
  induction 1 as [|r rs Hr _ IH]; simpl; [done|].
  by rewrite IH, lowercase_toLowerCase.
Qed.

(** X3.  For names of the Basic Latin block, [mergeRepos] returns the
    lower-cased names of all its lists, each once, in strictly increasing
    order. *)
Theorem mergeRepos_canonical ls :
  Forall (Forall basicLatin) ls ->
  StronglySorted lt (mergeRepos ls)
  /\ Forall lowercase (mergeRepos ls)
  /\ (forall r, r ∈ mergeRepos ls <->
                exists l x, l ∈ ls /\ x ∈ l /\ r = toLowerCase x).
Proof.
  intros _. split_and!; [apply mergeRepos_sorted|apply mergeRepos_lowercase|].
  intros r. rewrite mergeRepos_elem_of. split.
  - intros (x & <- & Hx)%list_elem_of_In%in_map_iff.
    apply in_concat in Hx as (l & Hl & Hx).
    exists l, x. by rewrite !list_elem_of_In.
  - intros (l & x & Hl & Hx & ->). apply list_elem_of_In, in_map.
    apply in_concat. exists l. by rewrite <- !list_elem_of_In.
Qed.

Lemma mergeRepos_canonical_witness :
  mergeRepos [[lit "Svelte"; lit "daytona"]; [lit "svelte"; lit "effect"]]
    = [lit "daytona"; lit "effect"; lit "svelte"]
  /\ StronglySorted lt
       (mergeRepos [[lit "Svelte"; lit "daytona"]; [lit "svelte"; lit "effect"]]).
Proof.
  destruct (mergeRepos_canonical
              [[lit "Svelte"; lit "daytona"]; [lit "svelte"; lit "effect"]])
    as (H & _).
  - repeat constructor.
  - split; [by vm_compute|exact H].
Defined.

(** X4.  For names of the Basic Latin block, the result of [mergeRepos]
    depends on the set of lower-cased names only: neither the order of the
    names, nor their distribution over the lists, their case or their
    repetition matters; merging a merged list changes nothing. *)
Theorem mergeRepos_same_names ls ls' :
  Forall (Forall basicLatin) ls -> Forall (Forall basicLatin) ls' ->
  (forall r, r ∈ List.map toLowerCase (concat ls)
             <-> r ∈ List.map toLowerCase (concat ls')) ->
  mergeRepos ls = mergeRepos ls'
  /\ mergeRepos [mergeRepos ls] = mergeRepos ls.
Proof.
  intros _ _ Hm. split.
  - apply StronglySorted_lt_ext; try apply mergeRepos_sorted.
    intros r. by rewrite !mergeRepos_elem_of.
  - unfold mergeRepos at 1. simpl concat. rewrite app_nil_r.
    rewrite map_toLowerCase_id by apply mergeRepos_lowercase.
    apply sort_newSet_id, mergeRepos_sorted.
Qed.

Lemma mergeRepos_same_names_witness :
  mergeRepos [[lit "svelte"]; [lit "Daytona"; lit "SVELTE"]]
  = mergeRepos [[lit "daytona"; lit "svelte"]].
Proof.
  apply (mergeRepos_same_names [[lit "svelte"]; [lit "Daytona"; lit "SVELTE"]]
           [[lit "daytona"; lit "svelte"]]).
  - repeat constructor.
  - repeat constructor.
  - intros r.
    change (List.map toLowerCase
              (concat [[lit "svelte"]; [lit "Daytona"; lit "SVELTE"]]))
      with [lit "svelte"; lit "daytona"; lit "svelte"].
    change (List.map toLowerCase (concat [[lit "daytona"; lit "svelte"]]))
      with [lit "daytona"; lit "svelte"].
    rewrite !elem_of_cons, !elem_of_nil. tauto.
Defined.

(** X5.  In [ask], the repositories are [mergeRepos(tech, parsed.repos)]:
    without a [-t] flag they are exactly the repositories that [parseQuery]
    found in the question, and with flags every repository of the question is
    among them. *)
Theorem mergeRepos_of_parsed (tech : list jsstring) (question : jsstring) :
  mergeRepos [[]; repos (parseQuery question)] = repos (parseQuery question)
  /\ Forall (fun r => r ∈ mergeRepos [tech; repos (parseQuery question)])
       (repos (parseQuery question)).
Proof.
  destruct (parseQuery_repos_sorted question) as [Hs Hl].
  revert Hs Hl. generalize (repos (parseQuery question)). intros rs Hs Hl. split.
  - unfold mergeRepos. cbn [concat app]. rewrite app_nil_r.
    rewrite (map_toLowerCase_id _ Hl). by apply sort_newSet_id.
  - apply Forall_forall. intros r Hr. apply mergeRepos_elem_of.
    cbn [concat]. rewrite app_nil_r, List.map_app, elem_of_app. right.
    by rewrite (map_toLowerCase_id _ Hl).
Qed.

(** X6.  The workspace key of what [mergeRepos] or [parseQuery] returns joins
    the names in the order returned and has no upper-case letter. *)
Theorem getWorkspaceKey_of_merged ls (question : jsstring) :
  Forall (Forall basicLatin) ls ->
  (mergeRepos ls <> [] ->
   getWorkspaceKey (mergeRepos ls) = Ok (join (lit "+") (mergeRepos ls))
   /\ lowercase (join (lit "+") (mergeRepos ls)))
  /\ (repos (parseQuery question) <> [] ->
      getWorkspaceKey (repos (parseQuery question))
        = Ok (join (lit "+") (repos (parseQuery question)))
      /\ lowercase (join (lit "+") (repos (parseQuery question)))).
Proof.
  intros _.
  assert (H : forall rs, StronglySorted lt rs -> Forall lowercase rs -> rs <> [] ->
            getWorkspaceKey rs = Ok (join (lit "+") rs)
            /\ lowercase (join (lit "+") rs)).
  { intros rs Hs Hl Hne. split.
    - rewrite getWorkspaceKey_nonempty by done. unfold keyOf.
      by rewrite sort_sorted_id by by apply StronglySorted_lt_le.
    - apply join_lowercase; [|done]. unfold lowercase. by repeat constructor. }
  split; intros Hne.
  - apply H; [apply mergeRepos_sorted|apply mergeRepos_lowercase|done].
  - by apply H; try apply parseQuery_repos_sorted.
Qed.

Lemma getWorkspaceKey_of_merged_witness :
  getWorkspaceKey (mergeRepos [[lit "Svelte"]; [lit "daytona"]])
    = Ok (lit "daytona+svelte")
  /\ getWorkspaceKey (repos (parseQuery (lit "@Svelte @daytona hi")))
     = Ok (lit "daytona+svelte").
Proof.
  destruct (getWorkspaceKey_of_merged [[lit "Svelte"]; [lit "daytona"]]
              (lit "@Svelte @daytona hi")) as [H1 H2].
  - repeat constructor.
  - destruct H1 as [H1 _]; [by vm_compute|].
    destruct H2 as [H2 _]; [by vm_compute|].
    split; [rewrite H1|rewrite H2]; by vm_compute.
Defined.

End MergeFacts.

(** ** The workspace key and its parts *)

Section KeyFacts.

Implicit Types (s r : jsstring) (names : list jsstring).

Lemma split_nonempty (sep : code_unit) s : split sep s <> [].
Proof.
  destruct s as [|c s]; simpl; [done|].
  destruct (c =? sep); [done|]. by destruct (split sep s).
Qed.

Lemma split_free (sep : code_unit) r : sep ∉ r -> split sep r = [r].
Proof.
  induction r as [|c r IH]; intros Hr; simpl; [done|].
  apply not_elem_of_cons in Hr as [Hc Hr].
  rewrite (proj2 (N.eqb_neq c sep)) by done. by rewrite IH.
Qed.

Lemma split_free_app (sep : code_unit) r s :
  sep ∉ r -> split sep (r ++ sep :: s) = r :: split sep s.
Proof.
  induction r as [|c r IH]; intros Hr; simpl.
  - by rewrite N.eqb_refl.
  - apply not_elem_of_cons in Hr as [Hc Hr].
    rewrite (proj2 (N.eqb_neq c sep)) by done. by rewrite IH.
Qed.

Lemma join_cons2 (sep : jsstring) r r' names :
  join sep (r :: r' :: names) = r ++ sep ++ join sep (r' :: names).
Proof. done. Qed.

Lemma split_join names :
  names <> [] -> Forall plusFree names ->
  split 43 (join (lit "+") names) = names.
Proof.
  intros Hne Hfree. induction Hfree as [|r names Hr Hnames IH]; [done|].
  destruct names as [|r' names].
  - simpl. by apply split_free.
  - rewrite join_cons2. change (lit "+" ++ ?x) with (43 :: x).
    rewrite split_free_app by done. by rewrite IH.
Qed.

Lemma join_split s : join (lit "+") (split 43 s) = s.
Proof.
  induction s as [|c s IH]; simpl split; [done|].
  destruct (c =? 43) eqn:Ec.
  - apply N.eqb_eq in Ec as ->.
    destruct (split 43 s) as [|piece pieces] eqn:Es; [by apply split_nonempty in Es|].
    rewrite join_cons2, IH. done.
  - destruct (split 43 s) as [|piece pieces] eqn:Es; [by apply split_nonempty in Es|].
    destruct pieces as [|piece' pieces].
    + simpl in *. by rewrite IH.
    + rewrite join_cons2 in *. by rewrite <- IH, <- app_comm_cons.
Qed.

(** X7.  The key of a workspace and its parts: [clearWorkspace] recovers the
    names with [key.split('+')].  For names without [+], splitting the key of
    [getWorkspaceKey] gives back the sorted names; and joining the parts of
    any key with [+] gives back the key. *)
Theorem workspace_key_split names key :
  Forall plusFree names ->
  getWorkspaceKey names = Ok key ->
  split 43 key = sort names
  /\ join (lit "+") (split 43 key) = key.
Proof.
  intros Hfree Hkey. split; [|apply join_split].
  destruct names as [|n ns]; [done|]. injection Hkey as <-.
  apply split_join.
  - intros Hnil. pose proof (sort_Permutation (n :: ns)) as Hp.
    rewrite Hnil in Hp. by apply Permutation_nil_l in Hp.
  - by rewrite sort_Permutation.
Qed.

Lemma workspace_key_split_witness :
  split 43 (lit "daytona+svelte") = [lit "daytona"; lit "svelte"].
Proof.
  destruct (workspace_key_split [lit "svelte"; lit "daytona"]
              (lit "daytona+svelte")) as [H _].
  - repeat constructor; unfold plusFree; by apply (bool_decide_unpack _); vm_compute.
  - by vm_compute.
  - rewrite H. by vm_compute.
Defined.

(** X8.  The key tells the repository sets apart: two lists of names without
    [+] get the same key only when they are permutations of each other. *)
Theorem workspace_key_injective names names' :
  Forall plusFree names -> Forall plusFree names' ->
  names <> [] ->
  getWorkspaceKey names = getWorkspaceKey names' ->
  names ≡ₚ names'.
Proof.
  intros Hf Hf' Hne Hkey.
  destruct (getWorkspaceKey names) as [key|] eqn:E; [|by destruct names].
  symmetry in Hkey.
  assert (H1 : split 43 key = sort names).
  { destruct names as [|n ns]; [done|]. injection E as <-. apply split_join.
    - intros Hnil. pose proof (sort_Permutation (n :: ns)) as Hp.
      rewrite Hnil in Hp. by apply Permutation_nil_l in Hp.
    - by rewrite sort_Permutation. }
  assert (H2 : split 43 key = sort names').
  { destruct names' as [|n ns]; [done|]. injection Hkey as <-. apply split_join.
    - intros Hnil. pose proof (sort_Permutation (n :: ns)) as Hp.
      rewrite Hnil in Hp. by apply Permutation_nil_l in Hp.
    - by rewrite sort_Permutation. }
  rewrite <- (sort_Permutation names), <- (sort_Permutation names').
  by rewrite <- H1, <- H2.
Qed.

Lemma workspace_key_injective_witness :
  [lit "svelte"; lit "daytona"] ≡ₚ [lit "daytona"; lit "svelte"].
Proof.
  apply workspace_key_injective.
  - repeat constructor; unfold plusFree; by apply (bool_decide_unpack _); vm_compute.
  - repeat constructor; unfold plusFree; by apply (bool_decide_unpack _); vm_compute.
  - discriminate.
  - by vm_compute.
Defined.

End KeyFacts.

(** ** More on [ensureWorkspace] *)

Section WorkspaceMore.
Import Sys Workspace.
Local Open Scope eff_scope.

Implicit Types (cfg : Config) (out : Outside) (w : World).


Lemma getRepo_unknown cfg (n : jsstring) w :
  (forall repo, repo ∈ configRepos cfg -> name repo <> n) ->
  getRepo cfg n w = (Err (ConfigError (lit "Repo not found: " ++ n)), w).
Proof.
  intros Hn. unfold getRepo.
  destruct (List.find _ (configRepos cfg)) as [r|] eqn:E; [|done].
  apply find_some in E as [Hin Hr]. apply bool_decide_eq_true in Hr.
  by apply list_elem_of_In, Hn in Hin.
Qed.

Lemma getRepo_state cfg (n : jsstring) w r w1 : getRepo cfg n w = (r, w1) -> w1 = w.
Proof.
  unfold getRepo, ret, fail. destruct (List.find _ _); by intros [= _ <-].
Qed.


(** One unknown name makes the lookup fail. *)
Lemma collect_getRepo_unknown cfg (l : list jsstring) (n : jsstring) w :
  n ∈ l ->
  (forall repo, repo ∈ configRepos cfg -> name repo <> n) ->
  exists e, collect (getRepo cfg) l w = (Err e, w).
Proof.
  intros Hin Hn. induction l as [|m l IH]; [by apply elem_of_nil in Hin|].
  simpl. unfold bind at 1. apply elem_of_cons in Hin as [<-|Hin].
  - rewrite getRepo_unknown by done. by eexists.
  - destruct (getRepo cfg m w) as [[repo|e] w1] eqn:E1.
    + apply getRepo_state in E1 as ->.
      unfold bind at 1. destruct (IH Hin) as [e ->]. by eexists.
    + apply getRepo_state in E1 as ->. by eexists.
Qed.

(** X9.  [ensureWorkspace] checks its input before it does anything: with no
    name, or with a name that the configuration does not know, it fails and
    the world is as before -- no clone refreshed, no directory made, no
    worktree created. *)
Theorem ensureWorkspace_rejects_unknown cfg out (repoNames : list jsstring) w :
  repoNames = []
  \/ (exists n, n ∈ repoNames
                /\ forall repo, repo ∈ configRepos cfg -> name repo <> n) ->
  exists e, ensureWorkspace cfg out repoNames w = (Err e, w).
Proof.
  intros [->|(n & Hin & Hn)]; [by eexists|].
  assert (Hne : repoNames <> []) by (intros ->; by apply elem_of_nil in Hin).
  unfold ensureWorkspace. destruct repoNames as [|m ms]; [done|].
  rewrite (getWorkspaceKey_sorted (m :: ms)) by done.
  unfold bind at 1.
  destruct (collect_getRepo_unknown cfg (sort (m :: ms)) n w) as [e ->];
    [by rewrite sort_Permutation|done|]. by eexists.
Qed.

Lemma ensureWorkspace_rejects_unknown_witness :
  exists e, ensureWorkspace cfg0 out1 [lit "a"; lit "zig"] w0 = (Err e, w0).
Proof.
  apply ensureWorkspace_rejects_unknown. right. exists (lit "zig"). split.
  - right. left.
  - intros repo Hin Hn. apply list_elem_of_In in Hin. simpl in Hin.
    destruct Hin as [<-|[<-|[]]]; discriminate.
Defined.




End WorkspaceMore.

(** ** More on the start of a session *)

Section SessionMore.
Import Sys Workspace Agent Validation Oc.
Local Open Scope eff_scope.

Implicit Types (cfg : Config) (out : Outside) (agent : Agent.Agent) (w : World).

(** The instance of a successful probe: the client talks to the server that
    was started, on a port of the window. *)
Lemma portLoop_instance agent (info : WorkspaceInfo) (fuel : nat) :
  forall (off : N) w inst,
    (portLoop agent info fuel off w).1 = Ok inst ->
    baseUrlPort (client inst) = server inst
    /\ directory (client inst) = workspacePath info
    /\ 3420 + off <= server inst < 3420 + maxInstances
    /\ createOpencode agent (server inst) = Started.
Proof.
  induction fuel as [|fuel IH]; intros off w inst.
  - simpl. destruct (off <? maxInstances); done.
  - rewrite portLoop_S. destruct (off <? maxInstances) eqn:Hoff; [|done].
    apply N.ltb_lt in Hoff.
    destruct (createOpencode agent (3420 + off)) as [|cause] eqn:Hboot.
    + simpl. intros [= <-]. simpl. split_and!; try done; lia.
    + destruct (isPortError cause); [|done]. intros H%IH.
      destruct H as (H1 & H2 & H3 & H4). split_and!; try done; lia.
Qed.

Lemma streamSessionEvents_state agent (sessionId : jsstring) w :
  (streamSessionEvents agent sessionId w).2 = w.
Proof. unfold streamSessionEvents. by destruct (subscribeFails agent). Qed.

(** Building the prompt stream changes nothing in the world; the stream
    carries the clean-up it was given. *)
Lemma streamPrompt_run agent (sessionId : jsstring) cleanup w :
  (streamPrompt agent sessionId cleanup w).2 = w
  /\ (forall st, (streamPrompt agent sessionId cleanup w).1 = Ok st ->
        Stream.finalizer st = cleanup /\ subscribeFails agent = false)
  /\ (forall e, (streamPrompt agent sessionId cleanup w).1 = Err e ->
        e = OcError (lit "Failed to subscribe to events")
        /\ subscribeFails agent = true).
Proof.
  unfold streamPrompt, bind, streamSessionEvents. rewrite firePrompt_pending.
  destruct (subscribeFails agent); unfold fail, ret; simpl.
  - split_and!; try done. by intros e [= <-].
  - split_and!; try done. intros st [= <-].
    split; [|done]. unfold Stream.mapEffect,
      Stream.takeUntil, Stream.filter, Stream.fromAsyncIterable; simpl.
    destruct (Stream.upTo _ _) as [r hit]. simpl.
    destruct (Stream.mapWhileOk _ r) as [r' failure].
    by destruct cleanup.
Qed.

(** [askQuestion], step by step. *)
Lemma askQuestion_run cfg out agent (repos : list jsstring) w :
  Oc.askQuestion cfg out agent repos w =
    match ensureWorkspace cfg out repos w with
    | (Err e, w1) => (Err e, w1)
    | (Ok info, w1) =>
        match getOpencodeInstanceForWorkspace agent info w1 with
        | (Err e, w2) => (Err e, w2)
        | (Ok inst, w2) =>
            match validateProviderAndModel agent (provider cfg) (model cfg) w2 with
            | (Err e, w3) => (Err e, w3)
            | (Ok _, w3) =>
                match sessionCreateRejects agent with
                | Some message =>
                    (Err (Thrown message),
                     mkWorld (dirs w3) (worktreeAdds w3) (bootAttempts w3)
                       (servers w3) (closes w3) (S (sessionCreates w3)))
                | None =>
                    match sessionCreate agent with
                    | Err _ =>
                        (Err (OcError (lit "FAILED TO START OPENCODE SESSION")),
                         mkWorld (dirs w3) (worktreeAdds w3) (bootAttempts w3)
                           (servers w3) (closes w3 ++ [server inst])
                           (S (sessionCreates w3)))
                    | Ok sessionId =>
                        streamPrompt agent sessionId (Some (server inst))
                          (mkWorld (dirs w3) (worktreeAdds w3) (bootAttempts w3)
                             (servers w3) (closes w3) (S (sessionCreates w3)))
                    end
                end
            end
        end
    end.
Proof.
  unfold Oc.askQuestion, getWorkspaceOpenCodeConfig. unfold bind at 1.
  destruct (ensureWorkspace cfg out repos w) as [[info|e] w1]; [|done].
  unfold bind at 1, ret at 1. unfold bind at 1.
  destruct (getOpencodeInstanceForWorkspace agent info w1) as [[inst|e] w2];
    [|done].
  unfold bind at 1.
  destruct (validateProviderAndModel _ _ _ w2) as [[[]|e] w3]; [|done].
  unfold bind at 1. rewrite sessionCreatePromise_run.
  destruct (sessionCreateRejects agent); [done|].
  destruct (sessionCreate agent); done.
Qed.

(** What the start-up has done by the time it calls [session.create]. *)
Lemma startup_prefix cfg out agent (repos : list jsstring) w info w1 inst w2 w3 :
  ensureWorkspace cfg out repos w = (Ok info, w1) ->
  getOpencodeInstanceForWorkspace agent info w1 = (Ok inst, w2) ->
  (validateProviderAndModel agent (provider cfg) (model cfg) w2).2 = w3 ->
  servers w3 = servers w ++ [server inst]
  /\ closes w3 = closes w
  /\ sessionCreates w3 = sessionCreates w
  /\ baseUrlPort (client inst) = server inst
  /\ directory (client inst) = workspacePath info
  /\ 3420 <= server inst < 3450
  /\ createOpencode agent (server inst) = Started.
Proof.
  intros Hws Hinst Hval. rewrite validate_state in Hval. subst w3.
  pose proof (ensureWorkspace_frame cfg out repos w) as Hframe.
  rewrite Hws in Hframe; simpl in Hframe; injection Hframe as Ha Hs Hc Hn.
  unfold getOpencodeInstanceForWorkspace in Hinst.
  pose proof (portLoop_frame agent info (N.to_nat maxInstances) 0 w1)
    as (H1 & H2 & H3 & _).
  pose proof (portLoop_instance agent info (N.to_nat maxInstances) 0 w1 inst)
    as Hport.
  rewrite Hinst in H1, H2, H3, Hport; simpl in H1, H2, H3, Hport.
  destruct (Hport eq_refl) as (P1 & P2 & P3 & P4). unfold maxInstances in P3.
  rewrite (H3 inst eq_refl).
  split_and!; try done; try congruence; lia.
Qed.

(** X11.  A session that [createSession] returns: its server was started in
    this call on a port from 3420 to 3449 and is running, not closed; its
    client talks to that server, in the directory of the workspace;
    [session.create] was called once and gave the session its id; the
    repositories are the sorted names. *)
Theorem createSession_success cfg out agent (repos : list jsstring) w st w' :
  createSession cfg out agent repos w = (Ok st, w') ->
  servers w' = servers w ++ [stServer st]
  /\ closes w' = closes w
  /\ sessionCreates w' = S (sessionCreates w)
  /\ 3420 <= stServer st < 3450
  /\ createOpencode agent (stServer st) = Started
  /\ baseUrlPort (stClient st) = stServer st
  /\ directory (stClient st) = stWorkspacePath st
  /\ sessionCreate agent = Ok (stSessionID st)
  /\ stRepos st = sort repos
  /\ exists info w1, ensureWorkspace cfg out repos w = (Ok info, w1)
                     /\ stWorkspacePath st = workspacePath info.
Proof.
  rewrite createSession_run.
  destruct (ensureWorkspace cfg out repos w) as [[info|e] w1] eqn:Hws; [|done].
  destruct (getOpencodeInstanceForWorkspace agent info w1) as [[inst|e] w2]
    eqn:Hinst; [|done].
  destruct (validateProviderAndModel _ _ _ w2) as [[[]|e] w3] eqn:Hval; [|done].
  destruct (startup_prefix cfg out agent repos w info w1 inst w2 w3 Hws Hinst)
    as (H1 & H2 & H3 & H4 & H5 & H6 & H7); [by rewrite Hval|].
  destruct (sessionCreateRejects agent); [done|].
  destruct (sessionCreate agent) as [sessionId|cause]; [|done].
  intros [= <- <-]. simpl. split_and!; try done; try congruence; try lia.
  by eexists _, _.
Qed.

Lemma createSession_success_witness :
  servers (createSession cfg0 out1 agent2 [lit "b"; lit "a"] w0).2 = [3422]
  /\ closes (createSession cfg0 out1 agent2 [lit "b"; lit "a"] w0).2 = [].
Proof.
  destruct (createSession_success cfg0 out1 agent2 [lit "b"; lit "a"] w0
    {| stClient := {| baseUrlPort := 3422; directory := lit "/w/a+b" |};
       stServer := 3422;
       stSessionID := lit "ses_1";
       stWorkspacePath := lit "/w/a+b";
       stRepos := [lit "a"; lit "b"] |}
    (createSession cfg0 out1 agent2 [lit "b"; lit "a"] w0).2) as (H1 & H2 & _).
  - apply run_eq. vm_compute. reflexivity.
  - split; [exact H1|exact H2].
Defined.

(** X12.  When a start fails after [session.create] was called, one server
    has been started in the call, and what becomes of it depends on how
    [session.create] ended.  When it answered with an error, [createSession]
    and [askQuestion] fail with the session-start error and have closed the
    server, once.  When its promise rejected, they die with the rejection --
    [Effect.promise] makes it a defect -- and the server is left running.
    When, in [askQuestion], the session was created but the subscription to
    the events fails, that error is surfaced and the server is left
    running. *)
Theorem start_failure_after_session_create cfg out agent (repos : list jsstring) w :
  (forall e w',
     createSession cfg out agent repos w = (Err e, w') ->
     sessionCreates w' <> sessionCreates w ->
     exists port,
       servers w' = servers w ++ [port]
       /\ sessionCreates w' = S (sessionCreates w)
       /\ ((sessionCreateRejects agent = None
            /\ (exists cause, sessionCreate agent = Err cause)
            /\ e = OcError (lit "FAILED TO START OPENCODE SESSION")
            /\ closes w' = closes w ++ [port])
           \/ (exists message,
                 sessionCreateRejects agent = Some message
                 /\ e = Thrown message
                 /\ closes w' = closes w)))
  /\ (forall e w',
        Oc.askQuestion cfg out agent repos w = (Err e, w') ->
        sessionCreates w' <> sessionCreates w ->
        exists port,
          servers w' = servers w ++ [port]
          /\ sessionCreates w' = S (sessionCreates w)
          /\ ((sessionCreateRejects agent = None
               /\ (exists cause, sessionCreate agent = Err cause)
               /\ e = OcError (lit "FAILED TO START OPENCODE SESSION")
               /\ closes w' = closes w ++ [port])
              \/ (exists message,
                    sessionCreateRejects agent = Some message
                    /\ e = Thrown message
                    /\ closes w' = closes w)
              \/ (sessionCreateRejects agent = None
                  /\ (exists sessionId, sessionCreate agent = Ok sessionId)
                  /\ e = OcError (lit "Failed to subscribe to events")
                  /\ subscribeFails agent = true
                  /\ closes w' = closes w))).
Proof.
  pose proof (ensureWorkspace_frame cfg out repos w) as Hframe.
  split; intros e w'; [rewrite createSession_run|rewrite askQuestion_run];
    destruct (ensureWorkspace cfg out repos w) as [[info|e0] w1] eqn:Hws;
    simpl in Hframe; injection Hframe as Ha Hs Hc Hn;
    try (intros [= <- <-]; congruence);
    pose proof (portLoop_frame agent info (N.to_nat maxInstances) 0 w1)
      as (F1 & F2 & _);
    fold (getOpencodeInstanceForWorkspace agent info w1) in F1, F2;
    destruct (getOpencodeInstanceForWorkspace agent info w1) as [[inst|e0] w2]
      eqn:Hinst; simpl in F1, F2;
    try (intros [= <- <-]; congruence);
    destruct (validateProviderAndModel _ _ _ w2) as [[[]|e0] w3] eqn:Hval;
    (destruct (startup_prefix cfg out agent repos w info w1 inst w2 w3 Hws Hinst)
      as (H1 & H2 & H3 & _); [by rewrite Hval|]);
    try (intros [= <- <-]; congruence);
    (destruct (sessionCreateRejects agent) as [message|];
     [intros [= <- <-] _; exists (server inst); simpl;
      split_and!; [done|congruence|]|]).
  - right. exists message. by split_and!.
  - destruct (sessionCreate agent) as [sessionId|cause]; [done|].
    intros [= <- <-] _. exists (server inst). simpl.
    split_and!; [done|congruence|]. left.
    split_and!; first [done | by eexists | congruence].
  - right. left. exists message. by split_and!.
  - destruct (sessionCreate agent) as [sessionId|cause].
    + match goal with |- streamPrompt _ _ _ ?w4 = _ -> _ =>
        pose proof (streamPrompt_run agent sessionId (Some (server inst)) w4)
          as (S1 & _ & S3);
        destruct (streamPrompt agent sessionId (Some (server inst)) w4)
          as [r w5] end.
      simpl in S1, S3. intros [= -> <-] _. subst w5. simpl.
      destruct (S3 e eq_refl) as [-> Hsub].
      exists (server inst). split_and!; [done|congruence|]. right. right.
      split_and!; first [done | by eexists | congruence].
    + intros [= <- <-] _. exists (server inst). simpl.
      split_and!; [done|congruence|]. left.
      split_and!; first [done | by eexists | congruence].
Qed.

Lemma start_failure_after_session_create_witness :
  (exists port,
     servers (createSession cfg0 out1 agentNoSession [lit "a"] w0).2 = [port]
     /\ closes (createSession cfg0 out1 agentNoSession [lit "a"] w0).2 = [port])
  /\ (exists port,
       servers (createSession cfg0 out1 agentRejectsSession [lit "a"] w0).2
         = [port]
       /\ closes (createSession cfg0 out1 agentRejectsSession [lit "a"] w0).2
          = []).
Proof.
  split.
  - destruct (start_failure_after_session_create cfg0 out1 agentNoSession
                [lit "a"] w0) as [H _].
    destruct (H (OcError (lit "FAILED TO START OPENCODE SESSION"))
                (createSession cfg0 out1 agentNoSession [lit "a"] w0).2)
      as (port & H1 & _ & [(_ & _ & _ & H2)|(message & Hm & _)]).
    + apply run_eq. vm_compute. reflexivity.
    + vm_compute. discriminate.
    + exists port. split; [exact H1|exact H2].
    + discriminate Hm.
  - destruct (start_failure_after_session_create cfg0 out1 agentRejectsSession
                [lit "a"] w0) as [H _].
    destruct (H (Thrown (lit "socket closed"))
                (createSession cfg0 out1 agentRejectsSession [lit "a"] w0).2)
      as (port & H1 & _ & [(Hm & _)|(message & _ & _ & H2)]).
    + apply run_eq. vm_compute. reflexivity.
    + vm_compute. discriminate.
    + discriminate Hm.
    + exists port. split; [exact H1|exact H2].
Defined.

Lemma runForEach_closes (st : Stream.t) w :
  closes (Services.runForEach st w).2
    = closes w ++ match Stream.finalizer st with Some srv => [srv] | None => [] end
  /\ servers (Services.runForEach st w).2 = servers w
  /\ (Services.runForEach st w).1
     = match Stream.exit st with
       | Stream.Done => Ok tt
       | Stream.Failed e => Err e
       end.
Proof.
  unfold Services.runForEach, bind, serverClose, modify, ret, fail.
  destruct (Stream.finalizer st), (Stream.exit st); simpl;
    rewrite ?app_nil_r; done.
Qed.

(** X13.  The single-shot question cleans up after itself: once [askQuestion]
    has returned its stream, the server it started is not closed yet, and
    running the stream to its end closes that server exactly once, whether
    the stream ends normally or fails.  A question in a session closes
    nothing. *)
Theorem single_shot_closes_server cfg out agent (repos : list jsstring)
    (session : SessionState) w st w1 :
  Oc.askQuestion cfg out agent repos w = (Ok st, w1) ->
  (exists port,
     Stream.finalizer st = Some port
     /\ 3420 <= port < 3450
     /\ servers w1 = servers w ++ [port]
     /\ closes w1 = closes w
     /\ closes (Services.runForEach st w1).2 = closes w ++ [port]
     /\ closes (Services.askQuestion cfg out agent repos w).2 = closes w ++ [port])
  /\ closes (Services.askInSession agent session w).2 = closes w.
Proof.
  intros Hask. split.
  - unfold Services.askQuestion, bind. rewrite Hask.
    rewrite askQuestion_run in Hask.
    destruct (ensureWorkspace cfg out repos w) as [[info|e0] w2] eqn:Hws; [|done].
    destruct (getOpencodeInstanceForWorkspace agent info w2) as [[inst|e0] w3]
      eqn:Hinst; [|done].
    destruct (validateProviderAndModel _ _ _ w3) as [[[]|e0] w4] eqn:Hval; [|done].
    destruct (startup_prefix cfg out agent repos w info w2 inst w3 w4 Hws Hinst)
      as (H1 & H2 & H3 & _ & _ & H6 & _); [by rewrite Hval|].
    destruct (sessionCreateRejects agent); [done|].
    destruct (sessionCreate agent) as [sessionId|cause]; [|done].
    match type of Hask with streamPrompt _ _ _ ?w5 = _ =>
      pose proof (streamPrompt_run agent sessionId (Some (server inst)) w5)
        as (S1 & S2 & _) end.
    rewrite Hask in S1, S2. simpl in S1, S2. subst w1.
    destruct (S2 st eq_refl) as [Hfin _].
    destruct (runForEach_closes st
      (mkWorld (dirs w4) (worktreeAdds w4) (bootAttempts w4) (servers w4)
         (closes w4) (S (sessionCreates w4)))) as (R1 & _).
    rewrite Hfin in R1. simpl in R1.
    exists (server inst). simpl. rewrite R1.
    split_and!; try done; try congruence; lia.
  - unfold Services.askInSession, Oc.askInSession, bind.
    pose proof (streamPrompt_run agent (stSessionID session) None w)
      as (S1 & S2 & _).
    destruct (streamPrompt agent (stSessionID session) None w) as [[st'|e] w2];
      simpl in S1, S2; subst w2; [|done].
    destruct (S2 st' eq_refl) as [Hfin _].
    destruct (runForEach_closes st' w) as (R1 & _).
    rewrite Hfin in R1. by rewrite app_nil_r in R1.
Qed.

Lemma single_shot_closes_server_witness :
  closes (Services.askQuestion cfg0 out1 agentTwoSessions [lit "a"] w0).2 = [3420].
Proof.
  destruct (single_shot_closes_server cfg0 out1 agentTwoSessions [lit "a"]
              (mkSessionState (mkClient 3420 []) 3420 [] [] []) w0
              streamOfQuestion
              (Oc.askQuestion cfg0 out1 agentTwoSessions [lit "a"] w0).2)
    as [(port & H1 & _ & _ & _ & _ & H2) _].
  - apply run_eq. vm_compute. reflexivity.
  - injection H1 as <-. exact H2.
Defined.

Lemma cloneOrUpdate_frame cfg out (n : jsstring) w :
  agentSide (cloneOrUpdateOneRepoLocally cfg out n w).2 = agentSide w.
Proof.
  unfold cloneOrUpdateOneRepoLocally. by destruct (syncFails out n).
Qed.

(** [askQuestionLegacy], step by step. *)
Lemma askQuestionLegacy_run cfg out agent (tech : jsstring) w :
  Oc.askQuestionLegacy cfg out agent tech w =
    match cloneOrUpdateOneRepoLocally cfg out tech w with
    | (Err e, w0) => (Err e, w0)
    | (Ok _, w0) =>
        match ensureWorkspace cfg out [tech] w0 with
        | (Err e, w1) => (Err e, w1)
        | (Ok info, w1) =>
            match getOpencodeInstanceForWorkspace agent info w1 with
            | (Err e, w2) => (Err e, w2)
            | (Ok inst, w2) =>
                match validateProviderAndModel agent (provider cfg) (model cfg) w2
                with
                | (Err e, w3) => (Err e, w3)
                | (Ok _, w3) =>
                    match sessionCreateRejects agent with
                    | Some message =>
                        (Err (Thrown message),
                         mkWorld (dirs w3) (worktreeAdds w3) (bootAttempts w3)
                           (servers w3) (closes w3) (S (sessionCreates w3)))
                    | None =>
                        match sessionCreate agent with
                        | Err _ =>
                            (Err (OcError
                                    (lit "FAILED TO START OPENCODE SESSION")),
                             mkWorld (dirs w3) (worktreeAdds w3)
                               (bootAttempts w3) (servers w3) (closes w3)
                               (S (sessionCreates w3)))
                        | Ok sessionId =>
                            streamPrompt agent sessionId (Some (server inst))
                              (mkWorld (dirs w3) (worktreeAdds w3)
                                 (bootAttempts w3) (servers w3) (closes w3)
                                 (S (sessionCreates w3)))
                        end
                    end
                end
            end
        end
    end.
Proof.
  unfold Oc.askQuestionLegacy, getOpencodeInstance, getWorkspaceOpenCodeConfig.
  unfold bind at 1.
  destruct (cloneOrUpdateOneRepoLocally cfg out tech w) as [[[]|e] w0]; [|done].
  unfold bind at 1. unfold bind at 1.
  destruct (ensureWorkspace cfg out [tech] w0) as [[info|e] w1]; [|done].
  unfold bind at 1, ret at 1.
  destruct (getOpencodeInstanceForWorkspace agent info w1) as [[inst|e] w2];
    [|done].
  unfold bind at 1.
  destruct (validateProviderAndModel _ _ _ w2) as [[[]|e] w3]; [|done].
  unfold bind at 1. rewrite sessionCreatePromise_run.
  destruct (sessionCreateRejects agent); [done|].
  destruct (sessionCreate agent); done.
Qed.

(** X14.  The legacy question never closes a server while it starts: when
    [session.create] returns an error, it fails like [askQuestion] does but
    the server it started is left running. *)
Theorem legacy_start_never_closes cfg out agent (tech : jsstring) w :
  closes (Oc.askQuestionLegacy cfg out agent tech w).2 = closes w
  /\ (forall e w',
        Oc.askQuestionLegacy cfg out agent tech w = (Err e, w') ->
        sessionCreates w' <> sessionCreates w ->
        exists port, servers w' = servers w ++ [port]).
Proof.
  rewrite askQuestionLegacy_run.
  pose proof (cloneOrUpdate_frame cfg out tech w) as F0.
  destruct (cloneOrUpdateOneRepoLocally cfg out tech w) as [[[]|e0] w0'];
    simpl in F0; injection F0 as A0 S0 C0 N0.
  2:{ simpl. split; [done|]. intros e w' [= <- <-]. congruence. }
  pose proof (ensureWorkspace_frame cfg out [tech] w0') as Hframe.
  destruct (ensureWorkspace cfg out [tech] w0') as [[info|e0] w1] eqn:Hws;
    simpl in Hframe; injection Hframe as Ha Hs Hc Hn.
  2:{ simpl. split; [congruence|]. intros e w' [= <- <-]. congruence. }
  pose proof (portLoop_frame agent info (N.to_nat maxInstances) 0 w1)
    as (F1 & F2 & F3 & _).
  fold (getOpencodeInstanceForWorkspace agent info w1) in F1, F2, F3.
  destruct (getOpencodeInstanceForWorkspace agent info w1) as [[inst|e0] w2]
    eqn:Hinst; simpl in F1, F2, F3.
  2:{ simpl. split; [congruence|]. intros e w' [= <- <-]. congruence. }
  specialize (F3 inst eq_refl).
  pose proof (validate_state agent (provider cfg) (model cfg) w2) as Hst.
  destruct (validateProviderAndModel _ _ _ w2) as [[[]|e0] w3];
    simpl in Hst; subst w3.
  2:{ simpl. split; [congruence|]. intros e w' [= <- <-]. congruence. }
  destruct (sessionCreateRejects agent) as [message|].
  { simpl. split; [congruence|].
    intros e w' [= <- <-] _. exists (server inst). simpl. congruence. }
  destruct (sessionCreate agent) as [sessionId|cause].
  - match goal with |- context [streamPrompt _ _ _ ?w4] =>
      pose proof (streamPrompt_run agent sessionId (Some (server inst)) w4)
        as (S1 & _ & _);
      destruct (streamPrompt agent sessionId (Some (server inst)) w4)
        as [r w5] end.
    simpl in S1. subst w5. simpl. split; [congruence|].
    intros e w' [= -> <-] _. exists (server inst). simpl. congruence.
  - simpl. split; [congruence|].
    intros e w' [= <- <-] _. exists (server inst). simpl. congruence.
Qed.

Lemma legacy_start_never_closes_witness :
  servers (Oc.askQuestionLegacy cfg0 out1 agentNoSession (lit "a") w0).2 = [3420]
  /\ closes (Oc.askQuestionLegacy cfg0 out1 agentNoSession (lit "a") w0).2 = [].
Proof.
  destruct (legacy_start_never_closes cfg0 out1 agentNoSession (lit "a") w0)
    as [H1 H2].
  split; [by vm_compute|exact H1].
Defined.

End SessionMore.

(** ** More on the events of a session *)

Section StreamMore.
Import Sys Agent Oc.

Implicit Types (agent : Agent.Agent) (w : World) (e : Event) (l : list Event).

Lemma lastOnly_prefix (p : Event -> bool) l l' :
  l' `prefix_of` l -> lastOnly p l -> lastOnly p l'.
Proof.
  intros [k ->] H pre e post -> He.
  specialize (H pre e (post ++ k)). rewrite <- app_assoc in H.
  specialize (H eq_refl He). by apply app_eq_nil in H as [-> _].
Qed.

Lemma upTo_shape (p : Event -> bool) l :
  (Stream.upTo p l).1 `prefix_of` l /\ lastOnly p (Stream.upTo p l).1.
Proof.
  induction l as [|x l [IH1 IH2]]; simpl.
  - split; [done|]. intros pre e post H. by destruct pre.
  - destruct (p x) eqn:Hx; simpl.
    + split; [by exists l|]. intros pre e post H _.
      destruct pre as [|y pre]; [by injection H|].
      injection H as _ H. by destruct pre.
    + destruct (Stream.upTo p l) as [r hit]; simpl in *.
      split; [by apply prefix_cons|]. intros pre e post H He.
      destruct pre as [|y pre].
      * injection H as <- _. congruence.
      * injection H as _ H. by apply (IH2 pre e post).
Qed.

Lemma mapWhileOk_shape l :
  (Stream.mapWhileOk failOnSessionError l).1 `prefix_of` l
  /\ Forall (fun e => type e <> lit "session.error")
       (Stream.mapWhileOk failOnSessionError l).1.
Proof.
  induction l as [|x l [IH1 IH2]]; simpl; [done|].
  unfold failOnSessionError at 1 3.
  destruct (bool_decide (type x = lit "session.error")) eqn:Hx; simpl.
  - split; [apply prefix_nil|done].
  - destruct (Stream.mapWhileOk failOnSessionError l) as [r failure]; simpl in *.
    apply bool_decide_eq_false in Hx.
    split; [by apply prefix_cons|by constructor].
Qed.

Lemma filter_sublist (p : Event -> bool) l : List.filter p l `sublist_of` l.
Proof.
  induction l as [|x l IH]; simpl; [done|].
  destruct (p x); [by apply sublist_skip|by apply sublist_cons].
Qed.

Lemma prefix_sublist_of l l' : l' `prefix_of` l -> l' `sublist_of` l.
Proof. intros [k ->]. by apply sublist_inserts_r. Qed.

(** The events of the prompt stream, as a prefix of what the session stream
    would emit. *)
Lemma streamPrompt_prefix agent (sessionId : jsstring) cleanup w st w' :
  streamPrompt agent sessionId cleanup w = (Ok st, w') ->
  w' = w
  /\ Stream.emitted st
       `prefix_of` (Stream.upTo (isIdleOf sessionId)
                      (List.filter (forSession sessionId) (eventStream agent))).1
  /\ Forall (fun e => type e <> lit "session.error") (Stream.emitted st).
Proof.
  unfold streamPrompt, bind, streamSessionEvents. rewrite firePrompt_pending.
  destruct (subscribeFails agent); [done|]. unfold ret. intros [= <- <-].
  split; [done|].
  unfold Stream.takeUntil, Stream.filter, Stream.fromAsyncIterable; simpl.
  destruct (Stream.upTo _ _) as [r hit]. simpl.
  assert (H : forall s : Stream.t,
    Stream.emitted match cleanup with
                   | Some server => Stream.ensuring server s
                   | None => s
                   end = Stream.emitted s) by (intros s; by destruct cleanup).
  rewrite H. clear H.
  unfold Stream.interruptWhen, Stream.mapEffect. simpl.
  pose proof (mapWhileOk_shape r) as [M1 M2].
  destruct (Stream.mapWhileOk failOnSessionError r) as [r' failure].
  simpl in M1, M2. done.
Qed.

(** X15.  The prompt stream hands the events of the agent over in their
    order, none twice; it never emits a [session.error]; and once it has
    emitted the [session.idle] of the session it emits nothing more.  Building
    the stream changes nothing in the world. *)
Theorem prompt_stream_order agent (sessionId : jsstring) cleanup w st w' :
  streamPrompt agent sessionId cleanup w = (Ok st, w') ->
  w' = w
  /\ Stream.emitted st `sublist_of` eventStream agent
  /\ Forall (fun e => type e <> lit "session.error") (Stream.emitted st)
  /\ (forall pre e post,
        Stream.emitted st = pre ++ e :: post ->
        isIdleOf sessionId e = true -> post = []).
Proof.
  intros (Hw & Hpre & Herr)%streamPrompt_prefix.
  destruct (upTo_shape (isIdleOf sessionId)
              (List.filter (forSession sessionId) (eventStream agent)))
    as [U1 U2].
  split_and!; [done| |done|].
  - etrans; [by apply prefix_sublist_of|].
    etrans; [by apply prefix_sublist_of|]. apply filter_sublist.
  - by apply (lastOnly_prefix _ _ _ Hpre).
Qed.

Lemma prompt_stream_order_witness :
  Stream.emitted streamOfFirst `sublist_of` eventStream agentTwoSessions.
Proof.
  destruct (prompt_stream_order agentTwoSessions (lit "ses_1") None w0
              streamOfFirst w0) as (_ & H & _).
  - vm_compute. reflexivity.
  - exact H.
Defined.




(** X17.  The events of other sessions have no effect on the stream of a
    session: with or without such an event in what the agent sends -- be it an
    error or the idle of the other session -- the prompt stream is the same. *)
Theorem foreign_event_ignored agent (sessionId other : jsstring) cleanup w
    (before after : list Event) (e : Event) :
  eventStream agent = before ++ e :: after ->
  Agent.sessionID e = Some other ->
  other <> sessionId ->
  streamPrompt agent sessionId cleanup w
  = streamPrompt (withEvents agent (before ++ after)) sessionId cleanup w.
Proof.
  intros Hev Hid Hne.
  assert (Hfor : forSession sessionId e = false).
  { unfold forSession. rewrite Hid. by apply bool_decide_eq_false. }
  unfold streamPrompt, bind, streamSessionEvents, withEvents; simpl.
  destruct (subscribeFails agent); [done|].
  unfold ret, Stream.takeUntil, Stream.filter, Stream.fromAsyncIterable; simpl.
  rewrite Hev, !List.filter_app. simpl. by rewrite Hfor.
Qed.


Lemma foreign_event_ignored_witness :
  streamPrompt agentTwoSessions (lit "ses_1") None w0
  = streamPrompt
      (withEvents agentTwoSessions
         [ evText (Some (lit "ses_1")); evText None;
           evIdle (lit "ses_2"); evIdle (lit "ses_1");
           evText (Some (lit "ses_1")) ])
      (lit "ses_1") None w0.
Proof.
  apply (foreign_event_ignored agentTwoSessions (lit "ses_1") (lit "ses_2") None
           w0 [ evText (Some (lit "ses_1")) ]
           [ evText None; evIdle (lit "ses_2"); evIdle (lit "ses_1");
             evText (Some (lit "ses_1")) ]
           (evText (Some (lit "ses_2")))).
  - reflexivity.
  - reflexivity.
  - discriminate.
Defined.

End StreamMore.

(** ** More on the validation of provider and model *)

Section ValidationMore.
Import Sys Agent Validation.

Implicit Types (agent : Agent.Agent) (w : World) (data : ProviderList).

Lemma find_by_id (providers : list Provider) (providerId : jsstring) (p : Provider) :
  NoDup (List.map id providers) ->
  p ∈ providers -> id p = providerId ->
  List.find (fun q => bool_decide (id q = providerId)) providers = Some p.
Proof.
  intros Hnd Hin Hid. induction providers as [|q providers IH]; simpl.
  - by apply elem_of_nil in Hin.
  - simpl in Hnd. apply NoDup_cons in Hnd as [Hq Hnd].
    apply elem_of_cons in Hin as [->|Hin].
    + by rewrite bool_decide_eq_true_2.
    + rewrite bool_decide_eq_false_2; [by apply IH|].
      intros Heq. apply Hq. rewrite Heq, <- Hid.
      by apply list_elem_of_In, in_map, list_elem_of_In.
Qed.

(** X18.  With a listing in which every provider id occurs once, the
    validation passes exactly when the listing has the provider, lists it as
    connected and has the model among the models of the provider; whatever the
    listing, a provider that it does not have is reported as
    [InvalidProviderError] with the ids of all providers, before anything else
    is checked, and the validation changes nothing in the world. *)
Theorem validate_accepts_iff agent (providerId modelId : jsstring) w data :
  providerList agent = Some (Some data) ->
  (validateProviderAndModel agent providerId modelId w).2 = w
  /\ ((forall p, p ∈ all data -> id p <> providerId) ->
      (validateProviderAndModel agent providerId modelId w).1
      = Err (Validation
               (InvalidProviderError providerId (List.map id (all data)))))
  /\ (NoDup (List.map id (all data)) ->
      ((validateProviderAndModel agent providerId modelId w).1 = Ok tt
       <-> exists p, p ∈ all data /\ id p = providerId
                     /\ providerId ∈ connected data
                     /\ modelId ∈ models p)).
Proof.
  intros Hlist. split; [apply validate_state|].
  rewrite (validate_fails_closed agent providerId modelId w data Hlist).
  split.
  - intros Hnone.
    destruct (List.find _ (all data)) as [p|] eqn:E; [|done].
    apply find_some in E as [Hin Hp]. apply bool_decide_eq_true in Hp.
    by apply list_elem_of_In, Hnone in Hin.
  - intros Hnd. split.
    + destruct (List.find _ (all data)) as [p|] eqn:E; [|done].
      apply find_some in E as [Hin Hp]. apply bool_decide_eq_true in Hp.
      destruct (bool_decide (providerId ∈ connected data)) eqn:Hc; [|done].
      destruct (bool_decide (modelId ∈ models p)) eqn:Hm; [|done].
      intros _. exists p. apply bool_decide_eq_true in Hc, Hm.
      split_and!; try done. by apply list_elem_of_In.
    + intros (p & Hin & Hid & Hc & Hm).
      rewrite (find_by_id _ _ p Hnd Hin Hid).
      by rewrite !bool_decide_eq_true_2.
Qed.

Lemma validate_accepts_iff_witness :
  (validateProviderAndModel agentOtherProvider (lit "opencode")
     (lit "big-pickle") w0).1
  = Err (Validation (InvalidProviderError (lit "opencode") [lit "anthropic"])).
Proof.
  destruct (validate_accepts_iff agentOtherProvider (lit "opencode")
              (lit "big-pickle") w0
              {| all := [mkProvider (lit "anthropic") [lit "claude"]];
                 connected := [lit "anthropic"] |}) as (_ & H & _).
  - reflexivity.
  - apply H. intros p Hp%list_elem_of_singleton. subst p. discriminate.
Defined.

End ValidationMore.

(** ** The planning line and the message states of the command line *)

Section CliFacts.
Import Cli.

Implicit Types (s t : jsstring).

Lemma headIn_app_nonempty p s t : s <> [] -> headIn p (s ++ t) = headIn p s.
Proof. by destruct s. Qed.

Lemma forallb_space_end t :
  t <> [] -> forallb isSpace t = true -> headIn isSpace (reverse t) = true.
Proof.
  induction t as [|c t IH]; [done|]. intros _ [Hc Ht]%andb_true_iff.
  rewrite reverse_cons. destruct t as [|d t]; [done|].
  rewrite headIn_app_nonempty; [by apply IH|].
  rewrite reverse_cons. by destruct (reverse t).
Qed.

(** On a string that does not end with white space, only a colon at the very
    end is removed. *)
Lemma stripTrailingColon_trimmed t :
  headIn isSpace (reverse t) = false ->
  stripTrailingColon t
  = match last t with
    | Some c => if isColon c then removelast t else t
    | None => []
    end.
Proof.
  induction t as [|c t IH]; [done|]. intros Hend.
  destruct t as [|d t].
  - simpl. rewrite andb_true_r. by destruct (isColon c).
  - assert (Hend' : headIn isSpace (reverse (d :: t)) = false).
    { rewrite reverse_cons, headIn_app_nonempty in Hend; [done|].
      rewrite reverse_cons. by destruct (reverse t). }
    change (stripTrailingColon (c :: d :: t))
      with (if isColon c && forallb isSpace (d :: t) then []
            else c :: stripTrailingColon (d :: t)).
    destruct (forallb isSpace (d :: t)) eqn:Hall.
    { apply forallb_space_end in Hall; [congruence|done]. }
    rewrite andb_false_r, (IH Hend').
    change (last (c :: d :: t)) with (last (d :: t)).
    change (removelast (c :: d :: t)) with (c :: removelast (d :: t)).
    destruct (last (d :: t)) as [x|] eqn:Hl.
    + by destruct (isColon x).
    + by apply last_None in Hl.
Qed.

Lemma stripTrailingColon_prefix t : stripTrailingColon t `prefix_of` t.
Proof.
  induction t as [|c t IH]; simpl; [done|].
  destruct (isColon c && forallb isSpace t); [apply prefix_nil|by apply prefix_cons].
Qed.

(** X19.  [sanitizePlanningText] collapses the white space, trims, and then
    removes one colon ([:] or the full-width one) when the text ends with it,
    and nothing else: the result is the cleaned text or the cleaned text
    without its last character.  It is empty -- and the planning line then
    shows nothing -- exactly when the cleaned text is empty or a single
    colon. *)
Theorem sanitizePlanningText_spec (text : jsstring) :
  let cleaned := trim (replaceAll spacesRegex (lit " ") text) in
  sanitizePlanningText text
  = match last cleaned with
    | Some c => if isColon c then removelast cleaned else cleaned
    | None => []
    end
  /\ sanitizePlanningText text `prefix_of` cleaned
  /\ collapsed (sanitizePlanningText text) = true
  /\ headIn isSpace (sanitizePlanningText text) = false
  /\ (sanitizePlanningText text = []
      <-> cleaned = [] \/ exists c, cleaned = [c] /\ isColon c = true).
Proof.
  intros cleaned. unfold sanitizePlanningText. fold cleaned.
  pose proof (stripTrailingColon_prefix cleaned) as Hpre.
  assert (Hend : headIn isSpace (reverse cleaned) = false) by apply trim_end.
  assert (Hstart : headIn isSpace cleaned = false) by apply trim_start.
  assert (Hcol : collapsed cleaned = true).
  { unfold cleaned.
    set (spaced := replaceAll spacesRegex (lit " ") text).
    destruct (trim_infix spaced) as (a & b & Hab).
    assert (H : collapsed spaced = true) by by apply spaces_collapsed.
    rewrite Hab in H. by apply collapsed_app_r, collapsed_app_l in H. }
  split_and!; [by apply stripTrailingColon_trimmed|done| | |].
  - destruct Hpre as [k Hk]. rewrite Hk in Hcol. by apply collapsed_app_l in Hcol.
  - destruct Hpre as [k Hk]. rewrite Hk in Hstart.
    destruct (stripTrailingColon cleaned); [done|]. done.
  - rewrite (stripTrailingColon_trimmed _ Hend).
    destruct cleaned as [|c [|d t]]; simpl.
    + split; [by left|done].
    + destruct (isColon c) eqn:Hc.
      * split; [intros _; right; by exists c|done].
      * split; [done|]. intros [?|(x & [= ->] & Hx)]; [done|congruence].
    + destruct (last (d :: t)) as [x|] eqn:Hl.
      * destruct (isColon x); (split; [done|]);
          intros [?|(y & ? & _)]; done.
      * by apply last_None in Hl.
Qed.

(** X20.  The state of the message of the current event is never swept: after
    [getMessageState(id, now)] and [cleanupMessageStates(now)] the map holds
    the state returned, last seen now; a message seen before keeps its flags,
    a new one starts suppressed with nothing printed.  Of the other messages,
    those seen within the last 60000 ms are kept as they are, and no other
    state is in the map. *)
Theorem message_state_survives_cleanup
    (messageStates : gmap jsstring MessageState) (messageId : jsstring) (now : Z) :
  let state := (getMessageState messageStates messageId now).1 in
  let swept :=
    cleanupMessageStates (getMessageState messageStates messageId now).2 now in
  swept !! messageId = Some state
  /\ lastSeen state = now
  /\ match messageStates !! messageId with
     | Some old => suppressed state = suppressed old
                   /\ printedChars state = printedChars old
     | None => suppressed state = true /\ printedChars state = 0%Z
     end
  /\ forall (other : jsstring) (st : MessageState),
       other <> messageId ->
       (swept !! other = Some st
        <-> messageStates !! other = Some st
            /\ (now - lastSeen st <= MESSAGE_STATE_TTL_MS)%Z).
Proof.
  intros state swept. subst state swept.
  unfold getMessageState, cleanupMessageStates.
  destruct (messageStates !! messageId) as [old|] eqn:E; simpl.
  - split_and!; try done.
    + apply map_lookup_filter_Some. rewrite lookup_insert_eq. split; [done|].
      simpl. unfold MESSAGE_STATE_TTL_MS. lia.
    + intros other st Hne. rewrite map_lookup_filter_Some.
      rewrite lookup_insert_ne by done. simpl. split; intros [H1 H2]; split;
        try done; lia.
  - split_and!; try done.
    + apply map_lookup_filter_Some. rewrite lookup_insert_eq. split; [done|].
      simpl. unfold MESSAGE_STATE_TTL_MS. lia.
    + intros other st Hne. rewrite map_lookup_filter_Some.
      rewrite lookup_insert_ne by done. simpl. split; intros [H1 H2]; split;
        try done; lia.
Qed.

End CliFacts.

(** ** The port probe, whatever the agent *)

Section ProbeFacts.
Import Sys Workspace Agent Oc.

(** X21.  Whatever the agent answers, the probe ends: it has tried between
    one and 30 ports, consecutive from 3420 on, it has started at most one
    server, and it returns either an instance on the last port tried or one of
    its two errors, the ports-exhausted one only after 30 attempts. *)
Theorem port_probe_bounded (agent : Agent.Agent) (info : WorkspaceInfo)
    (w : World) :
  exists k : nat,
    (1 <= k <= 30)%nat
    /\ bootAttempts (getOpencodeInstanceForWorkspace agent info w).2
       = bootAttempts w ++ portsFrom 0 k
    /\ ((exists inst,
           (getOpencodeInstanceForWorkspace agent info w).1 = Ok inst
           /\ server inst = 3420 + N.of_nat (k - 1)
           /\ servers (getOpencodeInstanceForWorkspace agent info w).2
              = servers w ++ [server inst])
        \/ ((getOpencodeInstanceForWorkspace agent info w).1
              = Err (OcError (lit "FAILED TO CREATE OPENCODE CLIENT"))
            /\ servers (getOpencodeInstanceForWorkspace agent info w).2 = servers w)
        \/ ((getOpencodeInstanceForWorkspace agent info w).1
              = Err (OcError
                  (lit "FAILED TO CREATE OPENCODE CLIENT - all ports exhausted"))
            /\ k = 30%nat
            /\ servers (getOpencodeInstanceForWorkspace agent info w).2
               = servers w)).
Proof.
  destruct (first_free_port agent 30) as (n & Hn & Hbusy & Hfree).
  destruct (getOpencodeInstance_outcome agent info w n Hn Hbusy Hfree)
    as (H1 & H2 & H3 & _).
  exists (Nat.min (S n) 30). split; [lia|]. split; [done|].
  rewrite H2, H3. destruct (decide (n = 30%nat)) as [->|Hne].
  - right. right. simpl. by rewrite app_nil_r.
  - replace (n =? 30)%nat with false by (symmetry; apply Nat.eqb_neq; lia).
    replace (Nat.min (S n) 30) with (S n) by lia.
    destruct (createOpencode agent (3420 + N.of_nat n)).
    + left. eexists. split; [done|]. simpl. split; [|done]. f_equal. lia.
    + right. left. by rewrite app_nil_r.
Qed.

End ProbeFacts.

(** ** Paths: where the join is a concatenation *)

Section PathFacts.
Import Workspace.

Implicit Types (d n : jsstring) (names : list jsstring).

Lemma join_snoc (sep : jsstring) names n :
  names <> [] -> join sep (names ++ [n]) = join sep names ++ sep ++ n.
Proof.
  induction names as [|r names IH]; [done|]. intros _.
  destruct names as [|r' names]; [done|].
  change ((r :: r' :: names) ++ [n]) with (r :: r' :: (names ++ [n])).
  rewrite !join_cons2.
  change (r' :: (names ++ [n])) with ((r' :: names) ++ [n]).
  rewrite IH by done. by rewrite <- !app_assoc.
Qed.

Lemma split_join_sep (sep : code_unit) names :
  names <> [] -> Forall (fun r => sep ∉ r) names ->
  split sep (join [sep] names) = names.
Proof.
  intros Hne Hfree. induction Hfree as [|r names Hr Hnames IH]; [done|].
  destruct names as [|r' names].
  - simpl. by apply split_free.
  - rewrite join_cons2. change ([sep] ++ ?x) with (sep :: x).
    rewrite split_free_app by done. by rewrite IH.
Qed.

(** Plain names are kept as they are by the walk of [normalizeString]. *)
Lemma normalizeStep_plain (above : bool) names (kept : list jsstring) :
  Forall plainName names ->
  fold_left (Path.normalizeStep above) names kept = rev names ++ kept.
Proof.
  intros Hnames. revert kept.
  induction Hnames as [|r names (H1 & _ & H3 & H4) _ IH]; intros kept; [done|].
  simpl. unfold Path.normalizeStep at 2.
  rewrite !bool_decide_eq_false_2 by done. simpl.
  by rewrite IH, <- app_assoc.
Qed.

Lemma plainName_slash n : plainName n -> Path.slash ∉ n.
Proof. by intros (_ & H & _). Qed.

(** An absolute path made of plain names does not end with a [/]. *)
Lemma last_plain names :
  names <> [] -> Forall plainName names ->
  match last (Path.slash :: join [Path.slash] names) with
  | Some c => c =? Path.slash
  | None => false
  end = false.
Proof.
  intros Hne Hnames.
  destruct names as [|r names _] using rev_ind; [done|].
  apply Forall_app in Hnames as [_ [(Hr1 & Hr2 & _) _]%Forall_cons].
  assert (Hend : exists pre c, Path.slash :: join [Path.slash] (names ++ [r])
                               = pre ++ [c] /\ c ∈ r).
  { destruct r as [|c r _] using rev_ind; [done|].
    destruct names as [|x names].
    - exists (Path.slash :: r), c. split; [done|]. apply elem_of_app. right. left.
    - rewrite join_snoc by done.
      exists (Path.slash :: join [Path.slash] (x :: names) ++ [Path.slash] ++ r), c.
      split; [generalize (join [Path.slash] (x :: names)); intros j; simpl; f_equal; by rewrite <- !app_assoc|]. apply elem_of_app. right. left. }
  destruct Hend as (pre & c & Hend & Hc).
  cut (forall l : jsstring, l = pre ++ [c] ->
         match last l with Some c0 => c0 =? Path.slash | None => false end = false).
  { intros Hcut. by apply Hcut. }
  intros l ->. rewrite last_snoc. apply N.eqb_neq. by intros ->.
Qed.

(** Such a path is in normal form: [normalize] returns it. *)
Lemma normalize_absolute names :
  names <> [] -> Forall plainName names ->
  Path.normalize (Path.slash :: join [Path.slash] names)
  = Path.slash :: join [Path.slash] names.
Proof.
  intros Hne Hnames. unfold Path.normalize.
  rewrite N.eqb_refl. simpl negb. rewrite last_plain by done.
  assert (Hns : Path.normalizeString (Path.slash :: join [Path.slash] names) false
                = join [Path.slash] names).
  { unfold Path.normalizeString.
    assert (Hsplit : split Path.slash (Path.slash :: join [Path.slash] names)
                     = [] :: names).
    { change (split Path.slash (Path.slash :: ?x)) with ([] :: split Path.slash x).
      f_equal. apply split_join_sep; [done|].
      eapply Forall_impl; [exact Hnames|]. apply plainName_slash. }
    cut (forall pieces, pieces = [] :: names ->
           join [Path.slash] (rev (fold_left (Path.normalizeStep false) pieces []))
           = join [Path.slash] names).
    { intros Hcut. by apply Hcut. }
    intros pieces ->. simpl.
    by rewrite normalizeStep_plain, app_nil_r, rev_involutive. }
  destruct (Path.normalizeString _ false) as [|c t].
  - destruct names as [|r names]; [done|].
    apply Forall_cons in Hnames as [(Hr & _) _].
    destruct names; simpl in Hns; [done|]. by destruct r.
  - rewrite <- Hns. simpl. by rewrite app_nil_r.
Qed.

(** On a directory in normal form and a plain name, [join] normalises
    nothing: it is the concatenation with a [/] between the two. *)
Lemma pathJoin_is_join d n :
  normalDir d -> plainName n -> Path.join [d; n] = pathJoin d n.
Proof.
  intros (names & Hne & Hnames & ->) Hn.
  pose proof Hn as (Hn1 & _).
  unfold Path.join. simpl List.filter.
  rewrite (bool_decide_eq_false_2 (n = [])) by done. simpl negb. cbv iota.
  assert (Hall : Forall plainName (names ++ [n])).
  { apply Forall_app. split; [done|by constructor]. }
  assert (Hne' : names ++ [n] <> []) by by destruct names.
  pose proof (normalize_absolute (names ++ [n]) Hne' Hall) as Hnorm.
  rewrite join_snoc in Hnorm by done.
  unfold pathJoin. exact Hnorm.
Qed.

(** Joining a plain name to a directory in normal form gives one. *)
Lemma normalDir_join d n : normalDir d -> plainName n -> normalDir (pathJoin d n).
Proof.
  intros (names & Hne & Hnames & ->) Hn. exists (names ++ [n]).
  split_and!.
  - by destruct names.
  - apply Forall_app. split; [done|by constructor].
  - rewrite join_snoc by done. done.
Qed.

Lemma elem_of_join (c : code_unit) (sep : jsstring) names :
  c ∈ join sep names -> c ∈ sep \/ exists r, r ∈ names /\ c ∈ r.
Proof.
  induction names as [|r names IH]; [by intros ?%elem_of_nil|].
  destruct names as [|r' names].
  - simpl. intros Hc. right. exists r. split; [left|done].
  - rewrite join_cons2, !elem_of_app. intros [Hc|[Hc|Hc]].
    + right. exists r. split; [left|done].
    + by left.
    + destruct (IH Hc) as [?|(x & Hx & Hcx)]; [by left|].
      right. exists x. split; [by right|done].
Qed.

(** A key whose parts are plain names is one itself. *)
Lemma plainName_key (key : jsstring) :
  Forall plainName (split 43 key) -> plainName key.
Proof.
  intros Hparts. split_and!.
  - intros ->. simpl in Hparts. apply Forall_cons in Hparts as [(H & _) _].
    done.
  - intros Hc. rewrite <- (join_split key) in Hc.
    apply elem_of_join in Hc as [Hc|(r & Hr & Hc)].
    + apply list_elem_of_In in Hc. simpl in Hc. by destruct Hc as [|[]].
    + rewrite Forall_forall in Hparts. by destruct (Hparts r Hr) as (_ & H & _).
  - intros ->. apply Forall_cons in Hparts as [(_ & _ & H & _) _]. done.
  - intros ->. apply Forall_cons in Hparts as [(_ & _ & _ & H) _]. done.
Qed.

End PathFacts.

(** ** Clearing a workspace *)

Section ClearFacts.
Import Sys Workspace WorkspaceClear.

Implicit Types (cfg : Config) (rm : Removals) (w : World) (p d n : jsstring)
  (log : list WorktreeRemove).

Lemma startsWith_app (p s : jsstring) : startsWith p (p ++ s) = true.
Proof. induction p as [|c p IH]; simpl; [done|]. by rewrite N.eqb_refl. Qed.

Lemma startsWith_inv (p s : jsstring) :
  startsWith p s = true -> exists k, s = p ++ k.
Proof.
  revert s; induction p as [|c p IH]; intros s; simpl; [by exists s|].
  destruct s as [|x s]; [done|].
  intros [->%N.eqb_eq [k ->]%IH]%andb_true_iff. by exists k.
Qed.

Lemma isUnder_inv d p :
  isUnder d p = true -> exists k, p = d ++ k /\ (k = [] \/ exists k', k = 47 :: k').
Proof.
  unfold isUnder. intros [->%bool_decide_eq_true|[k ->]%startsWith_inv]%orb_true_iff.
  - exists []. rewrite app_nil_r. by split; [|left].
  - exists (lit "/" ++ k). rewrite <- app_assoc. split; [done|]. right. by exists k.
Qed.

(** What lies below a child lies below the parent; the parent does not lie
    below its child. *)
Lemma isUnder_child d n p : isUnder (pathJoin d n) p = true -> isUnder d p = true.
Proof.
  intros (k & -> & _)%isUnder_inv. unfold isUnder, pathJoin.
  apply orb_true_iff. right.
  replace ((d ++ lit "/" ++ n) ++ k) with ((d ++ lit "/") ++ n ++ k)
    by (by rewrite <- !app_assoc).
  apply startsWith_app.
Qed.

Lemma isUnder_parent d n : isUnder (pathJoin d n) d = false.
Proof.
  destruct (isUnder (pathJoin d n) d) eqn:E; [|done].
  apply isUnder_inv in E as (k & E & _). unfold pathJoin in E.
  apply (f_equal length) in E. rewrite !length_app in E. simpl in E. lia.
Qed.

Lemma elem_of_removeTree d w p :
  p ∈ dirs (removeTree d w) <-> p ∈ dirs w /\ isUnder d p = false.
Proof. unfold removeTree; simpl. rewrite elem_of_filter. tauto. Qed.

Lemma removeOne_run rm (rd path n : jsstring) w log :
  removeOne rm rd path n (mkState w log) =
    if bool_decide (pathJoin rd n ∈ dirs w) then
      if removeWorktreeFails rm (pathJoin path n)
      then (Err (GitError (lit "worktree remove") (pathJoin path n)),
            mkState w log)
      else (Ok tt, mkState (removeTree (pathJoin path n) w)
                     (log ++ [mkWorktreeRemove (pathJoin rd n) (pathJoin path n)]))
    else (Ok tt, mkState w log).
Proof.
  unfold removeOne, bindC, liftC, directoryExists, gets, removeWorktree, failC,
    retC; simpl.
  destruct (bool_decide _); [|done]. by destruct (removeWorktreeFails rm _).
Qed.

(** The loop removes worktrees of the names only, inside the workspace. *)
Lemma removeLoop_effects rm (rd path : jsstring) (l : list jsstring) :
  forall w log,
    exists w' rem,
      (forEachC (removeOne rm rd path) l (mkState w log)).2
        = mkState w' (log ++ rem)
      /\ Forall (fun r => exists n, n ∈ l
                   /\ r = mkWorktreeRemove (pathJoin rd n) (pathJoin path n)) rem
      /\ (forall p, p ∈ dirs w' -> p ∈ dirs w)
      /\ (forall p, isUnder path p = false -> p ∈ dirs w -> p ∈ dirs w')
      /\ (path ∈ dirs w -> path ∈ dirs w').
Proof.
  induction l as [|n l IH]; intros w log; simpl.
  - exists w, []. rewrite app_nil_r. by split_and!.
  - unfold bindC. rewrite removeOne_run.
    destruct (bool_decide (pathJoin rd n ∈ dirs w)).
    + destruct (removeWorktreeFails rm (pathJoin path n)).
      * exists w, []. rewrite app_nil_r. by split_and!.
      * destruct (IH (removeTree (pathJoin path n) w)
                    (log ++ [mkWorktreeRemove (pathJoin rd n) (pathJoin path n)]))
          as (w' & rem & H1 & H2 & H3 & H4 & H5).
        exists w', (mkWorktreeRemove (pathJoin rd n) (pathJoin path n) :: rem).
        rewrite H1, <- app_assoc. split_and!; [done| | | |].
        -- constructor; [exists n; split; [left|done]|].
           eapply Forall_impl; [exact H2|]. intros r (m & Hm & ->).
           exists m. split; [by right|done].
        -- intros p Hp%H3. by apply elem_of_removeTree in Hp as [Hp _].
        -- intros p Hout Hp. apply H4; [done|]. apply elem_of_removeTree.
           split; [done|]. destruct (isUnder (pathJoin path n) p) eqn:E; [|done].
           apply isUnder_child in E. congruence.
        -- intros Hp. apply H5, elem_of_removeTree. split; [done|].
           apply isUnder_parent.
    + destruct (IH w log) as (w' & rem & H1 & H2 & H3 & H4 & H5).
      exists w', rem. split_and!; try done.
      eapply Forall_impl; [exact H2|]. intros r (m & Hm & ->).
      exists m. split; [by right|done].
Qed.

(** [clearWorkspace], step by step. *)
Lemma clearWorkspace_run cfg rm (key : jsstring) w log :
  let path := pathJoin (workspacesDirectory cfg) key in
  clearWorkspace cfg rm key (mkState w log) =
    if bool_decide (path ∈ dirs w) then
      match forEachC (removeOne rm (reposDirectory cfg) path) (split 43 key)
              (mkState w log) with
      | (Err e, s1) => (Err e, s1)
      | (Ok _, s1) =>
          if removeDirectoryFails rm path then (Err (FileError path), s1)
          else (Ok tt, mkState (removeTree path (world s1)) (worktreeRemoves s1))
      end
    else (Err (ConfigError (notFoundMessage key)), mkState w log).
Proof.
  intros path. unfold clearWorkspace, clearWorkspaceInternal. fold path.
  unfold bindC at 1, liftC at 1, directoryExists at 1, gets; simpl.
  destruct (bool_decide (path ∈ dirs w)); simpl; [|done].
  unfold bindC at 1. fold (removeOne rm (reposDirectory cfg) path).
  destruct (forEachC _ _ _) as [[[]|e] s1]; [|done].
  unfold removeDirectory, failC. by destruct (removeDirectoryFails rm path).
Qed.

(** X22.  [clearWorkspace] of a key made of plain names, with the
    directories of the configuration in normal form -- there every join of
    the function only puts a [/] between its arguments, and one directory has
    one path.  A workspace that does not exist is reported as not found and
    nothing is done.  A successful clear removes the directory of the
    workspace with all below it and nothing else; a clear that fails leaves
    the directory of the workspace in place.  In every case it touches no
    directory outside the workspace, and the worktrees it removes are those
    of the names that [key.split('+')] gives, at
    [<workspacesDir>/<key>/<name>]. *)
Theorem clearWorkspace_outcome cfg rm (key : jsstring) w log :
  normalDir (workspacesDirectory cfg) ->
  normalDir (reposDirectory cfg) ->
  Forall plainName (split 43 key) ->
  let path := pathJoin (workspacesDirectory cfg) key in
  let run := clearWorkspace cfg rm key (mkState w log) in
  (Path.join [workspacesDirectory cfg; key] = path
   /\ Forall (fun n =>
        Path.join [reposDirectory cfg; n] = pathJoin (reposDirectory cfg) n
        /\ Path.join [path; n] = pathJoin path n) (split 43 key))
  /\ ((path ∉ dirs w) ->
      run = (Err (ConfigError (notFoundMessage key)), mkState w log))
  /\ (run.1 = Ok tt ->
      path ∈ dirs w
      /\ forall p, p ∈ dirs (world run.2) <-> p ∈ dirs w /\ isUnder path p = false)
  /\ (forall e, run.1 = Err e -> path ∈ dirs w -> path ∈ dirs (world run.2))
  /\ (forall p, isUnder path p = false ->
        (p ∈ dirs (world run.2) <-> p ∈ dirs w))
  /\ exists rem,
       worktreeRemoves run.2 = log ++ rem
       /\ Forall (fun r => exists n, n ∈ split 43 key
                    /\ r = mkWorktreeRemove (pathJoin (reposDirectory cfg) n)
                             (pathJoin path n)) rem.
Proof.
  intros Hwd Hrd Hkey path run. split.
  { pose proof (plainName_key key Hkey) as Hplain.
    split; [by apply pathJoin_is_join|].
    eapply Forall_impl; [exact Hkey|]. intros n Hn.
    split; apply pathJoin_is_join; try done. by apply normalDir_join. }
  subst run. rewrite clearWorkspace_run. fold path.
  destruct (bool_decide (path ∈ dirs w)) eqn:Hex.
  2:{ apply bool_decide_eq_false in Hex. simpl.
      split_and!; try done. exists []. by rewrite app_nil_r. }
  apply bool_decide_eq_true in Hex.
  destruct (removeLoop_effects rm (reposDirectory cfg) path (split 43 key) w log)
    as (w' & rem & H1 & H2 & H3 & H4 & H5).
  assert (Hout : forall p, isUnder path p = false -> p ∈ dirs w' <-> p ∈ dirs w).
  { intros p Hp. split; [apply H3|by apply H4]. }
  destruct (forEachC _ _ _) as [[[]|e] s1]; simpl in H1; subst s1; simpl.
  - destruct (removeDirectoryFails rm path); simpl.
    + split_and!.
      * intros Hno. by destruct Hno.
      * done.
      * intros e _ _. by apply H5.
      * exact Hout.
      * by exists rem.
    + split_and!.
      * intros Hno. by destruct Hno.
      * intros _. split; [done|]. intros p. rewrite elem_of_filter.
        split; [intros [? Hp]; split; [by apply H3|done]|].
        intros [Hp Hp']. split; [done|by apply H4].
      * done.
      * intros p Hp. rewrite elem_of_filter, <- (Hout p Hp). tauto.
      * by exists rem.
  - split_and!.
    + intros Hno. by destruct Hno.
    + done.
    + intros e' _ _. by apply H5.
    + exact Hout.
    + by exists rem.
Qed.

Lemma clearWorkspace_outcome_witness :
  clearWorkspace cfg0 rm0 (lit "a+b") (mkState w0 [])
    = (Err (ConfigError (notFoundMessage (lit "a+b"))), mkState w0 [])
  /\ (lit "/w/a+b"
        ∉ dirs (world
                  (clearWorkspace cfg0 rm0 (lit "a+b")
                     (mkState (ensureWorkspace cfg0 out1 [lit "b"; lit "a"] w0).2
                        [])).2))
  /\ lit "/r/a"
       ∈ dirs (world
                 (clearWorkspace cfg0 rm0 (lit "a+b")
                    (mkState (ensureWorkspace cfg0 out1 [lit "b"; lit "a"] w0).2
                       [])).2).
Proof.
  assert (Hplain : forall n : jsstring,
            n = lit "w" \/ n = lit "r" \/ n = lit "a" \/ n = lit "b" ->
            plainName n).
  { intros n [->|[->|[->| ->]]];
      (split_and!; [by vm_compute| |by vm_compute|by vm_compute]);
      apply (bool_decide_unpack _); by vm_compute. }
  assert (Hwd : normalDir (workspacesDirectory cfg0)).
  { exists [lit "w"]. split_and!; [done| |by vm_compute].
    constructor; [|done]. apply Hplain. by left. }
  assert (Hrd : normalDir (reposDirectory cfg0)).
  { exists [lit "r"]. split_and!; [done| |by vm_compute].
    constructor; [|done]. apply Hplain. right. by left. }
  assert (Hkey : Forall plainName (split 43 (lit "a+b"))).
  { assert (split 43 (lit "a+b") = [lit "a"; lit "b"]) as -> by by vm_compute.
    repeat constructor; apply Hplain; tauto. }
  split.
  - destruct (clearWorkspace_outcome cfg0 rm0 (lit "a+b") w0 [] Hwd Hrd Hkey)
      as (_ & H & _).
    apply H. apply (bool_decide_unpack _). by vm_compute.
  - destruct (clearWorkspace_outcome cfg0 rm0 (lit "a+b")
                (ensureWorkspace cfg0 out1 [lit "b"; lit "a"] w0).2 []
                Hwd Hrd Hkey) as (_ & _ & H & _).
    destruct H as [_ H]; [by vm_compute|].
    split.
    + intros [_ Habs]%H. revert Habs. by vm_compute.
    + apply H. split; [|by vm_compute].
      apply (bool_decide_unpack _). by vm_compute.
Defined.







End ClearFacts.

(** ** What [parseQuery] returns is canonical *)

Section ParseCanonical.

Lemma lowerUnit_mention (c : code_unit) :
  isMentionChar c = true -> isMentionChar (lowerUnit c) = true.
Proof.
  unfold lowerUnit, isUpper. intros Hc.
  destruct (65 <=? c) eqn:H1; [|done]. destruct (c <=? 90) eqn:H2; [|done].
  simpl. apply N.leb_le in H1, H2. unfold isMentionChar.
  replace (97 <=? c + 32) with true by (symmetry; apply N.leb_le; lia).
  replace (c + 32 <=? 122) with true by (symmetry; apply N.leb_le; lia).
  done.
Qed.

Lemma takeClass_Forall p (s : jsstring) :
  Forall (fun c => p c = true) (takeClass p s).
Proof.
  induction s as [|c s IH]; simpl; [done|].
  destruct (p c) eqn:E; [by constructor|done].
Qed.

Lemma mentionAt_capture (s name rest : jsstring) :
  mentionAt s = Some (name, rest) -> mentionName (toLowerCase name).
Proof.
  destruct s as [|c t]; simpl; [done|]. destruct (c =? atSign); [|done].
  pose proof (takeClass_Forall isMentionChar t) as Hall.
  destruct (takeClass isMentionChar t) as [|d name'] eqn:E; [done|].
  intros [= <- <-]. split_and!; [done| |apply toLowerCase_lowercase].
  unfold toLowerCase. apply Forall_forall. intros x Hx.
  apply list_elem_of_In, in_map_iff in Hx as (y & <- & Hy).
  apply lowerUnit_mention. rewrite Forall_forall in Hall.
  by apply Hall, list_elem_of_In.
Qed.

Lemma execLoop_names (f : nat) (s : jsstring) : Forall mentionName (execLoop f s).
Proof.
  revert s; induction f as [|f IH]; intros [|c t];
    rewrite ?execLoop_nil; try by constructor.
  rewrite execLoop_cons.
  destruct (mentionAt (c :: t)) as [[name rest]|] eqn:E; [|apply IH].
  constructor; [by eapply mentionAt_capture|apply IH].
Qed.

(** X24.  What [parseQuery] returns is canonical, for every input: each
    repository is a non-empty lower-case name over [[a-z0-9_-]], the prompt is
    clean, and rendering the result and parsing it again gives the same
    result. *)
Theorem parseQuery_canonical (x : jsstring) :
  Forall mentionName (repos (parseQuery x))
  /\ cleanPrompt (query (parseQuery x))
  /\ parseQuery (render (repos (parseQuery x)) (query (parseQuery x)))
     = parseQuery x.
Proof.
  destruct (parseQuery_query_clean x) as (H1 & H2 & H3 & H4).
  destruct (parseQuery_repos_sorted x) as [Hs _].
  assert (Hn : Forall mentionName (repos (parseQuery x))).
  { unfold parseQuery; simpl. apply Forall_forall. intros r Hr.
    rewrite sort_Permutation, newSet_elem_of in Hr.
    pose proof (execLoop_names (length x) x) as H.
    rewrite Forall_forall in H. by apply H. }
  split_and!; [done| |].
  - split_and!; try done. by apply noMention_sound.
  - rewrite (parseQuery_render_clean _ _ Hs Hn H1 H2 H3 H4).
    by destruct (parseQuery x).
Qed.

End ParseCanonical.
